(** * A binary min-heap priority queue (lib/priority-queue.c)

    Shallow embedding of the C library and proofs about it.

    Modelling conventions.
    - A C [int] is a mathematical integer ([Z]).  The library compares
      priorities and payloads but never computes with them; counters and
      indices are only incremented, decremented, doubled and halved, and
      signed overflow (undefined in C) would need more than 2^30 queued
      elements.  Index arithmetic is therefore done in [Z].
    - [q->heap] is an array of [PQ_Node*].  A node is written once, when it
      is allocated in [PQ_enqueue], and never modified afterwards, so a cell
      of the array is modelled by the node it points to; a cell that was
      never assigned is [None].
    - Reading outside the allocated block, or reading a cell that was never
      assigned, is undefined behaviour: the embedding returns [Undefined].
    - [malloc]/[realloc] are assumed to succeed (on failure the library
      prints a diagnostic and exits).  [free] is not represented: the only
      node that is released is the one [PQ_dequeue] has just unlinked from
      the live part of the array. *)

From Stdlib Require Import ZArith Lia.
From stdpp Require Import base tactics option list sorting gmap.

Local Open Scope Z_scope.

(** ** Outcomes of a call *)

Inductive outcome (A : Type) : Type :=
| Done (a : A)          (* the call returns [a] *)
| Undefined             (* the call runs into undefined behaviour *)
| OutOfFuel.            (* the embedding ran out of recursion fuel *)
Arguments Done {A} a.
Arguments Undefined {A}.
Arguments OutOfFuel {A}.

Definition bind {A B : Type} (m : outcome A) (k : A -> outcome B) : outcome B :=
  match m with
  | Done a => k a
  | Undefined => Undefined
  | OutOfFuel => OutOfFuel
  end.

Notation "'let*' x ':=' m 'in' k" := (bind m (fun x => k))
  (at level 10, x pattern, m at level 100, k at level 200).

(** ** Data model (priority-queue.h) *)

Definition PQ_INITIAL_SIZE : Z := 10.
Definition PQ_INCREMENT_SIZE : Z := 10.

Record PQ_Node : Type := mkNode { data : Z; priority : Z }.

(** One cell of the backing array. *)
Abbreviation slot := (option PQ_Node).

Record PQ_pq : Type := mkPQ {
  current_size : Z;
  capacity : Z;
  heap : list slot
}.

Definition set_heap (q : PQ_pq) (h : list slot) : PQ_pq :=
  {| current_size := current_size q; capacity := capacity q; heap := h |}.

Definition set_current_size (q : PQ_pq) (n : Z) : PQ_pq :=
  {| current_size := n; capacity := capacity q; heap := heap q |}.

(** [h[i]->...]: dereference the pointer stored in cell [i]. *)
Definition rd (h : list slot) (i : Z) : outcome PQ_Node :=
  if i <? 0 then Undefined
  else match h !! Z.to_nat i with
       | Some (Some n) => Done n
       | _ => Undefined
       end.

(** [h[i] = n]. *)
Definition wr (h : list slot) (i : Z) (n : PQ_Node) : outcome (list slot) :=
  if (0 <=? i) && (i <? Z.of_nat (length h))
  then Done (<[Z.to_nat i := Some n]> h)
  else Undefined.

(** ** Index arithmetic *)

Definition _parent (i : Z) : Z := Z.quot (i - 1) 2.
Definition _left_child (i : Z) : Z := 2 * i + 1.
Definition _right_child (i : Z) : Z := 2 * i + 2.

(** ** Helpers *)

(** [_swap(&h[a], &h[b])]. *)
Definition _swap (a b : Z) (h : list slot) : outcome (list slot) :=
  let* tmp := rd h a in
  let* nb := rd h b in
  let* h1 := wr h a nb in
  wr h1 b tmp.

(** The [while] loop of [_shift_up]; one unit of fuel per evaluation of the
    loop condition. *)
Fixpoint shift_up_loop (fuel : nat) (i : Z) (q : PQ_pq) : outcome PQ_pq :=
  match fuel with
  | O => OutOfFuel
  | S fuel' =>
      if 0 <? i then
        let* p := rd (heap q) (_parent i) in
        let* c := rd (heap q) i in
        if priority p >? priority c then
          let* h' := _swap (_parent i) i (heap q) in
          shift_up_loop fuel' (_parent i) (set_heap q h')
        else Done q
      else Done q
  end.

Definition _shift_up (i : Z) (q : PQ_pq) : outcome PQ_pq :=
  shift_up_loop (S (Z.to_nat i)) i q.

(** One guarded comparison of [_shift_down]:
    [if (c <= q->current_size && q->heap[c]->priority < q->heap[max_i]->priority) max_i = c;] *)
Definition pick (q : PQ_pq) (c max_i : Z) : outcome Z :=
  if c <=? current_size q then
    let* nc := rd (heap q) c in
    let* nm := rd (heap q) max_i in
    Done (if priority nc <? priority nm then c else max_i)
  else Done max_i.

(** The recursion of [_shift_down]; one unit of fuel per call. *)
Fixpoint shift_down_rec (fuel : nat) (i : Z) (q : PQ_pq) : outcome PQ_pq :=
  match fuel with
  | O => OutOfFuel
  | S fuel' =>
      let max_i := i in
      let l := _left_child i in
      let* max_i := pick q l max_i in
      let r := _right_child i in
      let* max_i := pick q r max_i in
      if negb (i =? max_i) then
        let* h' := _swap i max_i (heap q) in
        shift_down_rec fuel' max_i (set_heap q h')
      else Done q
  end.

Definition _shift_down (i : Z) (q : PQ_pq) : outcome PQ_pq :=
  shift_down_rec (S (Z.to_nat (current_size q - i))) i q.

(** ** Storage *)

(** [realloc] to [n] cells: the old cells are kept, new ones are unassigned. *)
Definition realloc (h : list slot) (n : Z) : list slot :=
  resize (Z.to_nat n) None h.

Definition _check_size (q : PQ_pq) : PQ_pq :=
  if current_size q + 1 >? capacity q then
    {| current_size := capacity q;
       capacity := capacity q + PQ_INCREMENT_SIZE;
       heap := realloc (heap q) (capacity q + PQ_INCREMENT_SIZE) |}
  else q.

Definition PQ_create : PQ_pq :=
  {| current_size := 0;
     capacity := PQ_INITIAL_SIZE;
     heap := replicate (Z.to_nat PQ_INITIAL_SIZE) None |}.

(** ** Public operations *)

Definition PQ_enqueue (q : PQ_pq) (d p : Z) : outcome PQ_pq :=
  let to_add := {| data := d; priority := p |} in
  let q := _check_size q in
  let* h := wr (heap q) (current_size q) to_add in
  let q := set_heap q h in
  let* q := _shift_up (current_size q) q in
  Done (set_current_size q (current_size q + 1)).

Definition PQ_peek (q : PQ_pq) : outcome (Z * PQ_pq) :=
  let* n := rd (heap q) 0 in
  Done (data n, q).

Definition _PQ_dequeue (q : PQ_pq) : outcome (PQ_Node * PQ_pq) :=
  let* n := rd (heap q) 0 in
  let* last := rd (heap q) (current_size q - 1) in
  let* h := wr (heap q) 0 last in
  let q := set_heap q h in
  let q := set_current_size q (current_size q - 1) in
  let* q := _shift_down 0 q in
  Done (n, q).

Definition PQ_dequeue (q : PQ_pq) : outcome (Z * PQ_pq) :=
  let* (node, q) := _PQ_dequeue q in
  Done (data node, q).

(** [arr[i]->...] on the caller's array of nodes. *)
Definition arr_at (arr : list PQ_Node) (i : Z) : outcome PQ_Node :=
  if i <? 0 then Undefined
  else match arr !! Z.to_nat i with
       | Some n => Done n
       | None => Undefined
       end.

(** The [for] loop of [PQ_heapify], with [todo = size - i] iterations left. *)
Fixpoint heapify_loop (arr : list PQ_Node) (todo : nat) (i : Z) (pq : PQ_pq)
  : outcome PQ_pq :=
  match todo with
  | O => Done pq
  | S todo' =>
      let* n := arr_at arr i in
      let* pq := PQ_enqueue pq (data n) (priority n) in
      heapify_loop arr todo' (i + 1) pq
  end.

Definition PQ_heapify (arr : list PQ_Node) (size : Z) : outcome PQ_pq :=
  let pq := PQ_create in
  let pq := {| current_size := current_size pq;
               capacity := size;
               heap := replicate (Z.to_nat size) None |} in
  heapify_loop arr (Z.to_nat size) 0 pq.

(** ** Client loops used in the statements *)

(** [PQ_enqueue] every node of [l], first to last. *)
Fixpoint enqueue_all (l : list PQ_Node) (q : PQ_pq) : outcome PQ_pq :=
  match l with
  | [] => Done q
  | n :: l' =>
      let* q := PQ_enqueue q (data n) (priority n) in
      enqueue_all l' q
  end.

(** [k] calls of [_PQ_dequeue]; the nodes in the order they come out. *)
Fixpoint dequeue_nodes (k : nat) (q : PQ_pq) : outcome (list PQ_Node * PQ_pq) :=
  match k with
  | O => Done ([], q)
  | S k' =>
      let* (n, q) := _PQ_dequeue q in
      let* (ns, q) := dequeue_nodes k' q in
      Done (n :: ns, q)
  end.

(** [k] calls of [PQ_dequeue]; the payloads in the order they come out. *)
Fixpoint dequeue_all (k : nat) (q : PQ_pq) : outcome (list Z * PQ_pq) :=
  match k with
  | O => Done ([], q)
  | S k' =>
      let* (d, q) := PQ_dequeue q in
      let* (ds, q) := dequeue_all k' q in
      Done (d :: ds, q)
  end.

Definition nd (d p : Z) : PQ_Node := {| data := d; priority := p |}.

(** ** Sift-down as the specification words it *)

(** Among [best] and the candidates [cs], examined first to last, the index
    of the node with the least priority; an earlier index wins a tie. *)
Fixpoint smallest (h : list slot) (best : Z) (cs : list Z) : outcome Z :=
  match cs with
  | [] => Done best
  | c :: cs' =>
      let* nc := rd h c in
      let* nb := rd h best in
      smallest h (if priority nc <? priority nb then c else best) cs'
  end.

(** Sift-down where a child is compared only if [inrange] accepts its index:
    select the smallest of [i], left child, right child; when it is not [i],
    swap and continue there, otherwise stop. *)
Fixpoint sift_down_spec (inrange : Z -> bool) (fuel : nat) (i : Z) (q : PQ_pq)
  : outcome PQ_pq :=
  match fuel with
  | O => OutOfFuel
  | S fuel' =>
      let* m := smallest (heap q) i
                  (filter (fun c => inrange c = true)
                          [_left_child i; _right_child i]) in
      if decide (m = i) then Done q
      else let* h' := _swap i m (heap q) in
           sift_down_spec inrange fuel' m (set_heap q h')
  end.


(** The guard of [_shift_down]: the child index is at most [count]. *)
Definition upto_count (count : Z) (c : Z) : bool := c <=? count.

(** The guard "child index <= n - 1". *)
Definition below_count (count : Z) (c : Z) : bool := c <=? count - 1.

(** The variant of [_shift_down] with the guard "child index <= count - 1". *)
Definition shift_down_strict (i : Z) (q : PQ_pq) : outcome PQ_pq :=
  sift_down_spec (below_count (current_size q))
                 (S (Z.to_nat (current_size q - i))) i q.

(** Orders on nodes, by priority. *)
Definition prio_le (a b : PQ_Node) : Prop := priority a <= priority b.
Definition prio_lt (a b : PQ_Node) : Prop := priority a < priority b.

(** The heap-order property, cell by cell: every live cell other than the
    root holds a node whose priority is not below that of the node in the
    parent cell [floor((i-1)/2)]. *)
Definition heap_ordered (q : PQ_pq) : Prop :=
  forall i, 0 < i < current_size q ->
    exists np nc, rd (heap q) ((i - 1) / 2) = Done np /\
                  rd (heap q) i = Done nc /\
                  priority np <= priority nc.

(** Sample data. *)
Definition demo_nodes : list PQ_Node := [nd 10 5; nd 20 3; nd 30 8; nd 40 1].
Definition demo_sorted : list PQ_Node := [nd 40 1; nd 20 3; nd 10 5; nd 30 8].

Definition demo_queue : PQ_pq :=
  Eval cbv in
    match enqueue_all demo_nodes PQ_create with
    | Done q => q
    | _ => PQ_create
    end.

(** Thirty nodes, payload [i] with priority [30 - i]. *)
Definition thirty_nodes : list PQ_Node :=
  (fun i => nd (Z.of_nat i) (30 - Z.of_nat i)) <$> seq 0 30.

(** A queue whose ten initial cells are all in use. *)
Definition full_queue : PQ_pq :=
  Eval cbv in
    match enqueue_all (take 10 thirty_nodes) PQ_create with
    | Done q => q
    | _ => PQ_create
    end.



(** ** Predicates on heaps *)

(** The node in cell [i], for stating order properties (a default node where
    the cell cannot be read). *)
Definition node_at (h : list slot) (i : Z) : PQ_Node :=
  match rd h i with
  | Done n => n
  | _ => nd 0 0
  end.

Definition pri (h : list slot) (i : Z) : Z := priority (node_at h i).

(** Cells [0 .. k-1] hold nodes. *)
Definition assigned (h : list slot) (k : Z) : Prop :=
  forall i, 0 <= i < k -> exists n, rd h i = Done n.

(** Min-heap order on cells [0 .. k-1]. *)
Definition heap_order (h : list slot) (k : Z) : Prop :=
  forall i, 0 < i < k -> pri h (_parent i) <= pri h i.

(** Heap order everywhere except between [i] and its parent (the state of
    the [_shift_up] loop). *)
Definition up_inv (h : list slot) (k i : Z) : Prop :=
  (forall j, 0 < j < k -> j <> i -> pri h (_parent j) <= pri h j) /\
  (forall j, 0 < j < k -> _parent j = i -> 0 < i ->
             pri h (_parent i) <= pri h j).

(** Heap order everywhere except between [i] and its children (the state of
    the [_shift_down] recursion). *)
Definition down_inv (h : list slot) (k i : Z) : Prop :=
  (forall j, 0 < j < k -> _parent j <> i -> pri h (_parent j) <= pri h j) /\
  (forall j, 0 < j < k -> _parent j = i -> 0 < i ->
             pri h (_parent i) <= pri h j).

(** The nodes currently held, in array order. *)
Definition live (q : PQ_pq) : list PQ_Node :=
  omap id (take (Z.to_nat (current_size q)) (heap q)).

(** Representation invariant of a queue. *)
Record wf (q : PQ_pq) : Prop := {
  wf_size : 0 <= current_size q <= capacity q;
  wf_alloc : Z.of_nat (length (heap q)) = capacity q;
  wf_assigned : assigned (heap q) (current_size q);
  wf_order : heap_order (heap q) (current_size q)
}.

(** Queues a client can obtain through the public interface. *)
Inductive reachable : PQ_pq -> Prop :=
| reach_create : reachable PQ_create
| reach_heapify arr size q :
    0 <= size -> PQ_heapify arr size = Done q -> reachable q
| reach_enqueue q d p q' :
    reachable q -> PQ_enqueue q d p = Done q' -> reachable q'
| reach_dequeue q d q' :
    reachable q -> 0 < current_size q -> PQ_dequeue q = Done (d, q') ->
    reachable q'.

(** ** Helpers of the test program (tests/tester.c) *)

(** The largest value of a C [int] (32 bits).  An index computation whose
    results stay between 0 and [INT_MAX] is the same in C and in [Z]. *)
Definition INT_MAX : Z := 2147483647.

(** [_compare_single_nodes]: 1 when the two nodes agree on priority and
    payload, 0 otherwise. *)
Definition _compare_single_nodes (node_a node_b : PQ_Node) : Z :=
  if negb (priority node_a =? priority node_b)
     || negb (data node_a =? data node_b)
  then 0 else 1.

(** The [for] loop of [_compare_nodes], with [todo = n - i] iterations left. *)
Fixpoint compare_nodes_loop (nodes_a nodes_b : list slot) (todo : nat) (i : Z)
  : outcome Z :=
  match todo with
  | O => Done 1
  | S todo' =>
      let* a := rd nodes_a i in
      let* b := rd nodes_b i in
      if _compare_single_nodes a b =? 0 then Done 0
      else compare_nodes_loop nodes_a nodes_b todo' (i + 1)
  end.

Definition _compare_nodes (nodes_a nodes_b : list slot) (n : Z) : outcome Z :=
  compare_nodes_loop nodes_a nodes_b (Z.to_nat n) 0.

(** The loop of [test_peek]: [k] rounds of [PQ_peek] followed by
    [_PQ_dequeue]; the peeked payloads and the removed nodes, in order. *)
Fixpoint peek_dequeue_loop (k : nat) (q : PQ_pq)
  : outcome (list Z * list PQ_Node * PQ_pq) :=
  match k with
  | O => Done ([], [], q)
  | S k' =>
      let* (peeked, q) := PQ_peek q in
      let* (n, q) := _PQ_dequeue q in
      let* (r, q) := peek_dequeue_loop k' q in
      Done (peeked :: r.1, n :: r.2, q)
  end.

(** [_random_shuffle], the Fisher-Yates shuffle of the test program.  The
    values returned by the successive calls of [rand()] are given by [rand]:
    call number [k] returns [rand k].  [todo] iterations are left, the
    current one at index [i]. *)
Fixpoint random_shuffle_loop (rand : nat -> Z) (todo : nat) (k : nat) (i : Z)
    (arr : list slot) : outcome (list slot) :=
  match todo with
  | O => Done arr
  | S todo' =>
      let j := Z.rem (rand k) (i + 1) in
      let* tmp := rd arr j in
      let* ai := rd arr i in
      let* arr := wr arr j ai in
      let* arr := wr arr i tmp in
      random_shuffle_loop rand todo' (S k) (i - 1) arr
  end.

Definition _random_shuffle (rand : nat -> Z) (arr : list slot) (n : Z)
  : outcome (list slot) :=
  random_shuffle_loop rand (Z.to_nat (n - 1)) 0 (n - 1) arr.

(** ** The random queues of the test program *)

Definition RANDOM_NUM_SIZE : Z := 4294967296.

(** The first loop of [_random_n_pq]: node [i] gets a random payload and
    priority [i].  [todo] iterations are left; the next call of [rand()] is
    call number [k]. *)
Fixpoint random_nodes_loop (rand : nat -> Z) (todo : nat) (k : nat) (i : Z)
  : list PQ_Node :=
  match todo with
  | O => []
  | S todo' =>
      nd (Z.rem (rand k) RANDOM_NUM_SIZE) i
      :: random_nodes_loop rand todo' (S k) (i + 1)
  end.

(** The last loop of [_random_n_pq]: [PQ_enqueue] of [nodes[i]->data] with
    [nodes[i]->priority]. *)
Fixpoint enqueue_cells_loop (nodes : list slot) (todo : nat) (i : Z)
    (pq : PQ_pq) : outcome PQ_pq :=
  match todo with
  | O => Done pq
  | S todo' =>
      let* n := rd nodes i in
      let* pq := PQ_enqueue pq (data n) (priority n) in
      enqueue_cells_loop nodes todo' (i + 1) pq
  end.

(** [_random_n_pq]: the nodes in increasing order of priority, the same
    nodes shuffled, and the queue holding them.  The first [size] calls of
    [rand()] give the payloads, the following ones drive the shuffle. *)
Definition _random_n_pq (rand : nat -> Z) (size : Z)
  : outcome (list slot * list slot * PQ_pq) :=
  let pq := PQ_create in
  let ordered_nodes := Some <$> random_nodes_loop rand (Z.to_nat size) 0 0 in
  let nodes := ordered_nodes in
  let* nodes := _random_shuffle (fun k => rand (Z.to_nat size + k)%nat) nodes size in
  let* pq := enqueue_cells_loop nodes (Z.to_nat size) 0 pq in
  Done (ordered_nodes, nodes, pq).

Definition _random_pq (rand : nat -> Z) : outcome (list slot * list slot * PQ_pq) :=
  _random_n_pq rand PQ_INITIAL_SIZE.

(** The loop of [test_high_level_dequeue]; the result tells whether every
    assertion held. *)
Fixpoint high_level_dequeue_loop (nodes_ordered : list slot) (todo : nat)
    (i : Z) (pq : PQ_pq) : outcome bool :=
  match todo with
  | O => Done true
  | S todo' =>
      let* n := rd nodes_ordered i in
      let* (d, pq) := PQ_dequeue pq in
      let* rest := high_level_dequeue_loop nodes_ordered todo' (i + 1) pq in
      Done ((data n =? d) && rest)
  end.

Definition test_high_level_dequeue (rand : nat -> Z) : outcome bool :=
  let SIZE := 10 in
  let* (nodes_ordered, _, pq) := _random_n_pq rand SIZE in
  high_level_dequeue_loop nodes_ordered (Z.to_nat SIZE) 0 pq.

(** The loop of [test_peek], with its two assertions. *)
Fixpoint test_peek_loop (nodes_ordered : list slot) (todo : nat) (i : Z)
    (pq : PQ_pq) : outcome bool :=
  match todo with
  | O => Done true
  | S todo' =>
      let* (peeked, pq) := PQ_peek pq in
      let* n := rd nodes_ordered i in
      let ok1 := peeked =? data n in
      let* (x, pq) := _PQ_dequeue pq in
      let ok2 := negb (_compare_single_nodes x n =? 0) in
      let* rest := test_peek_loop nodes_ordered todo' (i + 1) pq in
      Done (ok1 && ok2 && rest)
  end.

Definition test_peek (rand : nat -> Z) : outcome bool :=
  let SIZE := 10 in
  let* (nodes_ordered, _, pq) := _random_n_pq rand SIZE in
  test_peek_loop nodes_ordered (Z.to_nat SIZE) 0 pq.

(** The loop and the assertion of [test_enqueue_dequeue_extensive]. *)
Definition test_enqueue_dequeue_extensive (rand : nat -> Z) : outcome bool :=
  let* (nodes_ordered, _, pq) := _random_pq rand in
  let* (nodes, pq) := dequeue_nodes (Z.to_nat PQ_INITIAL_SIZE) pq in
  let* r := _compare_nodes (Some <$> nodes) nodes_ordered PQ_INITIAL_SIZE in
  Done (negb (r =? 0)).

(** ** The nodes as allocated objects

    A second embedding of the same functions, for what the first one leaves
    out: [malloc] and [free] of the nodes.  Here a cell of the array holds
    the address of a node, and the allocated nodes live in a store.  Using a
    node that is not allocated (never allocated, or already freed) and
    freeing such a node are undefined.  The array and the queue structure
    themselves stay outside the store, as before. *)
Module Ptr.

Abbreviation addr := positive.
Abbreviation cell := (option positive).

(** The allocated nodes and their contents. *)
Abbreviation store := (gmap positive PQ_Node).

Record PQ_pq : Type := mkPQ {
  current_size : Z;
  capacity : Z;
  heap : list cell
}.

Definition set_heap (q : PQ_pq) (h : list cell) : PQ_pq :=
  {| current_size := current_size q; capacity := capacity q; heap := h |}.

Definition set_current_size (q : PQ_pq) (n : Z) : PQ_pq :=
  {| current_size := n; capacity := capacity q; heap := heap q |}.

(** [malloc(sizeof(PQ_Node))] returns an address that is not in use; which
    one is immaterial, the proofs only use that it is not in use. *)
Definition malloc (m : store) : addr := fresh (dom m).

(** [free(p)]. *)
Definition free (m : store) (p : addr) : outcome store :=
  match m !! p with
  | Some _ => Done (delete p m)
  | None => Undefined
  end.

(** [p->data], [p->priority]. *)
Definition deref (m : store) (p : addr) : outcome PQ_Node :=
  match m !! p with
  | Some n => Done n
  | None => Undefined
  end.

(** [h[i]], the pointer stored in cell [i]. *)
Definition load (h : list cell) (i : Z) : outcome addr :=
  if i <? 0 then Undefined
  else match h !! Z.to_nat i with
       | Some (Some a) => Done a
       | _ => Undefined
       end.

(** [h[i] = a]. *)
Definition put (h : list cell) (i : Z) (a : addr) : outcome (list cell) :=
  if (0 <=? i) && (i <? Z.of_nat (length h))
  then Done (<[Z.to_nat i := Some a]> h)
  else Undefined.

Definition _swap (a b : Z) (h : list cell) : outcome (list cell) :=
  let* tmp := load h a in
  let* pb := load h b in
  let* h1 := put h a pb in
  put h1 b tmp.

Definition _node_copy (m : store) (a : addr) : outcome (addr * store) :=
  let copy := malloc m in
  let* n := deref m a in
  Done (copy, <[copy := {| data := data n; priority := priority n |}]> m).

Fixpoint shift_up_loop (m : store) (fuel : nat) (i : Z) (q : PQ_pq)
  : outcome PQ_pq :=
  match fuel with
  | O => OutOfFuel
  | S fuel' =>
      if 0 <? i then
        let* pp := load (heap q) (_parent i) in
        let* np := deref m pp in
        let* pc := load (heap q) i in
        let* nc := deref m pc in
        if priority np >? priority nc then
          let* h' := _swap (_parent i) i (heap q) in
          shift_up_loop m fuel' (_parent i) (set_heap q h')
        else Done q
      else Done q
  end.

Definition _shift_up (m : store) (i : Z) (q : PQ_pq) : outcome PQ_pq :=
  shift_up_loop m (S (Z.to_nat i)) i q.

Definition pick (m : store) (q : PQ_pq) (c max_i : Z) : outcome Z :=
  if c <=? current_size q then
    let* pc := load (heap q) c in
    let* nc := deref m pc in
    let* pm := load (heap q) max_i in
    let* nm := deref m pm in
    Done (if priority nc <? priority nm then c else max_i)
  else Done max_i.

Fixpoint shift_down_rec (m : store) (fuel : nat) (i : Z) (q : PQ_pq)
  : outcome PQ_pq :=
  match fuel with
  | O => OutOfFuel
  | S fuel' =>
      let max_i := i in
      let l := _left_child i in
      let* max_i := pick m q l max_i in
      let r := _right_child i in
      let* max_i := pick m q r max_i in
      if negb (i =? max_i) then
        let* h' := _swap i max_i (heap q) in
        shift_down_rec m fuel' max_i (set_heap q h')
      else Done q
  end.

Definition _shift_down (m : store) (i : Z) (q : PQ_pq) : outcome PQ_pq :=
  shift_down_rec m (S (Z.to_nat (current_size q - i))) i q.

(** [free(heap[i])] for [i = 0 .. heap_size - 1]. *)
Fixpoint destroy_loop (m : store) (h : list cell) (todo : nat) (i : Z)
  : outcome store :=
  match todo with
  | O => Done m
  | S todo' =>
      let* p := load h i in
      let* m := free m p in
      destroy_loop m h todo' (i + 1)
  end.

Definition PQ_destroy_heap_nodes (m : store) (h : list cell) (heap_size : Z)
  : outcome store :=
  destroy_loop m h (Z.to_nat heap_size) 0.

(** [PQ_destroy]: the nodes of the live cells are freed; after that the
    array and the structure are released, and the queue is gone. *)
Definition PQ_destroy (m : store) (q : PQ_pq) : outcome store :=
  PQ_destroy_heap_nodes m (heap q) (current_size q).

Definition _check_size (q : PQ_pq) : PQ_pq :=
  if current_size q + 1 >? capacity q then
    {| current_size := capacity q;
       capacity := capacity q + PQ_INCREMENT_SIZE;
       heap := resize (Z.to_nat (capacity q + PQ_INCREMENT_SIZE)) None (heap q) |}
  else q.

Definition PQ_enqueue (m : store) (q : PQ_pq) (d p : Z)
  : outcome (store * PQ_pq) :=
  let to_add := malloc m in
  let m := <[to_add := {| data := d; priority := p |}]> m in
  let q := _check_size q in
  let* h := put (heap q) (current_size q) to_add in
  let q := set_heap q h in
  let* q := _shift_up m (current_size q) q in
  Done (m, set_current_size q (current_size q + 1)).

Definition PQ_create : PQ_pq :=
  {| current_size := 0;
     capacity := PQ_INITIAL_SIZE;
     heap := replicate (Z.to_nat PQ_INITIAL_SIZE) None |}.

Definition PQ_peek (m : store) (q : PQ_pq) : outcome Z :=
  let* p := load (heap q) 0 in
  let* n := deref m p in
  Done (data n).

Definition _PQ_dequeue (m : store) (q : PQ_pq) : outcome (addr * PQ_pq) :=
  let* n := load (heap q) 0 in
  let* last := load (heap q) (current_size q - 1) in
  let* h := put (heap q) 0 last in
  let q := set_heap q h in
  let q := set_current_size q (current_size q - 1) in
  let* q := _shift_down m 0 q in
  Done (n, q).

Definition PQ_dequeue (m : store) (q : PQ_pq) : outcome (Z * store * PQ_pq) :=
  let* (node, q) := _PQ_dequeue m q in
  let* n := deref m node in
  let* m := free m node in
  Done (data n, m, q).

Fixpoint heapify_loop (m : store) (arr : list cell) (todo : nat) (i : Z)
    (pq : PQ_pq) : outcome (store * PQ_pq) :=
  match todo with
  | O => Done (m, pq)
  | S todo' =>
      let* a := load arr i in
      let* n := deref m a in
      let* (m, pq) := PQ_enqueue m pq (data n) (priority n) in
      heapify_loop m arr todo' (i + 1) pq
  end.

Definition PQ_heapify (m : store) (arr : list cell) (size : Z)
  : outcome (store * PQ_pq) :=
  let pq := PQ_create in
  let pq := {| current_size := current_size pq;
               capacity := size;
               heap := replicate (Z.to_nat size) None |} in
  heapify_loop m arr (Z.to_nat size) 0 pq.

(** The addresses in the live cells. *)
Definition owned (q : PQ_pq) : list addr :=
  omap id (take (Z.to_nat (current_size q)) (heap q)).

(** The priority of the node that cell [j] points to (0 where the cell or
    the node cannot be read), for stating order properties. *)
Definition pri (m : store) (h : list cell) (j : Z) : Z :=
  match load h j with
  | Done a => match m !! a with
              | Some n => priority n
              | None => 0
              end
  | _ => 0
  end.

(** Cells [0 .. k-1] hold addresses of allocated nodes. *)
Definition allocated (m : store) (h : list cell) (k : Z) : Prop :=
  forall i, 0 <= i < k -> exists a, load h i = Done a /\ is_Some (m !! a).

(** The live cells hold pairwise distinct allocated nodes. *)
Record inv (m : store) (q : PQ_pq) : Prop := {
  inv_size : 0 <= current_size q <= capacity q;
  inv_alloc : Z.of_nat (length (heap q)) = capacity q;
  inv_cells : allocated m (heap q) (current_size q);
  inv_distinct : NoDup (owned q)
}.

(** The store [m] is the store [m0] plus the nodes of the live cells. *)
Record accounted (m0 m : store) (q : PQ_pq) : Prop := {
  acc_inv : inv m q;
  acc_new : forall a, a ∈ owned q -> m0 !! a = None;
  acc_rest : forall a, a ∉ owned q -> m !! a = m0 !! a
}.

(** The states of a queue created when the store was [m0] and then used
    through [PQ_enqueue] and [PQ_dequeue]. *)
Inductive reachable (m0 : store) : store -> PQ_pq -> Prop :=
| reach_create : reachable m0 m0 PQ_create
| reach_heapify arr size m q :
    0 <= size -> PQ_heapify m0 arr size = Done (m, q) -> reachable m0 m q
| reach_enqueue m q d p m' q' :
    reachable m0 m q -> PQ_enqueue m q d p = Done (m', q') ->
    reachable m0 m' q'
| reach_dequeue m q d m' q' :
    reachable m0 m q -> 0 < current_size q ->
    PQ_dequeue m q = Done (d, m', q') -> reachable m0 m' q'.

(** [_destroy_random_pq] of the test program: the first [current_size]
    nodes of the test's own array are freed, then the queue is destroyed. *)
Definition _destroy_random_pq (m : store) (nodes_ordered : list cell)
    (q : PQ_pq) : outcome store :=
  let* m := PQ_destroy_heap_nodes m nodes_ordered (current_size q) in
  PQ_destroy m q.

(** One round of [test_swap], with the values [rand()] gave for the two
    nodes; the two local pointers [a] and [b] are cells 0 and 1.  The result
    holds the two assertions and the store after the four calls of [free]. *)
Definition test_swap_round (m : store) (da pa db pb : Z)
  : outcome (bool * bool * store) :=
  let a := malloc m in
  let m := <[a := nd da pa]> m in
  let* (a_original, m) := _node_copy m a in
  let b := malloc m in
  let m := <[b := nd db pb]> m in
  let* (b_original, m) := _node_copy m b in
  let* vars := _swap 0 1 [Some a; Some b] in
  let* a := load vars 0 in
  let* b := load vars 1 in
  let* na := deref m a in
  let* nbo := deref m b_original in
  let ok1 := negb (_compare_single_nodes na nbo =? 0) in
  let* nb := deref m b in
  let* nao := deref m a_original in
  let ok2 := negb (_compare_single_nodes nb nao =? 0) in
  let* m := free m a in
  let* m := free m a_original in
  let* m := free m b in
  let* m := free m b_original in
  Done (ok1, ok2, m).

(** A store with one node of another owner, and a queue made in it by two
    insertions; used to instantiate the statements below. *)
Definition foreign_store : store := <[7%positive := nd 9 9]> ∅.

Definition one_state : store * PQ_pq :=
  match PQ_enqueue foreign_store PQ_create 0 5 with
  | Done r => r
  | _ => (foreign_store, PQ_create)
  end.

Definition two_state : store * PQ_pq :=
  match PQ_enqueue one_state.1 one_state.2 1 3 with
  | Done r => r
  | _ => one_state
  end.

Definition two_store : store := two_state.1.

Definition two_queue : PQ_pq := two_state.2.

End Ptr.

Example scenario_insert :
  (let* q := enqueue_all [nd 10 5; nd 20 3; nd 30 8; nd 40 1] PQ_create in
   let* (top, q) := PQ_peek q in
   let* (out, q) := dequeue_all 4 q in
   Done (top, out, current_size q)) = Done (40, [40; 20; 10; 30], 0).
Proof. vm_compute. reflexivity. Qed.

Example scenario_build :
  (let* q := PQ_heapify [nd 0 2; nd 1 4; nd 2 5; nd 3 8] 4 in
   let* (out, q) := dequeue_all 4 q in
   Done (out, capacity q)) = Done ([0; 1; 2; 3], 4).
Proof. vm_compute. reflexivity. Qed.

(** ** Reading and writing cells *)

Lemma rd_Done h i n :
  rd h i = Done n <-> 0 <= i /\ h !! Z.to_nat i = Some (Some n).
Proof.
  unfold rd. destruct (Z.ltb_spec i 0).
  - split; [discriminate | intros [? _]; lia].
  - destruct (h !! Z.to_nat i) as [[m|]|]; split; intros H1;
      try discriminate; try (destruct H1; congruence); try (split; congruence).
Qed.

Lemma rd_bounds h i n : rd h i = Done n -> 0 <= i < Z.of_nat (length h).
Proof.
  intros [? Hl]%rd_Done. apply lookup_lt_Some in Hl. lia.
Qed.

Lemma rd_not_OutOfFuel h i : rd h i <> OutOfFuel.
Proof.
  unfold rd. destruct (i <? 0); [discriminate|].
  destruct (h !! Z.to_nat i) as [[m|]|]; discriminate.
Qed.

Lemma wr_Done h i n h' :
  wr h i n = Done h' <->
  0 <= i < Z.of_nat (length h) /\ h' = <[Z.to_nat i := Some n]> h.
Proof.
  unfold wr. destruct (Z.leb_spec 0 i); destruct (Z.ltb_spec i (Z.of_nat (length h)));
    simpl; split; intros H1; try discriminate; try lia.
  - inversion H1. split; [lia | reflexivity].
  - destruct H1 as [_ ->]. reflexivity.
Qed.

Lemma wr_ok h i n :
  0 <= i < Z.of_nat (length h) -> wr h i n = Done (<[Z.to_nat i := Some n]> h).
Proof. intros. apply wr_Done. auto. Qed.

Lemma wr_not_OutOfFuel h i n : wr h i n <> OutOfFuel.
Proof. unfold wr. destruct (_ && _); discriminate. Qed.

Lemma wr_length h i n h' : wr h i n = Done h' -> length h' = length h.
Proof. intros [_ ->]%wr_Done. apply length_insert. Qed.

Lemma rd_insert_eq h i n :
  0 <= i < Z.of_nat (length h) -> rd (<[Z.to_nat i := Some n]> h) i = Done n.
Proof.
  intros. apply rd_Done. split; [lia|]. apply list_lookup_insert_eq. lia.
Qed.

Lemma rd_insert_ne h i j s :
  0 <= i -> i <> j -> rd (<[Z.to_nat i := s]> h) j = rd h j.
Proof.
  intros. unfold rd. destruct (Z.ltb_spec j 0); [reflexivity|].
  rewrite list_lookup_insert_ne by lia. reflexivity.
Qed.

Lemma rd_wr_eq h i n h' : wr h i n = Done h' -> rd h' i = Done n.
Proof. intros [? ->]%wr_Done. by apply rd_insert_eq. Qed.

Lemma rd_wr_ne h i j n h' : wr h i n = Done h' -> i <> j -> rd h' j = rd h j.
Proof. intros [? ->]%wr_Done ?. apply rd_insert_ne; lia. Qed.

Lemma swap_Done a b h x y :
  rd h a = Done x -> rd h b = Done y ->
  _swap a b h = Done (<[Z.to_nat b := Some x]> (<[Z.to_nat a := Some y]> h)).
Proof.
  intros Ha Hb. unfold _swap. rewrite Ha, Hb. simpl.
  rewrite wr_ok by (eapply rd_bounds; eauto). simpl.
  apply wr_ok. rewrite length_insert. eapply rd_bounds; eauto.
Qed.

Lemma swap_inv a b h h' :
  _swap a b h = Done h' ->
  exists x y, rd h a = Done x /\ rd h b = Done y /\
              h' = <[Z.to_nat b := Some x]> (<[Z.to_nat a := Some y]> h).
Proof.
  intros H. unfold _swap in H.
  destruct (rd h a) as [x| |] eqn:Ha; try discriminate.
  destruct (rd h b) as [y| |] eqn:Hb; try discriminate.
  exists x, y. rewrite <- Ha, <- Hb in H. fold (_swap a b h) in H.
  rewrite (swap_Done a b h x y Ha Hb) in H. inversion H. auto.
Qed.

Lemma swap_not_OutOfFuel a b h : _swap a b h <> OutOfFuel.
Proof.
  unfold _swap.
  destruct (rd h a) as [x| |] eqn:Ha; simpl; try discriminate;
    [|by apply rd_not_OutOfFuel in Ha].
  destruct (rd h b) as [y| |] eqn:Hb; simpl; try discriminate;
    [|by apply rd_not_OutOfFuel in Hb].
  destruct (wr h a y) as [h1| |] eqn:Hw; simpl; try discriminate;
    [|by apply wr_not_OutOfFuel in Hw].
  apply wr_not_OutOfFuel.
Qed.

Lemma swap_length a b h h' : _swap a b h = Done h' -> length h' = length h.
Proof.
  intros (x & y & _ & _ & ->)%swap_inv. by rewrite !length_insert.
Qed.

Lemma swap_rd_l a b h h' : _swap a b h = Done h' -> rd h' a = rd h b.
Proof.
  intros (x & y & Ha & Hb & ->)%swap_inv.
  pose proof (rd_bounds _ _ _ Ha). pose proof (rd_bounds _ _ _ Hb).
  destruct (decide (a = b)) as [->|Hne].
  - rewrite rd_insert_eq by (rewrite length_insert; lia). congruence.
  - rewrite rd_insert_ne by lia. rewrite rd_insert_eq by lia. congruence.
Qed.

Lemma swap_rd_r a b h h' : _swap a b h = Done h' -> rd h' b = rd h a.
Proof.
  intros (x & y & Ha & Hb & ->)%swap_inv.
  pose proof (rd_bounds _ _ _ Ha). pose proof (rd_bounds _ _ _ Hb).
  rewrite rd_insert_eq by (rewrite length_insert; lia). congruence.
Qed.

Lemma swap_rd_other a b h h' j :
  _swap a b h = Done h' -> j <> a -> j <> b -> rd h' j = rd h j.
Proof.
  intros (x & y & Ha & Hb & ->)%swap_inv ? ?.
  pose proof (rd_bounds _ _ _ Ha). pose proof (rd_bounds _ _ _ Hb).
  rewrite !rd_insert_ne by lia. reflexivity.
Qed.

(** ** Index arithmetic *)

Lemma parent_div i : 0 < i -> _parent i = (i - 1) / 2.
Proof. intros. unfold _parent. apply Z.quot_div_nonneg; lia. Qed.

Lemma parent_bounds i : 0 < i -> 0 <= _parent i < i.
Proof.
  intros. rewrite parent_div by lia.
  pose proof (Z.div_mod (i - 1) 2 ltac:(lia)).
  pose proof (Z.mod_pos_bound (i - 1) 2 ltac:(lia)). lia.
Qed.

Lemma parent_children i j :
  0 < j -> _parent j = i <-> j = _left_child i \/ j = _right_child i.
Proof.
  intros. rewrite parent_div by lia. unfold _left_child, _right_child.
  pose proof (Z.div_mod (j - 1) 2 ltac:(lia)).
  pose proof (Z.mod_pos_bound (j - 1) 2 ltac:(lia)). lia.
Qed.

(** ** Priorities under a swap *)

Lemma pri_rd h i n : rd h i = Done n -> pri h i = priority n.
Proof. intros H. unfold pri, node_at. by rewrite H. Qed.

Lemma swap_pri_l a b h h' : _swap a b h = Done h' -> pri h' a = pri h b.
Proof. intros H. unfold pri, node_at. by rewrite (swap_rd_l _ _ _ _ H). Qed.

Lemma swap_pri_r a b h h' : _swap a b h = Done h' -> pri h' b = pri h a.
Proof. intros H. unfold pri, node_at. by rewrite (swap_rd_r _ _ _ _ H). Qed.

Lemma swap_pri_other a b h h' j :
  _swap a b h = Done h' -> j <> a -> j <> b -> pri h' j = pri h j.
Proof.
  intros H ? ?. unfold pri, node_at. by rewrite (swap_rd_other _ _ _ _ _ H).
Qed.

Lemma swap_assigned a b h h' k :
  _swap a b h = Done h' -> assigned h k -> assigned h' k.
Proof.
  intros H Hk j Hj.
  destruct (swap_inv _ _ _ _ H) as (x & y & Ha & Hb & _).
  destruct (decide (j = a)) as [->|]; [rewrite (swap_rd_l _ _ _ _ H); eauto|].
  destruct (decide (j = b)) as [->|]; [rewrite (swap_rd_r _ _ _ _ H); eauto|].
  rewrite (swap_rd_other _ _ _ _ _ H) by done. auto.
Qed.

(** ** The held nodes under a swap *)

Lemma insert_cons_Permutation {A} (t : list A) b x y :
  t !! b = Some y -> y :: <[b := x]> t ≡ₚ x :: t.
Proof.
  revert b. induction t as [|w t IH]; intros [|b] Hb; simplify_eq/=.
  - apply perm_swap.
  - rewrite perm_swap. rewrite (IH b Hb). apply perm_swap.
Qed.

Lemma exchange_Permutation {A} (l : list A) a b x y :
  l !! a = Some x -> l !! b = Some y -> <[b := x]> (<[a := y]> l) ≡ₚ l.
Proof.
  revert a b. induction l as [|z t IH]; intros [|a] [|b] Ha Hb; simplify_eq/=.
  - reflexivity.
  - by apply insert_cons_Permutation.
  - by apply insert_cons_Permutation.
  - f_equiv. by apply IH.
Qed.

Lemma swap_take_Permutation a b h h' k :
  _swap a b h = Done h' -> a < k -> b < k ->
  take (Z.to_nat k) h' ≡ₚ take (Z.to_nat k) h.
Proof.
  intros (x & y & [? Ha]%rd_Done & [? Hb]%rd_Done & ->)%swap_inv ? ?.
  rewrite !take_insert_lt by lia.
  apply exchange_Permutation; rewrite lookup_take_lt by lia; done.
Qed.

Lemma swap_drop a b h h' k :
  _swap a b h = Done h' -> a < k -> b < k ->
  drop (Z.to_nat k) h' = drop (Z.to_nat k) h.
Proof.
  intros (x & y & [? Ha]%rd_Done & [? Hb]%rd_Done & ->)%swap_inv ? ?.
  rewrite !drop_insert_lt by lia. reflexivity.
Qed.

Lemma swap_pri a b h h' j :
  _swap a b h = Done h' ->
  pri h' j = if decide (j = a) then pri h b
             else if decide (j = b) then pri h a else pri h j.
Proof.
  intros H. repeat case_decide; subst.
  - by eapply swap_pri_l.
  - by eapply swap_pri_r.
  - by eapply swap_pri_other.
Qed.

(** ** [_shift_up] restores the heap order *)

Lemma up_inv_step h h' k i :
  0 < i < k -> _swap (_parent i) i h = Done h' ->
  pri h (_parent i) > pri h i ->
  up_inv h k i -> up_inv h' k (_parent i).
Proof.
  intros Hi Hsw Hgt [Ha Hb].
  pose proof (parent_bounds i ltac:(lia)) as Hp.
  split.
  - intros j Hj Hjp.
    pose proof (parent_bounds j ltac:(lia)) as Hpj.
    rewrite !(swap_pri _ _ _ _ _ Hsw).
    destruct (decide (j = i)) as [->|Hji].
    + repeat case_decide; try lia.
    + specialize (Ha j Hj Hji).
      repeat case_decide; try lia.
      * (* j is the sibling of i *)
        match goal with E : _parent j = _parent i |- _ => rewrite E in Ha end.
        lia.
      * (* j is a child of i *)
        specialize (Hb j Hj ltac:(done) ltac:(lia)). lia.
  - intros j Hj Hjp Hp0.
    pose proof (parent_bounds (_parent i) ltac:(lia)) as Hg.
    pose proof (Ha (_parent i) ltac:(lia) ltac:(lia)) as Hgp.
    pose proof (parent_bounds j ltac:(lia)) as Hpj.
    rewrite !(swap_pri _ _ _ _ _ Hsw).
    repeat case_decide; try lia.
    specialize (Ha j Hj ltac:(done)). rewrite Hjp in Ha. lia.
Qed.

Lemma up_inv_done h k i :
  0 <= i < k -> (0 < i -> ~ pri h (_parent i) > pri h i) ->
  up_inv h k i -> heap_order h k.
Proof.
  intros Hi Hle [Ha _] j Hj.
  destruct (decide (j = i)) as [->|]; [|by apply Ha].
  specialize (Hle ltac:(lia)). lia.
Qed.

Lemma shift_up_loop_spec fuel : forall i q k,
  (Z.to_nat i < fuel)%nat -> 0 <= i < k ->
  assigned (heap q) k -> up_inv (heap q) k i ->
  exists h', shift_up_loop fuel i q = Done (set_heap q h') /\
             assigned h' k /\ heap_order h' k /\
             length h' = length (heap q) /\
             take (Z.to_nat k) h' ≡ₚ take (Z.to_nat k) (heap q) /\
             drop (Z.to_nat k) h' = drop (Z.to_nat k) (heap q).
Proof.
  induction fuel as [|fuel IH]; intros i q k Hf Hi Hasg Hinv; [lia|].
  simpl. destruct (Z.ltb_spec 0 i) as [Hpos|Hz].
  - pose proof (parent_bounds i Hpos) as Hp.
    destruct (Hasg (_parent i) ltac:(lia)) as [np Hnp].
    destruct (Hasg i ltac:(lia)) as [nc Hnc].
    rewrite Hnp, Hnc. simpl. rewrite Z.gtb_ltb.
    destruct (Z.ltb_spec (priority nc) (priority np)) as [Hlt|Hge].
    + rewrite (swap_Done _ _ _ _ _ Hnp Hnc). simpl.
      set (h1 := <[Z.to_nat i:=Some np]> (<[Z.to_nat (_parent i):=Some nc]> (heap q))).
      assert (Hsw : _swap (_parent i) i (heap q) = Done h1)
        by (by apply swap_Done).
      destruct (IH (_parent i) (set_heap q h1) k) as (h' & Hrun & ? & ? & Hlen & Hperm & Hdrop).
      * lia.
      * lia.
      * simpl. by eapply swap_assigned.
      * simpl. apply (up_inv_step (heap q) h1 k i); [lia | done | | done].
        rewrite (pri_rd _ _ _ Hnp), (pri_rd _ _ _ Hnc). lia.
      * exists h'. simpl in *. repeat split; try done.
        -- rewrite Hlen. by eapply swap_length.
        -- rewrite Hperm. eapply swap_take_Permutation; eauto; lia.
        -- rewrite Hdrop. eapply swap_drop; eauto; lia.
    + exists (heap q). destruct q; simpl. repeat split; try done.
      eapply up_inv_done; eauto. simpl in *.
      rewrite (pri_rd _ _ _ Hnp), (pri_rd _ _ _ Hnc). lia.
  - exists (heap q). destruct q; simpl. repeat split; try done.
    eapply up_inv_done; eauto. lia.
Qed.

Lemma shift_up_loop_terminates fuel : forall i q,
  (Z.to_nat i < fuel)%nat -> shift_up_loop fuel i q <> OutOfFuel.
Proof.
  induction fuel as [|fuel IH]; intros i q Hf; [lia|].
  simpl. destruct (Z.ltb_spec 0 i) as [Hpos|Hz]; [|discriminate].
  destruct (rd (heap q) (_parent i)) as [np| |] eqn:Hnp; simpl; try discriminate;
    [|by apply rd_not_OutOfFuel in Hnp].
  destruct (rd (heap q) i) as [nc| |] eqn:Hnc; simpl; try discriminate;
    [|by apply rd_not_OutOfFuel in Hnc].
  destruct (priority np >? priority nc); [|discriminate].
  destruct (_swap (_parent i) i (heap q)) as [h'| |] eqn:Hsw; simpl;
    try discriminate; [|by apply swap_not_OutOfFuel in Hsw].
  apply IH. pose proof (parent_bounds i Hpos). lia.
Qed.

(** ** [_shift_down] is sift-down with the guard "index <= count" *)

Lemma pick_smallest q c m :
  pick q c m =
  smallest (heap q) m (filter (fun c => upto_count (current_size q) c = true) [c]).
Proof.
  unfold pick, upto_count. rewrite filter_cons, filter_nil.
  destruct (c <=? current_size q) eqn:E.
  - rewrite decide_True by done. simpl.
    destruct (rd (heap q) c); simpl; done.
  - rewrite decide_False by done. done.
Qed.

Lemma smallest_app h m cs1 cs2 :
  smallest h m (cs1 ++ cs2) = let* m1 := smallest h m cs1 in smallest h m1 cs2.
Proof.
  revert m. induction cs1 as [|c cs1 IH]; intros m; simpl; [done|].
  destruct (rd h c); simpl; try done.
  destruct (rd h m); simpl; try done.
Qed.

Lemma shift_down_rec_spec fuel : forall i q,
  shift_down_rec fuel i q =
  sift_down_spec (upto_count (current_size q)) fuel i q.
Proof.
  induction fuel as [|fuel IH]; intros i q; [done|].
  simpl sift_down_spec. simpl shift_down_rec.
  change [_left_child i; _right_child i]
    with ([_left_child i] ++ [_right_child i]).
  rewrite filter_app, smallest_app, <- !pick_smallest.
  destruct (pick q (_left_child i) i) as [m1| |]; simpl; try done.
  rewrite <- pick_smallest.
  destruct (pick q (_right_child i) m1) as [m| |]; simpl; try done.
  destruct (decide (m = i)) as [->|Hne].
  - by rewrite Z.eqb_refl.
  - destruct (Z.eqb_spec i m); [congruence|]. simpl.
    destruct (_swap i m (heap q)) as [h'| |]; simpl; try done.
    exact (IH m (set_heap q h')).
Qed.

(** ** Sift-down over the live cells restores the heap order *)

Lemma select_below h k i :
  0 <= i < k -> assigned h k ->
  exists m,
    smallest h i (filter (fun c => below_count k c = true)
                         [_left_child i; _right_child i]) = Done m /\
    i <= m < k /\
    (m <> i -> _parent m = i /\ pri h m < pri h i) /\
    pri h m <= pri h i /\
    (forall c, 0 < c < k -> _parent c = i -> pri h m <= pri h c).
Proof.
  intros Hi Hasg.
  destruct (Hasg i ltac:(lia)) as [ni Hni].
  pose proof (pri_rd _ _ _ Hni) as Pi.
  assert (Hch : forall c, 0 < c < k -> _parent c = i ->
                          c = _left_child i \/ c = _right_child i)
    by (intros c ? ?; by apply parent_children; [lia|]).
  assert (Hpl : _parent (_left_child i) = i)
    by (apply parent_children; unfold _left_child; [lia | by left]).
  assert (Hpr : _parent (_right_child i) = i)
    by (apply parent_children; unfold _right_child; [lia | by right]).
  remember (_left_child i) as l eqn:El. unfold _left_child in El.
  remember (_right_child i) as r eqn:Er. unfold _right_child in Er.
  rewrite !filter_cons, filter_nil. unfold below_count.
  destruct (Z.leb_spec l (k - 1)) as [Hl|Hl];
    destruct (Z.leb_spec r (k - 1)) as [Hr|Hr]; try lia.
  - (* both children are live *)
    rewrite !decide_True by done.
    destruct (Hasg l ltac:(lia)) as [nl Hnl].
    destruct (Hasg r ltac:(lia)) as [nr Hnr].
    pose proof (pri_rd _ _ _ Hnl) as Pl. pose proof (pri_rd _ _ _ Hnr) as Pr.
    simpl. rewrite Hnl, Hni. simpl.
    destruct (Z.ltb_spec (priority nl) (priority ni)) as [Hc1|Hc1];
      rewrite Hnr; simpl; rewrite ?Hnl, ?Hni; simpl.
    + destruct (Z.ltb_spec (priority nr) (priority nl)) as [Hc2|Hc2];
        eexists; (split; [reflexivity|]); (split; [lia|]);
        (split; [intros ?; split; [done | lia]|]); (split; [lia|]);
        intros c Hc Hpc; destruct (Hch c Hc Hpc) as [-> | ->]; lia.
    + destruct (Z.ltb_spec (priority nr) (priority ni)) as [Hc2|Hc2];
        eexists; (split; [reflexivity|]); (split; [lia|]);
        (split; [intros ?; split; [done | lia]|]); (split; [lia|]);
        intros c Hc Hpc; destruct (Hch c Hc Hpc) as [-> | ->]; lia.
  - (* only the left child is live *)
    rewrite decide_True by done. rewrite decide_False by done.
    destruct (Hasg l ltac:(lia)) as [nl Hnl].
    pose proof (pri_rd _ _ _ Hnl) as Pl.
    simpl. rewrite Hnl, Hni. simpl.
    destruct (Z.ltb_spec (priority nl) (priority ni)) as [Hc1|Hc1];
      eexists; (split; [reflexivity|]); (split; [lia|]);
      (split; [intros ?; split; [done | lia]|]); (split; [lia|]);
      intros c Hc Hpc; destruct (Hch c Hc Hpc) as [-> | ->]; lia.
  - (* no child is live *)
    rewrite !decide_False by done. simpl.
    exists i. split; [done|]. split; [lia|]. split; [done|]. split; [lia|].
    intros c Hc Hpc. destruct (Hch c Hc Hpc) as [-> | ->]; lia.
Qed.

Lemma down_inv_done h k i :
  (forall c, 0 < c < k -> _parent c = i -> pri h i <= pri h c) ->
  down_inv h k i -> heap_order h k.
Proof.
  intros Hch [Ha _] j Hj.
  destruct (decide (_parent j = i)) as [E|]; [|by apply Ha].
  rewrite E. by apply Hch.
Qed.

Lemma down_inv_step h h' k i m :
  0 <= i -> i < m < k -> _parent m = i -> _swap i m h = Done h' ->
  pri h m < pri h i ->
  (forall c, 0 < c < k -> _parent c = i -> pri h m <= pri h c) ->
  down_inv h k i -> down_inv h' k m.
Proof.
  intros Hi Hm Hpm Hsw Hlt Hmin [Ha Hb]. split.
  - intros j Hj Hjm.
    pose proof (parent_bounds j ltac:(lia)) as Hpj.
    rewrite !(swap_pri _ _ _ _ _ Hsw).
    destruct (decide (j = i)) as [->|Hji].
    + (* the parent of i is unchanged; i now holds the old node of m *)
      specialize (Hb m ltac:(lia) Hpm ltac:(lia)).
      repeat case_decide; lia.
    + destruct (decide (j = m)) as [->|Hjm'].
      * rewrite ?Hpm. repeat case_decide; lia.
      * destruct (decide (_parent j = i)) as [E|Hne].
        -- specialize (Hmin j Hj E). rewrite ?E. repeat case_decide; lia.
        -- specialize (Ha j Hj Hne). repeat case_decide; lia.
  - intros j Hj Hjm _.
    pose proof (parent_bounds j ltac:(lia)) as Hpj.
    specialize (Ha j Hj ltac:(lia)). rewrite Hjm in Ha.
    rewrite !(swap_pri _ _ _ _ _ Hsw). rewrite ?Hpm.
    repeat case_decide; lia.
Qed.

Lemma sift_down_below_spec fuel : forall i q k,
  (Z.to_nat (k - i) < fuel)%nat -> 0 <= i < k ->
  assigned (heap q) k -> down_inv (heap q) k i ->
  exists h', sift_down_spec (below_count k) fuel i q = Done (set_heap q h') /\
             assigned h' k /\ heap_order h' k /\
             length h' = length (heap q) /\
             take (Z.to_nat k) h' ≡ₚ take (Z.to_nat k) (heap q) /\
             drop (Z.to_nat k) h' = drop (Z.to_nat k) (heap q).
Proof.
  induction fuel as [|fuel IH]; intros i q k Hf Hi Hasg Hinv; [lia|].
  simpl.
  destruct (select_below _ _ _ Hi Hasg) as (m & -> & Hm & Hne & Hle & Hmin).
  simpl. destruct (decide (m = i)) as [->|Hmi].
  - exists (heap q). destruct q; simpl in *. repeat split; try done.
    eapply down_inv_done; eauto.
  - destruct (Hne Hmi) as [Hpm Hlt].
    destruct (Hasg i ltac:(lia)) as [ni Hni].
    destruct (Hasg m ltac:(lia)) as [nm Hnm].
    rewrite (swap_Done _ _ _ _ _ Hni Hnm). simpl.
    set (h1 := <[Z.to_nat m:=Some ni]> (<[Z.to_nat i:=Some nm]> (heap q))).
    assert (Hsw : _swap i m (heap q) = Done h1) by (by apply swap_Done).
    destruct (IH m (set_heap q h1) k) as (h' & Hrun & ? & ? & Hlen & Hperm & Hdrop).
    + lia.
    + lia.
    + simpl. by eapply swap_assigned.
    + simpl. apply (down_inv_step (heap q) h1 k i m); try done; lia.
    + exists h'. simpl in *. repeat split; try done.
      * rewrite Hlen. by eapply swap_length.
      * rewrite Hperm. eapply swap_take_Permutation; eauto; lia.
      * rewrite Hdrop. eapply swap_drop; eauto; lia.
Qed.

(** ** The guard "index <= count" against the guard "index <= count - 1" *)

(** When cell [k] holds a node that is not smaller than the node at [i], the
    comparison with cell [k] never moves the minimum. *)
Lemma select_guard_equiv h k i :
  0 <= i < k -> assigned h (k + 1) -> pri h i <= pri h k ->
  smallest h i (filter (fun c => upto_count k c = true)
                       [_left_child i; _right_child i]) =
  smallest h i (filter (fun c => below_count k c = true)
                       [_left_child i; _right_child i]).
Proof.
  intros Hi Hasg Hik.
  destruct (Hasg i ltac:(lia)) as [ni Hni].
  destruct (Hasg k ltac:(lia)) as [nk Hnk].
  pose proof (pri_rd _ _ _ Hni) as Pi. pose proof (pri_rd _ _ _ Hnk) as Pk.
  remember (_left_child i) as l eqn:El. unfold _left_child in El.
  remember (_right_child i) as r eqn:Er. unfold _right_child in Er.
  rewrite !filter_cons, !filter_nil. unfold below_count, upto_count.
  destruct (Z.leb_spec l k) as [Hl|Hl]; destruct (Z.leb_spec r k) as [Hr|Hr];
    destruct (Z.leb_spec l (k - 1)) as [Hl'|Hl'];
    destruct (Z.leb_spec r (k - 1)) as [Hr'|Hr']; try lia;
    rewrite ?decide_True by done; rewrite ?decide_False by done;
    try reflexivity.
  - (* the right child is cell k *)
    assert (r = k) as -> by lia.
    destruct (Hasg l ltac:(lia)) as [nl Hnl].
    simpl. rewrite Hnl, Hni, Hnk. simpl.
    destruct (Z.ltb_spec (priority nl) (priority ni)).
    + rewrite Hnl. simpl.
      destruct (Z.ltb_spec (priority nk) (priority nl)); [lia | done].
    + rewrite Hni. simpl.
      destruct (Z.ltb_spec (priority nk) (priority ni)); [lia | done].
  - (* the left child is cell k *)
    assert (l = k) as -> by lia.
    simpl. rewrite Hnk, Hni. simpl.
    destruct (Z.ltb_spec (priority nk) (priority ni)); [lia | done].
Qed.

Lemma sift_down_guard_equiv fuel : forall i q k,
  0 <= i < k -> assigned (heap q) (k + 1) ->
  pri (heap q) i <= pri (heap q) k ->
  sift_down_spec (upto_count k) fuel i q =
  sift_down_spec (below_count k) fuel i q.
Proof.
  induction fuel as [|fuel IH]; intros i q k Hi Hasg Hik; [done|].
  simpl. rewrite select_guard_equiv by done.
  assert (Hasg' : assigned (heap q) k) by (intros j ?; apply Hasg; lia).
  destruct (select_below _ _ _ Hi Hasg') as (m & -> & Hm & Hne & Hle & Hmin).
  simpl. destruct (decide (m = i)) as [->|Hmi]; [done|].
  destruct (_swap i m (heap q)) as [h1| |] eqn:Hsw; simpl; try done.
  apply IH; simpl.
  - lia.
  - by eapply swap_assigned.
  - rewrite !(swap_pri _ _ _ _ _ Hsw). repeat case_decide; lia.
Qed.

(** ** Facts that depend only on the cells below a bound *)

Lemma rd_take h k i : 0 <= i < k -> rd (take (Z.to_nat k) h) i = rd h i.
Proof.
  intros. unfold rd. destruct (i <? 0); [done|].
  by rewrite lookup_take_lt by lia.
Qed.

Lemma rd_take_eq h h' k i :
  take (Z.to_nat k) h' = take (Z.to_nat k) h -> 0 <= i < k -> rd h' i = rd h i.
Proof.
  intros E Hi. rewrite <- (rd_take h' k i Hi), <- (rd_take h k i Hi). by rewrite E.
Qed.

Lemma pri_ext h h' i : rd h' i = rd h i -> pri h' i = pri h i.
Proof. intros E. unfold pri, node_at. by rewrite E. Qed.

Lemma assigned_ext h h' k :
  (forall i, 0 <= i < k -> rd h' i = rd h i) -> assigned h k -> assigned h' k.
Proof. intros E Hk i Hi. rewrite E by done. by apply Hk. Qed.

Lemma heap_order_ext h h' k :
  (forall i, 0 <= i < k -> rd h' i = rd h i) -> heap_order h k -> heap_order h' k.
Proof.
  intros E Hk i Hi. pose proof (parent_bounds i ltac:(lia)).
  rewrite (pri_ext h h' i), (pri_ext h h' (_parent i)) by (apply E; lia).
  by apply Hk.
Qed.

Lemma root_minimal h k i :
  heap_order h k -> 0 <= i < k -> pri h 0 <= pri h i.
Proof.
  intros Hk [Hi Hik]. generalize Hi. revert Hik. pattern i.
  apply Z_lt_induction; [|done]. clear i Hi. intros i IH Hik Hi.
  destruct (decide (i = 0)) as [->|]; [done|].
  pose proof (parent_bounds i ltac:(lia)).
  specialize (IH (_parent i) ltac:(lia) ltac:(lia)).
  specialize (Hk i ltac:(lia)). lia.
Qed.

Lemma elem_of_live q n :
  n ∈ live q -> exists i, 0 <= i < current_size q /\ rd (heap q) i = Done n.
Proof.
  unfold live. intros (s & Hs & E)%list_elem_of_omap. simpl in E. subst s.
  apply list_elem_of_lookup in Hs as [j Hj].
  apply lookup_take_Some in Hj as [Hj Hlt].
  exists (Z.of_nat j). split; [lia|].
  apply rd_Done. split; [lia|]. by rewrite Nat2Z.id.
Qed.

Lemma live_minimal q n :
  heap_order (heap q) (current_size q) -> rd (heap q) 0 = Done n ->
  forall m, m ∈ live q -> priority n <= priority m.
Proof.
  intros Hord Hn m (i & Hi & Hm)%elem_of_live.
  pose proof (root_minimal _ _ i Hord Hi) as Hle.
  by rewrite (pri_rd _ _ _ Hn), (pri_rd _ _ _ Hm) in Hle.
Qed.

(** ** Storage *)

Lemma wf_create : wf PQ_create.
Proof.
  split; simpl.
  - unfold PQ_INITIAL_SIZE. lia.
  - reflexivity.
  - intros i Hi. lia.
  - intros i Hi. lia.
Qed.

Lemma check_size_spec q :
  wf q ->
  let q0 := _check_size q in
  current_size q0 = current_size q /\
  current_size q0 < capacity q0 /\
  Z.of_nat (length (heap q0)) = capacity q0 /\
  capacity q0 =
    (if decide (current_size q = capacity q)
     then capacity q + PQ_INCREMENT_SIZE else capacity q) /\
  take (Z.to_nat (capacity q)) (heap q0) = heap q.
Proof.
  intros [Hs Ha _ _]. unfold _check_size. rewrite Z.gtb_ltb.
  destruct (Z.ltb_spec (capacity q) (current_size q + 1)) as [Hfull|Hroom]; simpl.
  - unfold realloc, PQ_INCREMENT_SIZE.
    rewrite length_resize. rewrite decide_True by lia.
    repeat split; try lia.
    rewrite take_resize_le by lia. rewrite resize_le by lia.
    apply take_ge. lia.
  - rewrite decide_False by lia. repeat split; try lia.
    apply take_ge. lia.
Qed.

(** ** [PQ_enqueue] *)

Lemma enqueue_spec q d p :
  wf q ->
  exists q', PQ_enqueue q d p = Done q' /\ wf q' /\
             current_size q' = current_size q + 1 /\
             capacity q' =
               (if decide (current_size q = capacity q)
                then capacity q + PQ_INCREMENT_SIZE else capacity q) /\
             live q' ≡ₚ nd d p :: live q.
Proof.
  intros Hwf.
  destruct (check_size_spec q Hwf) as (Hc & Hlt & Hlen & Hcap & Htake).
  destruct Hwf as [Hs Ha Hasg Hord].
  unfold PQ_enqueue. fold (nd d p).
  remember (_check_size q) as q0 eqn:Eq0. clear Eq0.
  set (c := current_size q) in *.
  assert (Hrd : forall i, 0 <= i < c -> rd (heap q0) i = rd (heap q) i).
  { intros i Hi. rewrite <- Htake. symmetry. apply rd_take. lia. }
  rewrite wr_ok by lia. simpl. rewrite Hc.
  set (h1 := <[Z.to_nat c:=Some (nd d p)]> (heap q0)).
  assert (Hrd1 : forall i, 0 <= i < c -> rd h1 i = rd (heap q) i).
  { intros i Hi. unfold h1. rewrite rd_insert_ne by lia. by apply Hrd. }
  assert (Hnew : rd h1 c = Done (nd d p)) by (apply rd_insert_eq; lia).
  unfold _shift_up.
  destruct (shift_up_loop_spec (S (Z.to_nat c)) c (set_heap q0 h1) (c + 1))
    as (h' & Hrun & Hasg' & Hord' & Hlen' & Hperm & _).
  - lia.
  - lia.
  - simpl. intros i Hi. destruct (decide (i = c)) as [->|]; [eauto|].
    rewrite Hrd1 by lia. apply Hasg. lia.
  - simpl. split.
    + intros j Hj Hjc. pose proof (parent_bounds j ltac:(lia)).
      rewrite (pri_ext (heap q) h1 j), (pri_ext (heap q) h1 (_parent j))
        by (apply Hrd1; lia).
      apply Hord. lia.
    + intros j Hj Hjc. pose proof (parent_bounds j ltac:(lia)). lia.
  - rewrite Hrun. simpl. eexists. split; [reflexivity|].
    simpl in *. rewrite ?Hc. split; [|split; [done|split; [done|]]].
    + split; simpl; rewrite ?Hc; try done; [lia|].
      rewrite Hlen'. unfold h1. rewrite length_insert. lia.
    + unfold live; simpl. rewrite ?Hc. rewrite Hperm.
      replace (Z.to_nat (c + 1)) with (S (Z.to_nat c)) by lia.
      rewrite (take_S_r h1 _ (Some (nd d p)))
        by (by apply rd_Done in Hnew as [_ ?]).
      unfold h1. rewrite take_insert_ge by lia.
      rewrite omap_app. simpl.
      rewrite <- Htake, take_take, Nat.min_l by lia.
      by rewrite Permutation_app_comm.
Qed.

(** ** [_PQ_dequeue] *)

Lemma live_after_move (l : list slot) (k : nat) n last :
  l !! 0%nat = Some (Some n) -> l !! k = Some (Some last) ->
  omap id (take (S k) l) ≡ₚ n :: omap id (take k (<[0%nat := Some last]> l)).
Proof.
  destruct l as [|x l]; intros H0 Hk; simplify_eq/=.
  destruct k as [|k]; simplify_eq/=.
  - done.
  - rewrite (take_S_r l k (Some last)) by done.
    rewrite omap_app. simpl. f_equiv. by rewrite Permutation_app_comm.
Qed.

Lemma shift_down_after_move q k :
  0 <= k -> current_size q = k -> assigned (heap q) (k + 1) ->
  pri (heap q) 0 = pri (heap q) k ->
  down_inv (heap q) k 0 ->
  exists h', _shift_down 0 q = Done (set_heap q h') /\
             assigned h' k /\ heap_order h' k /\
             length h' = length (heap q) /\
             take (Z.to_nat k) h' ≡ₚ take (Z.to_nat k) (heap q).
Proof.
  intros Hk Hc Hasg Hpri Hinv. unfold _shift_down.
  rewrite shift_down_rec_spec, Hc.
  destruct (decide (k = 0)) as [->|Hk0].
  - exists (heap q). simpl. split; [by destruct q|].
    split; [intros i ?; lia|]. split; [intros i ?; lia|]. done.
  - rewrite sift_down_guard_equiv by (done || lia).
    destruct (sift_down_below_spec (S (Z.to_nat (k - 0))) 0 q k)
      as (h' & Hrun & ? & ? & ? & ? & _); try done; try lia.
    + intros i ?. apply Hasg. lia.
    + by exists h'.
Qed.

Lemma dequeue_node_spec q :
  wf q -> 0 < current_size q ->
  exists n last h1 q',
    rd (heap q) 0 = Done n /\
    rd (heap q) (current_size q - 1) = Done last /\
    wr (heap q) 0 last = Done h1 /\
    _shift_down 0 (set_current_size (set_heap q h1) (current_size q - 1))
      = Done q' /\
    _PQ_dequeue q = Done (n, q') /\
    wf q' /\
    current_size q' = current_size q - 1 /\
    capacity q' = capacity q /\
    live q ≡ₚ n :: live q' /\
    (forall m, m ∈ live q -> priority n <= priority m).
Proof.
  intros [Hs Ha Hasg Hord] Hpos.
  set (c := current_size q) in *.
  destruct (Hasg 0 ltac:(lia)) as [n Hn].
  destruct (Hasg (c - 1) ltac:(lia)) as [last Hlast].
  set (h1 := <[Z.to_nat 0:=Some last]> (heap q)).
  assert (Hw : wr (heap q) 0 last = Done h1) by (apply wr_ok; lia).
  assert (Hrd1 : forall i, 0 < i -> rd h1 i = rd (heap q) i)
    by (intros i Hi; apply rd_insert_ne; lia).
  assert (Hrd0 : rd h1 0 = Done last) by (apply rd_insert_eq; lia).
  set (q1 := set_current_size (set_heap q h1) (c - 1)).
  destruct (shift_down_after_move q1 (c - 1)) as (h' & Hrun & Hasg' & Hord' & Hlen' & Hperm).
  - lia.
  - done.
  - simpl. replace (c - 1 + 1) with c by lia. intros i Hi.
    destruct (decide (i = 0)) as [->|]; [eauto|].
    rewrite Hrd1 by lia. by apply Hasg.
  - simpl. destruct (decide (c - 1 = 0)) as [->|]; [done|].
    rewrite (pri_rd _ _ _ Hrd0).
    rewrite (pri_ext (heap q) h1 (c - 1)) by (apply Hrd1; lia).
    by rewrite (pri_rd _ _ _ Hlast).
  - simpl. split.
    + intros j Hj Hpj. pose proof (parent_bounds j ltac:(lia)).
      rewrite (pri_ext (heap q) h1 j), (pri_ext (heap q) h1 (_parent j))
        by (apply Hrd1; lia).
      apply Hord. lia.
    + intros; lia.
  - exists n, last, h1, (set_heap q1 h').
    split; [done|]. split; [done|]. split; [done|]. split; [done|].
    split.
    { unfold _PQ_dequeue. rewrite Hn. simpl. fold c. rewrite Hlast. simpl.
      rewrite Hw. simpl. fold c. fold q1. by rewrite Hrun. }
    split.
    { split; simpl; try done; [lia|]. rewrite Hlen'. simpl. unfold h1.
      rewrite length_insert. lia. }
    split; [done|]. split; [done|]. split.
    + unfold live. simpl. fold c. rewrite Hperm. simpl.
      replace (Z.to_nat c) with (S (Z.to_nat (c - 1))) by lia.
      apply live_after_move.
      * by apply rd_Done in Hn as [_ ?].
      * by apply rd_Done in Hlast as [_ ?].
    + by apply live_minimal.
Qed.

(** ** Sequences of calls *)

Lemma enqueue_all_spec l : forall q,
  wf q ->
  exists q', enqueue_all l q = Done q' /\ wf q' /\
             current_size q' = current_size q + Z.of_nat (length l) /\
             capacity q <= capacity q' /\
             (current_size q + Z.of_nat (length l) <= capacity q ->
              capacity q' = capacity q) /\
             live q' ≡ₚ l ++ live q.
Proof.
  induction l as [|n l IH]; intros q Hwf.
  - exists q. simpl. split; [done|]. split; [done|]. repeat split; try done; lia.
  - destruct (enqueue_spec q (data n) (priority n) Hwf)
      as (q1 & Hrun & Hwf1 & Hc1 & Hcap1 & Hlive1).
    destruct (IH q1 Hwf1) as (q' & Hrun' & Hwf' & Hc' & Hmono & Hcap' & Hlive').
    exists q'. simpl. rewrite Hrun. simpl.
    unfold PQ_INCREMENT_SIZE in *.
    split; [done|]. split; [done|]. split; [lia|].
    split; [case_decide; lia|]. split.
    + intros Hroom. destruct (wf_size _ Hwf).
      case_decide; [lia|]. rewrite Hcap'; lia.
    + rewrite Hlive', Hlive1. destruct n. unfold nd. simpl.
      by rewrite Permutation_middle.
Qed.

Lemma arr_at_drop arr i n rest :
  drop i arr = n :: rest -> arr_at arr (Z.of_nat i) = Done n.
Proof.
  intros E. unfold arr_at. destruct (Z.ltb_spec (Z.of_nat i) 0); [lia|].
  rewrite Nat2Z.id.
  assert (arr !! i = Some n) as ->; [|done].
  rewrite <- (Nat.add_0_r i), <- lookup_drop, E. done.
Qed.

Lemma heapify_loop_enqueue_all arr todo : forall i pq,
  (i + todo <= length arr)%nat ->
  heapify_loop arr todo (Z.of_nat i) pq =
  enqueue_all (take todo (drop i arr)) pq.
Proof.
  induction todo as [|todo IH]; intros i pq Hlen; [done|].
  destruct (drop i arr) as [|n rest] eqn:E.
  { apply (f_equal length) in E. rewrite length_drop in E. simpl in E. lia. }
  simpl. rewrite (arr_at_drop _ _ _ _ E). simpl.
  destruct (PQ_enqueue pq (data n) (priority n)) as [pq'| |]; simpl; try done.
  replace (Z.of_nat i + 1) with (Z.of_nat (S i)) by lia.
  rewrite IH by lia.
  assert (drop (S i) arr = rest) as ->; [|done].
  by rewrite <- Nat.add_1_r, <- drop_drop, E.
Qed.

(** The queue [PQ_heapify] starts from: no element, [size] unassigned cells. *)
Lemma wf_heapify_start size :
  0 <= size ->
  wf {| current_size := 0; capacity := size;
        heap := replicate (Z.to_nat size) None |}.
Proof.
  intros. split; simpl.
  - lia.
  - rewrite length_replicate. lia.
  - intros i ?. lia.
  - intros i ?. lia.
Qed.

Lemma heapify_enqueue_all arr :
  PQ_heapify arr (Z.of_nat (length arr)) =
  enqueue_all arr {| current_size := 0; capacity := Z.of_nat (length arr);
                     heap := replicate (length arr) None |}.
Proof.
  unfold PQ_heapify. simpl current_size. rewrite Nat2Z.id.
  rewrite (heapify_loop_enqueue_all arr (length arr) 0) by lia.
  by rewrite drop_0, firstn_all.
Qed.

Lemma heapify_loop_wf arr todo : forall i pq q,
  wf pq -> heapify_loop arr todo i pq = Done q -> wf q.
Proof.
  induction todo as [|todo IH]; intros i pq q Hwf Hrun; simpl in Hrun.
  - by simplify_eq.
  - destruct (arr_at arr i) as [n| |]; simpl in Hrun; try done.
    destruct (enqueue_spec pq (data n) (priority n) Hwf) as (pq' & E & Hwf' & _).
    rewrite E in Hrun. simpl in Hrun. eauto.
Qed.

Lemma reachable_wf q : reachable q -> wf q.
Proof.
  induction 1 as [|arr size q Hsize Hrun|q d p q' _ IH Hrun|q d q' _ IH Hpos Hrun].
  - apply wf_create.
  - unfold PQ_heapify in Hrun. eapply heapify_loop_wf; [|exact Hrun].
    by apply wf_heapify_start.
  - destruct (enqueue_spec q d p IH) as (q1 & E & Hwf & _). congruence.
  - destruct (dequeue_node_spec q IH Hpos)
      as (n & last & h1 & q1 & _ & _ & _ & _ & E & Hwf & _).
    unfold PQ_dequeue in Hrun. rewrite E in Hrun. simpl in Hrun. congruence.
Qed.

Lemma dequeue_nodes_spec k : forall q,
  wf q -> Z.of_nat k <= current_size q ->
  exists out q', dequeue_nodes k q = Done (out, q') /\ wf q' /\
                 current_size q' = current_size q - Z.of_nat k /\
                 capacity q' = capacity q /\
                 live q ≡ₚ out ++ live q' /\
                 StronglySorted prio_le out /\
                 (forall a b, a ∈ out -> b ∈ live q' -> prio_le a b).
Proof.
  induction k as [|k IH]; intros q Hwf Hk.
  - exists [], q. simpl. split; [done|]. split; [done|].
    split; [lia|]. split; [done|]. split; [done|].
    split; [constructor|]. intros a b Ha. by apply elem_of_nil in Ha.
  - destruct (dequeue_node_spec q Hwf ltac:(lia))
      as (n & last & h1 & q1 & _ & _ & _ & _ & E & Hwf1 & Hc1 & Hcap1 & Hlive1 & Hmin).
    destruct (IH q1 Hwf1 ltac:(lia))
      as (out & q' & E' & Hwf' & Hc' & Hcap' & Hlive' & Hsorted & Hsep).
    exists (n :: out), q'. simpl. rewrite E. simpl. rewrite E'. simpl.
    split; [done|]. split; [done|]. split; [lia|]. split; [congruence|].
    assert (Hn : forall b, b ∈ out ++ live q' -> prio_le n b).
    { intros b Hb. apply Hmin. rewrite Hlive1, Hlive'. by right. }
    split; [by rewrite Hlive1, Hlive'|]. split.
    + constructor; [done|]. apply Forall_forall. intros b Hb.
      apply Hn, elem_of_app. by left.
    + intros a b [->|Ha]%elem_of_cons Hb.
      * apply Hn, elem_of_app. by right.
      * by apply Hsep.
Qed.

Lemma dequeue_all_nodes k : forall q,
  dequeue_all k q =
  let* (ns, q') := dequeue_nodes k q in Done (data <$> ns, q').
Proof.
  induction k as [|k IH]; intros q; [done|].
  simpl. unfold PQ_dequeue.
  destruct (_PQ_dequeue q) as [[n q1]| |]; simpl; try done.
  rewrite IH. destruct (dequeue_nodes k q1) as [[ns q2]| |]; done.
Qed.

(** ** Sorted sequences *)

Lemma key_inj (l : list PQ_Node) x y :
  NoDup (priority <$> l) -> x ∈ l -> y ∈ l -> priority x = priority y -> x = y.
Proof.
  induction l as [|a l IH]; intros Hnd Hx Hy E; [by apply elem_of_nil in Hx|].
  rewrite fmap_cons in Hnd. apply NoDup_cons in Hnd as [Hnotin Hnd].
  apply elem_of_cons in Hx as [->|Hx]; apply elem_of_cons in Hy as [->|Hy].
  - done.
  - exfalso. apply Hnotin. rewrite E. by apply list_elem_of_fmap_2.
  - exfalso. apply Hnotin. rewrite <- E. by apply list_elem_of_fmap_2.
  - by apply IH.
Qed.

Lemma prio_lt_NoDup s : StronglySorted prio_lt s -> NoDup (priority <$> s).
Proof.
  induction 1 as [|a l _ IH Hall]; [constructor|].
  rewrite fmap_cons. apply NoDup_cons. split; [|done].
  intros (b & E & Hb)%list_elem_of_fmap.
  rewrite Forall_forall in Hall. specialize (Hall b Hb).
  unfold prio_lt in Hall. lia.
Qed.

Lemma prio_lt_le s : StronglySorted prio_lt s -> StronglySorted prio_le s.
Proof.
  induction 1 as [|a l _ IH Hall]; constructor; [done|].
  eapply Forall_impl; [exact Hall|]. unfold prio_lt, prio_le. intros; lia.
Qed.

(** Two priority-sorted arrangements of the same nodes list the same
    priorities, and the same nodes when the priorities are distinct. *)
Lemma sorted_priorities_unique (l1 l2 : list PQ_Node) :
  StronglySorted prio_le l1 -> StronglySorted prio_le l2 -> l1 ≡ₚ l2 ->
  priority <$> l1 = priority <$> l2.
Proof.
  intros H1 H2 E.
  apply (StronglySorted_unique Z.le).
  - eapply StronglySorted_fmap; [|exact H1]. done.
  - eapply StronglySorted_fmap; [|exact H2]. done.
  - by rewrite E.
Qed.

Lemma sorted_nodes_unique (l1 l2 : list PQ_Node) :
  NoDup (priority <$> l2) ->
  StronglySorted prio_le l1 -> StronglySorted prio_le l2 -> l1 ≡ₚ l2 ->
  l1 = l2.
Proof.
  intros Hnd H1 H2 E.
  apply (StronglySorted_unique_strong prio_le); try done.
  intros x y Hx Hy Hxy Hyx. rewrite E in Hx.
  apply (key_inj l2); try done. unfold prio_le in *. lia.
Qed.

(** ** The selection of [smallest] *)


(** ** The fuel given to the loops is never exhausted *)

Lemma smallest_not_OutOfFuel h cs : forall b, smallest h b cs <> OutOfFuel.
Proof.
  induction cs as [|c cs IH]; intros b; simpl; [done|].
  destruct (rd h c) as [nc| |] eqn:Hc; simpl; try done;
    [|by apply rd_not_OutOfFuel in Hc].
  destruct (rd h b) as [nb| |] eqn:Hb; simpl; try done.
  by apply rd_not_OutOfFuel in Hb.
Qed.

Lemma smallest_inv h cs : forall b m,
  smallest h b cs = Done m ->
  m = b \/ (m ∈ cs /\ exists n, rd h b = Done n).
Proof.
  induction cs as [|c cs IH]; intros b m H; simpl in H.
  - left. by simplify_eq.
  - destruct (rd h c) as [nc| |] eqn:Hc; simpl in H; try done.
    destruct (rd h b) as [nb| |] eqn:Hb; simpl in H; try done.
    destruct (IH _ _ H) as [->|[Hm _]].
    + destruct (priority nc <? priority nb); [right|by left].
      split; [by left | eauto].
    + right. split; [by right | eauto].
Qed.

Lemma sift_down_upto_terminates k fuel : forall i q,
  (Z.to_nat (k - i) < fuel)%nat ->
  sift_down_spec (upto_count k) fuel i q <> OutOfFuel.
Proof.
  induction fuel as [|fuel IH]; intros i q Hf; [lia|].
  simpl.
  destruct (smallest (heap q) i _) as [m| |] eqn:Hsel; simpl; try done;
    [|by apply smallest_not_OutOfFuel in Hsel].
  destruct (decide (m = i)) as [->|Hne]; [done|].
  destruct (_swap i m (heap q)) as [h'| |] eqn:Hsw; simpl; try done;
    [|by apply swap_not_OutOfFuel in Hsw].
  apply IH.
  apply smallest_inv in Hsel as [?|[Hm [n Hn]]]; [done|].
  apply rd_bounds in Hn.
  apply list_elem_of_filter in Hm as [Hle Hm]. unfold upto_count in Hle.
  apply Z.leb_le in Hle.
  unfold _left_child, _right_child in Hm.
  apply elem_of_cons in Hm as [->|Hm]; [lia|].
  apply elem_of_cons in Hm as [->|Hm]; [lia|].
  by apply elem_of_nil in Hm.
Qed.

Lemma shift_up_terminates i q : _shift_up i q <> OutOfFuel.
Proof. apply shift_up_loop_terminates. lia. Qed.

Lemma shift_down_terminates i q : _shift_down i q <> OutOfFuel.
Proof.
  unfold _shift_down. rewrite shift_down_rec_spec.
  apply sift_down_upto_terminates. lia.
Qed.

Lemma enqueue_terminates q d p : PQ_enqueue q d p <> OutOfFuel.
Proof.
  unfold PQ_enqueue.
  destruct (wr _ _ _) as [h| |] eqn:Hw; simpl; try done;
    try (by apply wr_not_OutOfFuel in Hw).
  destruct (_shift_up _ _) as [q'| |] eqn:Hup; simpl; try done.
  by apply shift_up_terminates in Hup.
Qed.

Lemma dequeue_terminates q : _PQ_dequeue q <> OutOfFuel.
Proof.
  unfold _PQ_dequeue.
  destruct (rd (heap q) 0) as [n| |] eqn:Hn; simpl; try done;
    try (by apply rd_not_OutOfFuel in Hn).
  destruct (rd (heap q) (current_size q - 1)) as [last| |] eqn:Hl; simpl;
    try done; try (by apply rd_not_OutOfFuel in Hl).
  destruct (wr _ _ _) as [h| |] eqn:Hw; simpl; try done;
    try (by apply wr_not_OutOfFuel in Hw).
  destruct (_shift_down _ _) as [q'| |] eqn:Hd; simpl; try done.
  by apply shift_down_terminates in Hd.
Qed.

(** ** Reachable queues *)

Lemma enqueue_all_reachable l : forall q q',
  reachable q -> enqueue_all l q = Done q' -> reachable q'.
Proof.
  induction l as [|n l IH]; intros q q' Hq Hrun; simpl in Hrun.
  - by simplify_eq.
  - destruct (PQ_enqueue q (data n) (priority n)) as [q1| |] eqn:E;
      simpl in Hrun; try done.
    eapply IH; [|exact Hrun]. by eapply reach_enqueue.
Qed.

Lemma wf_heap_ordered q : wf q -> heap_ordered q.
Proof.
  intros [Hs _ Hasg Hord] i Hi.
  pose proof (parent_bounds i ltac:(lia)) as Hp.
  rewrite <- parent_div by lia.
  destruct (Hasg (_parent i) ltac:(lia)) as [np Hnp].
  destruct (Hasg i ltac:(lia)) as [nc Hnc].
  exists np, nc. split; [done|]. split; [done|].
  specialize (Hord i Hi).
  by rewrite (pri_rd _ _ _ Hnp), (pri_rd _ _ _ Hnc) in Hord.
Qed.

Lemma live_empty q : current_size q = 0 -> live q = [].
Proof. intros E. unfold live. by rewrite E. Qed.

Lemma demo_reachable : reachable demo_queue.
Proof.
  apply (enqueue_all_reachable demo_nodes PQ_create); [apply reach_create|].
  vm_compute. reflexivity.
Qed.

Lemma full_reachable : reachable full_queue.
Proof.
  apply (enqueue_all_reachable (take 10 thirty_nodes) PQ_create);
    [apply reach_create|].
  vm_compute. reflexivity.
Qed.

Lemma shift_down_eq_strict i q :
  0 <= i < current_size q ->
  assigned (heap q) (current_size q + 1) ->
  pri (heap q) i <= pri (heap q) (current_size q) ->
  _shift_down i q = shift_down_strict i q.
Proof.
  intros. unfold _shift_down, shift_down_strict.
  rewrite shift_down_rec_spec. by apply sift_down_guard_equiv.
Qed.

(** * The properties of the specification *)

(** C1 (heap-order invariant).  In every queue obtained from [PQ_create] (or
    [PQ_heapify]) by any finite sequence of [PQ_enqueue] and of [PQ_dequeue]
    on a non-empty queue, every live index [i] with [0 < i < count] holds a
    node whose priority is at least the priority of the node at the parent
    index [floor((i-1)/2)]. *)
Theorem heap_order_invariant q i :
  reachable q -> 0 < i < current_size q ->
  exists np nc, rd (heap q) ((i - 1) / 2) = Done np /\
                rd (heap q) i = Done nc /\
                priority np <= priority nc.
Proof.
  intros Hq Hi. by apply (wf_heap_ordered q (reachable_wf q Hq)).
Qed.

Lemma heap_order_invariant_witness :
  exists np nc, rd (heap demo_queue) ((3 - 1) / 2) = Done np /\
                rd (heap demo_queue) 3 = Done nc /\
                priority np <= priority nc.
Proof.
  apply (heap_order_invariant demo_queue 3 demo_reachable).
  simpl. lia.
Defined.

(** C3 (extract-min).  On a non-empty queue [PQ_dequeue] returns the payload
    of the root node, whose priority is minimal among the held nodes; the new
    state is obtained by copying cell [count-1] into cell 0, decrementing
    [count], and running [_shift_down] from index 0. *)
Theorem extract_min_spec q :
  reachable q -> 0 < current_size q ->
  exists n last h1 q',
    rd (heap q) 0 = Done n /\
    rd (heap q) (current_size q - 1) = Done last /\
    wr (heap q) 0 last = Done h1 /\
    _shift_down 0 {| current_size := current_size q - 1;
                     capacity := capacity q; heap := h1 |} = Done q' /\
    PQ_dequeue q = Done (data n, q') /\
    n ∈ live q /\
    (forall m, m ∈ live q -> priority n <= priority m).
Proof.
  intros Hq Hpos.
  destruct (dequeue_node_spec q (reachable_wf q Hq) Hpos)
    as (n & last & h1 & q' & Hn & Hl & Hw & Hd & E & _ & _ & _ & Hlive & Hmin).
  exists n, last, h1, q'. repeat (split; [done|]).
  split; [by unfold PQ_dequeue; rewrite E|].
  split; [|done]. rewrite Hlive. by left.
Qed.

Lemma extract_min_spec_witness :
  exists n last h1 q',
    rd (heap demo_queue) 0 = Done n /\
    rd (heap demo_queue) (current_size demo_queue - 1) = Done last /\
    wr (heap demo_queue) 0 last = Done h1 /\
    _shift_down 0 {| current_size := current_size demo_queue - 1;
                     capacity := capacity demo_queue; heap := h1 |} = Done q' /\
    PQ_dequeue demo_queue = Done (data n, q') /\
    n ∈ live demo_queue /\
    (forall m, m ∈ live demo_queue -> priority n <= priority m).
Proof.
  apply (extract_min_spec demo_queue demo_reachable). simpl. lia.
Defined.

(** C4 (peek).  On a non-empty queue [PQ_peek] returns the payload of the
    node in cell 0, that node has minimal priority among the held nodes, and
    the queue (count, capacity, cells) is unchanged. *)
Theorem peek_spec q :
  reachable q -> 0 < current_size q ->
  exists n,
    rd (heap q) 0 = Done n /\
    PQ_peek q = Done (data n, q) /\
    n ∈ live q /\
    (forall m, m ∈ live q -> priority n <= priority m).
Proof.
  intros Hq Hpos.
  destruct (dequeue_node_spec q (reachable_wf q Hq) Hpos)
    as (n & last & h1 & q' & Hn & _ & _ & _ & _ & _ & _ & _ & Hlive & Hmin).
  exists n. split; [done|]. split; [by unfold PQ_peek; rewrite Hn|].
  split; [|done]. rewrite Hlive. by left.
Qed.

Lemma peek_spec_witness :
  exists n,
    rd (heap demo_queue) 0 = Done n /\
    PQ_peek demo_queue = Done (data n, demo_queue) /\
    n ∈ live demo_queue /\
    (forall m, m ∈ live demo_queue -> priority n <= priority m).
Proof.
  apply (peek_spec demo_queue demo_reachable). simpl. lia.
Defined.

(** C9 (size invariant).  Every reachable queue has [0 <= count <= capacity];
    [_check_size] fires only when [count = capacity], so assigning [capacity]
    to [count] leaves the number of live elements as it was; and
    [PQ_enqueue] returns with [count] increased by exactly one. *)
Theorem size_invariant q :
  reachable q ->
  0 <= current_size q <= capacity q /\
  (current_size q + 1 > capacity q -> current_size q = capacity q) /\
  current_size (_check_size q) = current_size q /\
  (forall d p, exists q', PQ_enqueue q d p = Done q' /\
                          current_size q' = current_size q + 1).
Proof.
  intros Hq. pose proof (reachable_wf q Hq) as Hwf.
  destruct (wf_size q Hwf) as [H0 Hcap].
  split; [done|]. split; [lia|]. split.
  - by destruct (check_size_spec q Hwf) as (-> & _).
  - intros d p.
    destruct (enqueue_spec q d p Hwf) as (q' & E & _ & Hc & _). eauto.
Qed.

Lemma size_invariant_witness :
  0 <= current_size full_queue <= capacity full_queue /\
  (current_size full_queue + 1 > capacity full_queue ->
   current_size full_queue = capacity full_queue) /\
  current_size (_check_size full_queue) = current_size full_queue /\
  (forall d p, exists q', PQ_enqueue full_queue d p = Done q' /\
                          current_size q' = current_size full_queue + 1).
Proof.
  apply (size_invariant full_queue full_reachable).
Defined.

(** C10 (the guard of [_shift_down]).  During [_PQ_dequeue] on a queue that
    keeps [n >= 1] nodes, cell [n] still holds the node that was copied to the
    root, and [_shift_down], whose guard is "child index <= n", ends in the
    same state as the variant whose guard is "child index <= n - 1". *)
Theorem shift_down_guard q :
  reachable q -> 1 <= current_size q - 1 ->
  exists last h1 q',
    rd (heap q) (current_size q - 1) = Done last /\
    wr (heap q) 0 last = Done h1 /\
    rd h1 0 = Done last /\
    rd h1 (current_size q - 1) = Done last /\
    let q1 := {| current_size := current_size q - 1;
                 capacity := capacity q; heap := h1 |} in
    _shift_down 0 q1 = Done q' /\
    shift_down_strict 0 q1 = Done q'.
Proof.
  intros Hq Hn. pose proof (reachable_wf q Hq) as Hwf.
  destruct (dequeue_node_spec q Hwf ltac:(lia))
    as (n & last & h1 & q' & Hr & Hl & Hw & Hd & _).
  exists last, h1, q'.
  assert (H0 : rd h1 0 = Done last) by (by eapply rd_wr_eq).
  assert (Hk : rd h1 (current_size q - 1) = Done last)
    by (rewrite (rd_wr_ne _ _ _ _ _ Hw) by lia; done).
  repeat (split; [done|]). simpl.
  rewrite <- shift_down_eq_strict; [exact Hd|simpl..].
  - lia.
  - replace (current_size q - 1 + 1) with (current_size q) by lia.
    intros i Hi. destruct (decide (i = 0)) as [->|]; [eauto|].
    rewrite (rd_wr_ne _ _ _ _ _ Hw) by lia. by apply (wf_assigned q Hwf).
  - by rewrite (pri_rd _ _ _ H0), (pri_rd _ _ _ Hk).
Qed.

Lemma shift_down_guard_witness :
  exists last h1 q',
    rd (heap demo_queue) (current_size demo_queue - 1) = Done last /\
    wr (heap demo_queue) 0 last = Done h1 /\
    rd h1 0 = Done last /\
    rd h1 (current_size demo_queue - 1) = Done last /\
    let q1 := {| current_size := current_size demo_queue - 1;
                 capacity := capacity demo_queue; heap := h1 |} in
    _shift_down 0 q1 = Done q' /\
    shift_down_strict 0 q1 = Done q'.
Proof.
  apply (shift_down_guard demo_queue demo_reachable). simpl. lia.
Defined.

(** C2 (sorted extraction).  Let [s] list nodes in strictly increasing
    priority order and [l] be any arrangement of the same nodes.  Enqueueing
    [l] into a fresh queue and calling [PQ_dequeue] [length s] times returns
    the payloads of [s], in the order of [s], and leaves the queue empty. *)
Theorem sorted_extraction (s l : list PQ_Node) :
  StronglySorted prio_lt s -> l ≡ₚ s ->
  exists q q', enqueue_all l PQ_create = Done q /\
               dequeue_all (length s) q = Done (data <$> s, q') /\
               current_size q' = 0.
Proof.
  intros Hs Hl.
  destruct (enqueue_all_spec l PQ_create wf_create)
    as (q & E & Hwf & Hc & _ & _ & Hlive).
  rewrite (live_empty PQ_create), app_nil_r in Hlive by done.
  assert (Hlen : length l = length s) by (by rewrite Hl).
  destruct (dequeue_nodes_spec (length s) q Hwf)
    as (out & q' & E' & _ & Hc' & _ & Hlive' & Hsorted & _).
  { rewrite Hc, Hlen. simpl. lia. }
  assert (Hq' : current_size q' = 0) by (rewrite Hc', Hc, Hlen; simpl; lia).
  rewrite (live_empty q'), app_nil_r in Hlive' by done.
  assert (out = s) as ->.
  { apply sorted_nodes_unique; [by apply prio_lt_NoDup| done | by apply prio_lt_le |].
    by rewrite <- Hlive', Hlive. }
  exists q, q'. split; [done|]. split; [|done].
  by rewrite dequeue_all_nodes, E'.
Qed.

Lemma sorted_extraction_witness :
  exists q q', enqueue_all demo_nodes PQ_create = Done q /\
               dequeue_all (length demo_sorted) q
                 = Done (data <$> demo_sorted, q') /\
               current_size q' = 0.
Proof.
  apply (sorted_extraction demo_sorted demo_nodes).
  - repeat constructor.
  - unfold demo_nodes, demo_sorted. solve_Permutation.
Defined.

(** C5 as stated fails: on a freshly created queue neither [PQ_peek] nor
    [PQ_dequeue] returns anything to the caller, they run into undefined
    behaviour. *)
Lemma empty_queue_no_error :
  current_size PQ_create = 0 /\
  PQ_peek PQ_create = Undefined /\
  PQ_dequeue PQ_create = Undefined /\
  _PQ_dequeue PQ_create = Undefined.
Proof. repeat split; reflexivity. Qed.

(** C5, amended.  The library has no emptiness check.  On a queue with
    [count = 0], [_PQ_dequeue] and [PQ_dequeue] are undefined (after cell 0
    they read cell [count - 1 = -1], outside the array); [PQ_peek] reads cell
    0 whatever [count] is, and is undefined on a freshly created queue, whose
    cell 0 was never assigned. *)
Theorem empty_queue_undefined q :
  current_size q = 0 ->
  _PQ_dequeue q = Undefined /\
  PQ_dequeue q = Undefined /\
  PQ_peek q = (let* n := rd (heap q) 0 in Done (data n, q)) /\
  PQ_peek PQ_create = Undefined.
Proof.
  intros Hc.
  assert (E : _PQ_dequeue q = Undefined).
  { unfold _PQ_dequeue. rewrite Hc.
    destruct (rd (heap q) 0) as [n| |] eqn:Hn; simpl; try done.
    by apply rd_not_OutOfFuel in Hn. }
  split; [done|]. split; [by unfold PQ_dequeue; rewrite E|]. done.
Qed.

Lemma empty_queue_undefined_witness :
  _PQ_dequeue PQ_create = Undefined /\
  PQ_dequeue PQ_create = Undefined /\
  PQ_peek PQ_create = (let* n := rd (heap PQ_create) 0 in Done (data n, PQ_create)) /\
  PQ_peek PQ_create = Undefined.
Proof.
  apply (empty_queue_undefined PQ_create). reflexivity.
Defined.




(** C7 as stated fails: when two nodes have the same priority, extracting
    everything from the queue built by [PQ_heapify] and extracting everything
    after enqueueing the same nodes in another order return the nodes in
    different orders.  Both sequences are sorted by priority, but they are
    not the same sequence. *)
Lemma heapify_ties_differ :
  [nd 20 1; nd 30 2; nd 10 1] ≡ₚ [nd 10 1; nd 20 1; nd 30 2] /\
  (let* q := PQ_heapify [nd 10 1; nd 20 1; nd 30 2] 3 in
   let* (out, _) := dequeue_nodes 3 q in Done out)
    = Done [nd 10 1; nd 20 1; nd 30 2] /\
  (let* q := enqueue_all [nd 20 1; nd 30 2; nd 10 1] PQ_create in
   let* (out, _) := dequeue_nodes 3 q in Done out)
    = Done [nd 20 1; nd 10 1; nd 30 2] /\
  (let* q := PQ_heapify [nd 10 1; nd 20 1; nd 30 2] 3 in
   let* (out, _) := dequeue_all 3 q in Done out) = Done [10; 20; 30] /\
  (let* q := enqueue_all [nd 20 1; nd 30 2; nd 10 1] PQ_create in
   let* (out, _) := dequeue_all 3 q in Done out) = Done [20; 10; 30].
Proof.
  split; [solve_Permutation|].
  repeat split; vm_compute; reflexivity.
Qed.

(** C7, amended.  [PQ_heapify] on [n] nodes is [n] successive [PQ_enqueue]
    calls, in the given order, on an empty queue whose storage has exactly
    [n] cells; it returns a heap-ordered queue that holds the [n] nodes and
    still has exactly [n] cells.  Extracting everything from it yields the
    nodes in non-decreasing priority order, with the same sequence of
    priorities as enqueueing the nodes one at a time in any order [l] into a
    fresh queue and extracting everything; when the priorities are distinct
    the two extractions return the same nodes in the same order. *)
Theorem heapify_spec (arr l : list PQ_Node) :
  l ≡ₚ arr ->
  let n := length arr in
  exists q q2 out1 out2 q1' q2',
    PQ_heapify arr (Z.of_nat n) = Done q /\
    PQ_heapify arr (Z.of_nat n) =
      enqueue_all arr {| current_size := 0; capacity := Z.of_nat n;
                         heap := replicate n None |} /\
    current_size q = Z.of_nat n /\
    capacity q = Z.of_nat n /\
    length (heap q) = n /\
    live q ≡ₚ arr /\
    heap_ordered q /\
    enqueue_all l PQ_create = Done q2 /\
    dequeue_nodes n q = Done (out1, q1') /\
    dequeue_nodes n q2 = Done (out2, q2') /\
    dequeue_all n q = Done (data <$> out1, q1') /\
    dequeue_all n q2 = Done (data <$> out2, q2') /\
    out1 ≡ₚ arr /\
    StronglySorted prio_le out1 /\
    priority <$> out1 = priority <$> out2 /\
    (NoDup (priority <$> arr) -> out1 = out2).
Proof.
  intros Hl n.
  set (q0 := {| current_size := 0; capacity := Z.of_nat n;
                heap := replicate n None |}).
  assert (Hwf0 : wf q0).
  { pose proof (wf_heapify_start (Z.of_nat n) ltac:(lia)) as H.
    by rewrite Nat2Z.id in H. }
  destruct (enqueue_all_spec arr q0 Hwf0)
    as (q & E & Hwf & Hc & _ & Hcap & Hlive).
  rewrite (live_empty q0), app_nil_r in Hlive by done.
  simpl in Hc, Hcap. specialize (Hcap ltac:(fold n; lia)).
  destruct (enqueue_all_spec l PQ_create wf_create)
    as (q2 & E2 & Hwf2 & Hc2 & _ & _ & Hlive2).
  rewrite (live_empty PQ_create), app_nil_r in Hlive2 by done.
  assert (Hlen : length l = n) by (by rewrite Hl).
  destruct (dequeue_nodes_spec n q Hwf)
    as (out1 & q1' & D1 & _ & Hc1' & _ & Hlive1' & Hsorted1 & _); [lia|].
  destruct (dequeue_nodes_spec n q2 Hwf2)
    as (out2 & q2' & D2 & _ & Hc2' & _ & Hlive2' & Hsorted2 & _).
  { rewrite Hc2, Hlen. simpl. lia. }
  rewrite (live_empty q1'), app_nil_r in Hlive1' by lia.
  rewrite (live_empty q2'), app_nil_r in Hlive2'
    by (rewrite Hc2', Hc2, Hlen; simpl; lia).
  assert (P1 : out1 ≡ₚ arr) by (by rewrite <- Hlive1').
  assert (P2 : out2 ≡ₚ arr) by (by rewrite <- Hlive2', Hlive2).
  exists q, q2, out1, out2, q1', q2'.
  rewrite heapify_enqueue_all. fold n. fold q0.
  split; [done|]. split; [done|]. split; [lia|]. split; [done|].
  split; [pose proof (wf_alloc q Hwf); lia|]. split; [done|].
  split; [by apply wf_heap_ordered|]. split; [done|].
  split; [done|]. split; [done|].
  split; [by rewrite dequeue_all_nodes, D1|].
  split; [by rewrite dequeue_all_nodes, D2|].
  split; [done|]. split; [done|]. split.
  - apply sorted_priorities_unique; try done. by rewrite P1, P2.
  - intros Hnd. apply sorted_nodes_unique; try done; [|by rewrite P1, P2].
    by rewrite P2.
Qed.

Lemma heapify_spec_witness :
  let n := length demo_sorted in
  exists q q2 out1 out2 q1' q2',
    PQ_heapify demo_sorted (Z.of_nat n) = Done q /\
    PQ_heapify demo_sorted (Z.of_nat n) =
      enqueue_all demo_sorted {| current_size := 0; capacity := Z.of_nat n;
                                 heap := replicate n None |} /\
    current_size q = Z.of_nat n /\
    capacity q = Z.of_nat n /\
    length (heap q) = n /\
    live q ≡ₚ demo_sorted /\
    heap_ordered q /\
    enqueue_all demo_nodes PQ_create = Done q2 /\
    dequeue_nodes n q = Done (out1, q1') /\
    dequeue_nodes n q2 = Done (out2, q2') /\
    dequeue_all n q = Done (data <$> out1, q1') /\
    dequeue_all n q2 = Done (data <$> out2, q2') /\
    out1 ≡ₚ demo_sorted /\
    StronglySorted prio_le out1 /\
    priority <$> out1 = priority <$> out2 /\
    NoDup (priority <$> demo_sorted) /\
    out1 = out2.
Proof.
  assert (Hperm : demo_nodes ≡ₚ demo_sorted)
    by (unfold demo_nodes, demo_sorted; solve_Permutation).
  assert (Hnd : NoDup (priority <$> demo_sorted))
    by (apply (bool_decide_unpack _); vm_compute; exact I).
  pose proof (heapify_spec demo_sorted demo_nodes Hperm) as H.
  cbv zeta in H.
  destruct H as (q & q2 & out1 & out2 & q1' & q2' & H1 & H2 & H3 & H4 & H5
                 & H6 & H7 & H8 & H9 & H10 & H11 & H12 & H13 & H14 & H15 & H16).
  intros n. exists q, q2, out1, out2, q1', q2'.
  split; [exact H1|]. split; [exact H2|]. split; [exact H3|].
  split; [exact H4|]. split; [exact H5|]. split; [exact H6|].
  split; [exact H7|]. split; [exact H8|]. split; [exact H9|].
  split; [exact H10|]. split; [exact H11|]. split; [exact H12|].
  split; [exact H13|]. split; [exact H14|]. split; [exact H15|].
  split; [exact Hnd | exact (H16 Hnd)].
Defined.

(** C8 (growth).  [PQ_enqueue] starts by calling [_check_size].  On a
    reachable queue with [count + 1 > capacity], [_check_size] enlarges the
    storage by exactly [PQ_INCREMENT_SIZE = 10] cells and keeps every cell
    at its index; otherwise it leaves the queue as it is.  Hence enqueueing
    any list of nodes into a fresh queue, however long (thirty nodes, say),
    returns a heap-ordered queue with room for all of them, and extracting
    everything returns every enqueued node, in non-decreasing priority
    order. *)
Theorem growth_spec (q : PQ_pq) (l : list PQ_Node) :
  reachable q ->
  (forall d p,
      PQ_enqueue q d p =
      let q0 := _check_size q in
      let* h := wr (heap q0) (current_size q0) (nd d p) in
      let* q1 := _shift_up (current_size q0) (set_heap q0 h) in
      Done (set_current_size q1 (current_size q1 + 1))) /\
  (current_size q + 1 > capacity q ->
   capacity (_check_size q) = capacity q + 10 /\
   length (heap (_check_size q)) = (length (heap q) + 10)%nat /\
   current_size (_check_size q) = current_size q /\
   forall i, (i < length (heap q))%nat ->
             heap (_check_size q) !! i = heap q !! i) /\
  (current_size q + 1 <= capacity q -> _check_size q = q) /\
  exists ql out ql',
    enqueue_all l PQ_create = Done ql /\
    heap_ordered ql /\
    current_size ql = Z.of_nat (length l) /\
    Z.of_nat (length l) <= capacity ql /\
    Z.of_nat (length (heap ql)) = capacity ql /\
    dequeue_nodes (length l) ql = Done (out, ql') /\
    dequeue_all (length l) ql = Done (data <$> out, ql') /\
    out ≡ₚ l /\
    StronglySorted prio_le out.
Proof.
  intros Hq. pose proof (reachable_wf q Hq) as Hwf.
  destruct (check_size_spec q Hwf) as (Hc & Hlt & Hlen & Hcap & Htake).
  destruct Hwf as [Hs Ha _ _].
  split; [done|]. split; [|split].
  - intros Hfull. rewrite decide_True in Hcap by lia.
    unfold PQ_INCREMENT_SIZE in Hcap.
    split; [done|]. split; [lia|]. split; [done|].
    intros i Hi. rewrite <- Htake. by rewrite lookup_take_lt by lia.
  - intros Hroom. unfold _check_size. rewrite Z.gtb_ltb.
    by destruct (Z.ltb_spec (capacity q) (current_size q + 1)); [lia|].
  - destruct (enqueue_all_spec l PQ_create wf_create)
      as (ql & E & Hwfl & Hcl & _ & _ & Hlive).
    rewrite (live_empty PQ_create), app_nil_r in Hlive by done.
    simpl in Hcl.
    destruct (dequeue_nodes_spec (length l) ql Hwfl)
      as (out & ql' & D & _ & Hc' & _ & Hlive' & Hsorted & _); [lia|].
    rewrite (live_empty ql'), app_nil_r in Hlive' by lia.
    exists ql, out, ql'.
    split; [done|]. split; [by apply wf_heap_ordered|]. split; [lia|].
    split; [destruct (wf_size ql Hwfl); lia|].
    split; [by apply wf_alloc|]. split; [done|].
    split; [by rewrite dequeue_all_nodes, D|].
    split; [by rewrite <- Hlive', Hlive | done].
Qed.

Lemma growth_spec_witness :
  current_size full_queue + 1 > capacity full_queue /\
  capacity (_check_size full_queue) = capacity full_queue + 10 /\
  exists ql out ql',
    enqueue_all thirty_nodes PQ_create = Done ql /\
    heap_ordered ql /\
    current_size ql = Z.of_nat (length thirty_nodes) /\
    Z.of_nat (length thirty_nodes) <= capacity ql /\
    Z.of_nat (length (heap ql)) = capacity ql /\
    dequeue_nodes (length thirty_nodes) ql = Done (out, ql') /\
    dequeue_all (length thirty_nodes) ql = Done (data <$> out, ql') /\
    out ≡ₚ thirty_nodes /\
    StronglySorted prio_le out.
Proof.
  destruct (growth_spec full_queue thirty_nodes full_reachable)
    as (_ & Hgrow & _ & Hall).
  split; [simpl; lia|]. split; [|exact Hall].
  apply Hgrow. simpl. lia.
Defined.

(** Thirty nodes enqueued in decreasing priority order come out in
    increasing priority order, after two enlargements of the storage. *)
Example thirty_nodes_run :
  (let* q := enqueue_all thirty_nodes PQ_create in
   let* (out, q') := dequeue_all 30 q in
   Done (capacity q, out, current_size q'))
  = Done (30, Z.of_nat <$> reverse (seq 0 30), 0).
Proof. vm_compute. reflexivity. Qed.

(** * Further properties of the library *)

(** ** Index arithmetic *)

(** X1.  For an index [i >= 0] whose right child index [2i+2] does not
    exceed [INT_MAX] (so that neither [2*i + 1] nor [2*i + 2] overflows an
    [int]), the two child indices are larger than [i] and within the range
    of [int], and the parent of either child is [i]; the parent of a positive
    index is a smaller non-negative index; and, since C division truncates,
    [_parent 0 = 0]. *)
Theorem parent_child_round_trip i :
  0 <= i -> 2 * i + 2 <= INT_MAX ->
  _left_child i = 2 * i + 1 /\
  _right_child i = 2 * i + 2 /\
  _parent (_left_child i) = i /\
  _parent (_right_child i) = i /\
  i < _left_child i < _right_child i /\
  _right_child i <= INT_MAX /\
  (0 < i -> 0 <= _parent i < i) /\
  _parent 0 = 0.
Proof.
  intros Hi Hmax.
  split; [reflexivity|]. split; [reflexivity|].
  split; [apply parent_children; unfold _left_child; [lia | by left]|].
  split; [apply parent_children; unfold _right_child; [lia | by right]|].
  split; [unfold _left_child, _right_child; lia|].
  split; [unfold _right_child; lia|].
  split; [apply parent_bounds | reflexivity].
Qed.

Lemma parent_child_round_trip_witness :
  _left_child 3 = 2 * 3 + 1 /\
  _right_child 3 = 2 * 3 + 2 /\
  _parent (_left_child 3) = 3 /\
  _parent (_right_child 3) = 3 /\
  3 < _left_child 3 < _right_child 3 /\
  _right_child 3 <= INT_MAX /\
  (0 < 3 -> 0 <= _parent 3 < 3) /\
  _parent 0 = 0.
Proof. apply (parent_child_round_trip 3); unfold INT_MAX; lia. Defined.

(** ** [_swap] *)

Lemma insert_exchange_back {A} (l : list A) a b x y :
  l !! a = Some x -> l !! b = Some y ->
  <[b := y]> (<[a := x]> (<[b := x]> (<[a := y]> l))) = l.
Proof.
  intros Ha Hb. apply list_eq. intros j.
  pose proof (lookup_lt_Some _ _ _ Ha). pose proof (lookup_lt_Some _ _ _ Hb).
  destruct (decide (j = b)) as [->|Hjb].
  - rewrite list_lookup_insert_eq by (rewrite !length_insert; lia). done.
  - rewrite list_lookup_insert_ne by done.
    destruct (decide (j = a)) as [->|Hja].
    + rewrite list_lookup_insert_eq by (rewrite !length_insert; lia). done.
    + by rewrite !list_lookup_insert_ne by done.
Qed.

(** X2.  A successful [_swap] exchanges the two cells, leaves every other
    cell and the length as they were, and is undone by a second [_swap] of
    the same two cells. *)
Theorem swap_involution a b h h' :
  _swap a b h = Done h' ->
  rd h' a = rd h b /\ rd h' b = rd h a /\
  (forall j, j <> a -> j <> b -> rd h' j = rd h j) /\
  length h' = length h /\
  _swap a b h' = Done h.
Proof.
  intros H.
  split; [by eapply swap_rd_l|]. split; [by eapply swap_rd_r|].
  split; [intros; by eapply swap_rd_other|]. split; [by eapply swap_length|].
  destruct (swap_inv _ _ _ _ H) as (x & y & Ha & Hb & ->).
  assert (Ha' : rd (<[Z.to_nat b:=Some x]> (<[Z.to_nat a:=Some y]> h)) a = Done y)
    by (rewrite <- Hb; eapply swap_rd_l, swap_Done; eauto).
  assert (Hb' : rd (<[Z.to_nat b:=Some x]> (<[Z.to_nat a:=Some y]> h)) b = Done x)
    by (rewrite <- Ha; eapply swap_rd_r, swap_Done; eauto).
  rewrite (swap_Done _ _ _ _ _ Ha' Hb'). f_equal.
  apply rd_Done in Ha as [_ Ha]. apply rd_Done in Hb as [_ Hb].
  by apply insert_exchange_back.
Qed.

Lemma swap_involution_witness :
  rd [Some (nd 2 7); Some (nd 1 9)] 0 = rd [Some (nd 1 9); Some (nd 2 7)] 1 /\
  rd [Some (nd 2 7); Some (nd 1 9)] 1 = rd [Some (nd 1 9); Some (nd 2 7)] 0 /\
  (forall j, j <> 0 -> j <> 1 ->
     rd [Some (nd 2 7); Some (nd 1 9)] j = rd [Some (nd 1 9); Some (nd 2 7)] j) /\
  length [Some (nd 2 7); Some (nd 1 9)] = length [Some (nd 1 9); Some (nd 2 7)] /\
  _swap 0 1 [Some (nd 2 7); Some (nd 1 9)] = Done [Some (nd 1 9); Some (nd 2 7)].
Proof.
  apply (swap_involution 0 1 [Some (nd 1 9); Some (nd 2 7)]). reflexivity.
Defined.

(** ** Sifting on a heap-ordered queue *)



(** ** What one call adds and removes *)

(** X4.  [PQ_enqueue] on a reachable queue adds exactly the new node to the
    held nodes, keeps the heap order, and leaves the capacity as it was
    unless the queue was full, in which case the capacity grows by 10; the
    capacity always equals the number of allocated cells. *)
Theorem enqueue_adds_one q d p :
  reachable q ->
  exists q', PQ_enqueue q d p = Done q' /\
             live q' ≡ₚ nd d p :: live q /\
             heap_ordered q' /\
             capacity q' =
               (if decide (current_size q = capacity q)
                then capacity q + 10 else capacity q) /\
             Z.of_nat (length (heap q')) = capacity q'.
Proof.
  intros Hq.
  destruct (enqueue_spec q d p (reachable_wf q Hq))
    as (q' & E & Hwf & _ & Hcap & Hlive).
  exists q'. split; [done|]. split; [done|].
  split; [by apply wf_heap_ordered|]. split; [done|]. by apply wf_alloc.
Qed.

Lemma enqueue_adds_one_witness :
  exists q', PQ_enqueue full_queue 99 0 = Done q' /\
             live q' ≡ₚ nd 99 0 :: live full_queue /\
             heap_ordered q' /\
             capacity q' =
               (if decide (current_size full_queue = capacity full_queue)
                then capacity full_queue + 10 else capacity full_queue) /\
             Z.of_nat (length (heap q')) = capacity q'.
Proof. apply (enqueue_adds_one full_queue 99 0 full_reachable). Defined.

(** X5.  [_PQ_dequeue] on a non-empty reachable queue removes exactly the
    returned node from the held nodes and decrements [count]; the capacity
    and the number of allocated cells stay as they were (the storage never
    shrinks), and the heap order is kept.  [PQ_dequeue] returns that node's
    payload and the same queue. *)
Theorem dequeue_removes_one q :
  reachable q -> 0 < current_size q ->
  exists n q', _PQ_dequeue q = Done (n, q') /\
               PQ_dequeue q = Done (data n, q') /\
               live q ≡ₚ n :: live q' /\
               current_size q' = current_size q - 1 /\
               capacity q' = capacity q /\
               length (heap q') = length (heap q) /\
               heap_ordered q'.
Proof.
  intros Hq Hpos. pose proof (reachable_wf q Hq) as Hwf.
  destruct (dequeue_node_spec q Hwf Hpos)
    as (n & last & h1 & q' & _ & _ & _ & _ & E & Hwf' & Hc & Hcap & Hlive & _).
  exists n, q'. split; [done|].
  split; [by unfold PQ_dequeue; rewrite E|]. split; [done|].
  split; [done|]. split; [done|]. split; [|by apply wf_heap_ordered].
  pose proof (wf_alloc q Hwf). pose proof (wf_alloc q' Hwf'). lia.
Qed.

Lemma dequeue_removes_one_witness :
  exists n q', _PQ_dequeue demo_queue = Done (n, q') /\
               PQ_dequeue demo_queue = Done (data n, q') /\
               live demo_queue ≡ₚ n :: live q' /\
               current_size q' = current_size demo_queue - 1 /\
               capacity q' = capacity demo_queue /\
               length (heap q') = length (heap demo_queue) /\
               heap_ordered q'.
Proof. apply (dequeue_removes_one demo_queue demo_reachable). simpl. lia. Defined.

(** X6.  Whenever [PQ_dequeue] returns a payload, [PQ_peek] on the same queue
    returns that payload and leaves the queue untouched: peeking announces
    what the next removal returns. *)
Theorem peek_agrees_with_dequeue q d q' :
  PQ_dequeue q = Done (d, q') -> PQ_peek q = Done (d, q).
Proof.
  unfold PQ_dequeue, _PQ_dequeue, PQ_peek. intros H.
  destruct (rd (heap q) 0) as [n| |]; simpl in *; try done.
  destruct (rd (heap q) (current_size q - 1)) as [last| |]; simpl in *; try done.
  destruct (wr (heap q) 0 last) as [h| |]; simpl in *; try done.
  destruct (_shift_down 0 _) as [q1| |]; simpl in *; try done.
  by simplify_eq.
Qed.

Lemma peek_agrees_with_dequeue_witness :
  PQ_peek demo_queue = Done (40, demo_queue).
Proof.
  eapply (peek_agrees_with_dequeue demo_queue 40). vm_compute. reflexivity.
Defined.

(** X7.  Enqueueing a node whose priority is strictly below every held
    priority (in particular, enqueueing into an empty queue) and then calling
    [PQ_dequeue] returns the payload just enqueued and leaves the held nodes
    and [count] as they were before the two calls. *)
Theorem enqueue_dequeue_round_trip q d p :
  reachable q ->
  (forall m, m ∈ live q -> p < priority m) ->
  exists q1 q2, PQ_enqueue q d p = Done q1 /\
                PQ_dequeue q1 = Done (d, q2) /\
                live q2 ≡ₚ live q /\
                current_size q2 = current_size q.
Proof.
  intros Hq Hmin.
  destruct (enqueue_spec q d p (reachable_wf q Hq))
    as (q1 & E & Hwf1 & Hc1 & _ & Hlive1).
  destruct (dequeue_node_spec q1 Hwf1)
    as (n & last & h1 & q2 & _ & _ & _ & _ & E2 & _ & Hc2 & _ & Hlive2 & Hleast).
  { destruct (wf_size q (reachable_wf q Hq)). lia. }
  assert (n = nd d p) as ->.
  { assert (Hn : n ∈ nd d p :: live q)
      by (rewrite <- Hlive1, Hlive2; by left).
    apply elem_of_cons in Hn as [->|Hn]; [done|].
    specialize (Hmin n Hn).
    specialize (Hleast (nd d p) ltac:(rewrite Hlive1; by left)).
    simpl in Hleast. lia. }
  exists q1, q2. split; [done|].
  split; [by unfold PQ_dequeue; rewrite E2|]. split; [|lia].
  apply (Permutation_cons_inv (a := nd d p)). by rewrite <- Hlive2, Hlive1.
Qed.

Lemma enqueue_dequeue_round_trip_witness :
  exists q1 q2, PQ_enqueue demo_queue 7 0 = Done q1 /\
                PQ_dequeue q1 = Done (7, q2) /\
                live q2 ≡ₚ live demo_queue /\
                current_size q2 = current_size demo_queue.
Proof.
  apply (enqueue_dequeue_round_trip demo_queue 7 0 demo_reachable).
  intros m Hm. vm_compute in Hm.
  repeat (apply elem_of_cons in Hm as [->|Hm]; [simpl; lia|]).
  by apply elem_of_nil in Hm.
Defined.

Lemma shift_up_loop_root fuel : forall i q q' r,
  shift_up_loop fuel i q = Done q' ->
  rd (heap q) 0 = Done r ->
  (0 < i -> exists c, rd (heap q) i = Done c /\ priority r <= priority c) ->
  rd (heap q') 0 = Done r.
Proof.
  induction fuel as [|fuel IH]; intros i q q' r H Hr Hc; [done|].
  simpl in H. destruct (Z.ltb_spec 0 i) as [Hpos|]; [|by simplify_eq].
  destruct (Hc Hpos) as (c & Hci & Hle).
  pose proof (parent_bounds i Hpos) as Hp.
  destruct (rd (heap q) (_parent i)) as [np| |] eqn:Hnp; simpl in H; try done.
  rewrite Hci in H. simpl in H. rewrite Z.gtb_ltb in H.
  destruct (Z.ltb_spec (priority c) (priority np)) as [Hlt|]; [|by simplify_eq].
  destruct (_swap (_parent i) i (heap q)) as [h'| |] eqn:Hsw; simpl in H; try done.
  assert (_parent i <> 0) by (intros E0; rewrite E0, Hr in Hnp; simplify_eq; lia).
  apply (IH _ _ _ r H); simpl.
  - rewrite (swap_rd_other _ _ _ _ _ Hsw) by lia. done.
  - intros _. exists c. split; [|done].
    by rewrite (swap_rd_l _ _ _ _ Hsw).
Qed.

(** X8.  After [PQ_enqueue] on a non-empty reachable queue whose root node is
    [n], [PQ_peek] returns the new payload when the new priority is strictly
    below that of [n], and otherwise still returns the payload of [n]: a node
    enqueued with a priority equal to the minimum never displaces the
    root. *)
Theorem peek_after_enqueue q d p n :
  reachable q -> 0 < current_size q -> rd (heap q) 0 = Done n ->
  exists q', PQ_enqueue q d p = Done q' /\
             PQ_peek q' = Done (if p <? priority n then d else data n, q').
Proof.
  intros Hq Hpos Hn. pose proof (reachable_wf q Hq) as Hwf.
  destruct (enqueue_spec q d p Hwf) as (q' & E & Hwf' & Hc' & _ & Hlive').
  exists q'. split; [done|].
  destruct (dequeue_node_spec q' Hwf' ltac:(lia))
    as (r & last & h2 & q2 & Hr & _ & _ & _ & _ & _ & _ & _ & Hlive2 & Hleast).
  unfold PQ_peek. rewrite Hr. simpl. do 2 f_equal.
  destruct (Z.ltb_spec p (priority n)) as [Hlt|Hge].
  - assert (Hin : r ∈ nd d p :: live q) by (rewrite <- Hlive', Hlive2; by left).
    apply elem_of_cons in Hin as [->|Hin]; [done|].
    pose proof (live_minimal q n (wf_order q Hwf) Hn r Hin).
    specialize (Hleast (nd d p) ltac:(rewrite Hlive'; by left)).
    simpl in Hleast. lia.
  - destruct (check_size_spec q Hwf) as (Hc0 & Hlt0 & Hlen0 & _ & Htake).
    destruct (wf_size q Hwf).
    unfold PQ_enqueue in E.
    destruct (wr _ _ _) as [h1| |] eqn:Hw; simpl in E; try done.
    destruct (_shift_up _ _) as [q1| |] eqn:Hup; simpl in E; try done.
    simplify_eq. simpl in *. rewrite Hc0 in *.
    assert (Hroot : rd h1 0 = Done n).
    { rewrite (rd_wr_ne _ _ _ _ _ Hw) by lia.
      rewrite <- Hn, <- Htake. symmetry. apply rd_take. lia. }
    assert (rd (heap q1) 0 = Done n).
    { unfold _shift_up in Hup. eapply shift_up_loop_root; [exact Hup|exact Hroot|].
      simpl. intros _. exists (nd d p). split; [|simpl; lia].
      by eapply rd_wr_eq. }
    congruence.
Qed.

Lemma peek_after_enqueue_witness :
  exists q', PQ_enqueue demo_queue 7 1 = Done q' /\
             PQ_peek q' = Done (if 1 <? priority (nd 40 1) then 7
                                else data (nd 40 1), q').
Proof.
  apply (peek_after_enqueue demo_queue 7 1 (nd 40 1) demo_reachable).
  - simpl. lia.
  - reflexivity.
Defined.

Lemma dequeue_nodes_length k : forall q out q',
  dequeue_nodes k q = Done (out, q') -> length out = k.
Proof.
  induction k as [|k IH]; intros q out q' H; simpl in H; [by simplify_eq|].
  destruct (_PQ_dequeue q) as [[n q1]| |]; simpl in H; try done.
  destruct (dequeue_nodes k q1) as [[ns q2]| |] eqn:E; simpl in H; try done.
  simplify_eq. simpl. f_equal. eauto.
Qed.

(** X9.  On a reachable queue holding at least [k] nodes, [k] successive
    removals return [k] nodes in non-decreasing priority order, none of them
    of higher priority value than a node that stays in the queue; the nodes
    removed and the nodes left are together the nodes held before. *)
Theorem dequeue_k_smallest q k :
  reachable q -> Z.of_nat k <= current_size q ->
  exists out q', dequeue_nodes k q = Done (out, q') /\
                 dequeue_all k q = Done (data <$> out, q') /\
                 length out = k /\
                 StronglySorted prio_le out /\
                 (forall a b, a ∈ out -> b ∈ live q' -> prio_le a b) /\
                 live q ≡ₚ out ++ live q' /\
                 current_size q' = current_size q - Z.of_nat k /\
                 heap_ordered q'.
Proof.
  intros Hq Hk.
  destruct (dequeue_nodes_spec k q (reachable_wf q Hq) Hk)
    as (out & q' & E & Hwf' & Hc & _ & Hlive & Hsorted & Hsep).
  exists out, q'. split; [done|].
  split; [by rewrite dequeue_all_nodes, E|].
  split; [by eapply dequeue_nodes_length|].
  repeat (split; [done|]). by apply wf_heap_ordered.
Qed.

Lemma dequeue_k_smallest_witness :
  exists out q', dequeue_nodes 2 demo_queue = Done (out, q') /\
                 dequeue_all 2 demo_queue = Done (data <$> out, q') /\
                 length out = 2%nat /\
                 StronglySorted prio_le out /\
                 (forall a b, a ∈ out -> b ∈ live q' -> prio_le a b) /\
                 live demo_queue ≡ₚ out ++ live q' /\
                 current_size q' = current_size demo_queue - Z.of_nat 2 /\
                 heap_ordered q'.
Proof. apply (dequeue_k_smallest demo_queue 2 demo_reachable). simpl. lia. Defined.

(** ** Growth of the storage *)

Lemma enqueue_all_capacity l : forall q,
  wf q ->
  capacity q = Z.max 10 (10 * ((current_size q + 9) / 10)) ->
  exists q', enqueue_all l q = Done q' /\
             capacity q' =
               Z.max 10 (10 * ((current_size q + Z.of_nat (length l) + 9) / 10)).
Proof.
  induction l as [|n l IH]; intros q Hwf Hcap.
  - exists q. split; [done|]. simpl. by rewrite Z.add_0_r.
  - destruct (enqueue_spec q (data n) (priority n) Hwf)
      as (q1 & E & Hwf1 & Hc1 & Hcap1 & _).
    destruct (IH q1 Hwf1) as (q' & E' & Hcap').
    + rewrite Hcap1, Hc1. unfold PQ_INCREMENT_SIZE.
      destruct (wf_size q Hwf). case_decide; Z.div_mod_to_equations; lia.
    + exists q'. simpl. rewrite E. simpl. split; [done|].
      rewrite Hcap', Hc1. do 3 f_equal. lia.
Qed.

(** X10.  After [n] calls of [PQ_enqueue] on a freshly created queue the
    capacity is 10 for [n <= 10] and otherwise [n] rounded up to the next
    multiple of 10: the storage grows in steps of ten cells, only when a
    node would not fit. *)
Theorem capacity_after_enqueues (l : list PQ_Node) :
  exists q, enqueue_all l PQ_create = Done q /\
            capacity q = Z.max 10 (10 * ((Z.of_nat (length l) + 9) / 10)) /\
            Z.of_nat (length (heap q)) = capacity q.
Proof.
  destruct (enqueue_all_capacity l PQ_create wf_create) as (q & E & Hcap);
    [reflexivity|].
  destruct (enqueue_all_spec l PQ_create wf_create) as (q2 & E2 & Hwf & _).
  exists q. split; [done|]. split; [exact Hcap|].
  rewrite E in E2. simplify_eq. by apply wf_alloc.
Qed.

(** ** The cells past the live ones do not matter to [PQ_enqueue] *)

Lemma rd_app_l (p t : list slot) i :
  i < Z.of_nat (length p) -> rd (p ++ t) i = rd p i.
Proof.
  intros Hi. unfold rd. destruct (Z.ltb_spec i 0); [done|].
  by rewrite lookup_app_l by lia.
Qed.

Lemma swap_app_l (p t : list slot) a b p' :
  _swap a b p = Done p' -> _swap a b (p ++ t) = Done (p' ++ t).
Proof.
  intros (x & y & Ha & Hb & ->)%swap_inv.
  pose proof (rd_bounds _ _ _ Ha). pose proof (rd_bounds _ _ _ Hb).
  rewrite (swap_Done a b (p ++ t) x y) by (by rewrite rd_app_l by lia).
  f_equal. rewrite <- !insert_app_l by (rewrite ?length_insert; lia). done.
Qed.

Lemma shift_up_loop_frame fuel : forall i c1 cap1 p t1 q1,
  i < Z.of_nat (length p) ->
  shift_up_loop fuel i (mkPQ c1 cap1 (p ++ t1)) = Done q1 ->
  exists p', length p' = length p /\
             q1 = mkPQ c1 cap1 (p' ++ t1) /\
             forall c2 cap2 t2,
               shift_up_loop fuel i (mkPQ c2 cap2 (p ++ t2))
               = Done (mkPQ c2 cap2 (p' ++ t2)).
Proof.
  induction fuel as [|fuel IH]; intros i c1 cap1 p t1 q1 Hi H; [done|].
  simpl in H. simpl.
  destruct (Z.ltb_spec 0 i) as [Hpos|].
  - pose proof (parent_bounds i Hpos).
    rewrite !rd_app_l in H by lia.
    destruct (rd p (_parent i)) as [np| |] eqn:Hnp; simpl in H; try done.
    destruct (rd p i) as [nc| |] eqn:Hnc; simpl in H; try done.
    destruct (priority np >? priority nc) eqn:Hcmp.
    + assert (Hsw : _swap (_parent i) i p
                    = Done (<[Z.to_nat i:=Some np]> (<[Z.to_nat (_parent i):=Some nc]> p)))
        by (by apply swap_Done).
      set (p1 := <[Z.to_nat i:=Some np]> (<[Z.to_nat (_parent i):=Some nc]> p)) in *.
      rewrite (swap_app_l _ t1 _ _ _ Hsw) in H. simpl in H.
      destruct (IH (_parent i) c1 cap1 p1 t1 q1) as (p' & Hlen & -> & Hall).
      * unfold p1. rewrite !length_insert. lia.
      * exact H.
      * exists p'. split; [by rewrite Hlen; unfold p1; rewrite !length_insert|].
        split; [done|]. intros c2 cap2 t2.
        rewrite !rd_app_l by lia. rewrite Hnp, Hnc. simpl. rewrite Hcmp.
        rewrite (swap_app_l _ t2 _ _ _ Hsw). simpl. apply Hall.
    + simplify_eq. exists p. split; [done|]. split; [done|].
      intros c2 cap2 t2. rewrite !rd_app_l by lia. rewrite Hnp, Hnc. simpl.
      by rewrite Hcmp.
  - simplify_eq. exists p. split; [done|]. split; [done|]. done.
Qed.

Lemma enqueue_normal_form q d p q' :
  wf q -> PQ_enqueue q d p = Done q' ->
  exists t p',
    length p' = S (Z.to_nat (current_size q)) /\
    heap q' = p' ++ t /\
    current_size q' = current_size q + 1 /\
    forall c2 cap2 t2,
      shift_up_loop (S (Z.to_nat (current_size q))) (current_size q)
        (mkPQ c2 cap2 ((take (Z.to_nat (current_size q)) (heap q)
                        ++ [Some (nd d p)]) ++ t2))
      = Done (mkPQ c2 cap2 (p' ++ t2)).
Proof.
  intros Hwf E.
  destruct (check_size_spec q Hwf) as (Hc & Hlt & Hlen & _ & Htk).
  destruct (wf_size q Hwf). pose proof (wf_alloc q Hwf) as Hal.
  unfold PQ_enqueue in E.
  remember (_check_size q) as q0 eqn:E0. clear E0.
  set (c := current_size q) in *. rewrite Hc in E.
  rewrite wr_ok in E by lia. simpl in E. rewrite Hc in E.
  fold (nd d p) in E.
  assert (Hpre : take (Z.to_nat c) (heap q0) = take (Z.to_nat c) (heap q)).
  { rewrite <- Htk, take_take, Nat.min_l by lia. done. }
  rewrite insert_take_drop in E by lia.
  rewrite Hpre, cons_middle, app_assoc in E.
  destruct (_shift_up c _) as [q1| |] eqn:U; simpl in E; try done.
  unfold _shift_up, set_heap in U.
  assert (Hlp : length (take (Z.to_nat c) (heap q) ++ [Some (nd d p)])
                = S (Z.to_nat c))
    by (rewrite length_app, length_take; simpl; lia).
  apply shift_up_loop_frame in U as (p' & Hlen' & -> & Hall); [|lia].
  simplify_eq.
  exists (drop (S (Z.to_nat (current_size q))) (heap q0)), p'.
  split; [lia|]. split; [done|]. split; [simpl; lia|]. exact Hall.
Qed.

(** Two queues with the same live cells still have the same live cells after
    the same [PQ_enqueue]. *)
Lemma enqueue_same_live qa qb d p qa' qb' :
  wf qa -> wf qb ->
  current_size qa = current_size qb ->
  take (Z.to_nat (current_size qa)) (heap qa)
    = take (Z.to_nat (current_size qb)) (heap qb) ->
  PQ_enqueue qa d p = Done qa' -> PQ_enqueue qb d p = Done qb' ->
  current_size qa' = current_size qb' /\
  take (Z.to_nat (current_size qa')) (heap qa')
    = take (Z.to_nat (current_size qb')) (heap qb').
Proof.
  intros Hwa Hwb Hc Htk Ea Eb.
  destruct (enqueue_normal_form _ _ _ _ Hwa Ea) as (ta & pa & Hla & Hha & Hca & Halla).
  destruct (enqueue_normal_form _ _ _ _ Hwb Eb) as (tb & pb & Hlb & Hhb & Hcb & Hallb).
  specialize (Halla 0 0 []). specialize (Hallb 0 0 []).
  rewrite Htk, Hc in Halla. rewrite Halla in Hallb.
  injection Hallb as Hp. rewrite !app_nil_r in Hp. subst pb.
  destruct (wf_size qa Hwa).
  split; [lia|]. rewrite Hha, Hhb, Hca, Hcb, <- Hc.
  replace (Z.to_nat (current_size qa + 1)) with (length pa) by lia.
  by rewrite !take_app_length.
Qed.


Lemma enqueue_all_same_live l : forall qa qb qa' qb',
  wf qa -> wf qb ->
  current_size qa = current_size qb ->
  take (Z.to_nat (current_size qa)) (heap qa)
    = take (Z.to_nat (current_size qb)) (heap qb) ->
  enqueue_all l qa = Done qa' -> enqueue_all l qb = Done qb' ->
  current_size qa' = current_size qb' /\
  take (Z.to_nat (current_size qa')) (heap qa')
    = take (Z.to_nat (current_size qb')) (heap qb').
Proof.
  induction l as [|n l IH]; intros qa qb qa' qb' Hwa Hwb Hc Htk Ea Eb;
    simpl in Ea, Eb.
  - by simplify_eq.
  - destruct (enqueue_spec qa (data n) (priority n) Hwa) as (qa1 & E1 & Hwa1 & _).
    destruct (enqueue_spec qb (data n) (priority n) Hwb) as (qb1 & E2 & Hwb1 & _).
    rewrite E1 in Ea. rewrite E2 in Eb. simpl in Ea, Eb.
    destruct (enqueue_same_live _ _ _ _ _ _ Hwa Hwb Hc Htk E1 E2) as [Hc1 Htk1].
    by apply (IH qa1 qb1).
Qed.

(** ** The comparison helpers of the test program *)

Lemma compare_single_nodes_eq a b :
  a = b -> _compare_single_nodes a b = 1.
Proof.
  intros ->. unfold _compare_single_nodes. by rewrite !Z.eqb_refl.
Qed.

Lemma compare_single_nodes_ne a b :
  a <> b -> _compare_single_nodes a b = 0.
Proof.
  intros Hne. unfold _compare_single_nodes.
  destruct a as [da pa], b as [db pb]. simpl.
  destruct (Z.eqb_spec pa pb), (Z.eqb_spec da db); simpl; try done.
  by simplify_eq.
Qed.

Lemma compare_single_nodes_cases a b :
  (a = b /\ _compare_single_nodes a b = 1) \/
  (a <> b /\ _compare_single_nodes a b = 0).
Proof.
  destruct a as [da pa], b as [db pb].
  destruct (Z.eq_dec da db) as [->|]; [destruct (Z.eq_dec pa pb) as [->|]|].
  - left. split; [done|]. by apply compare_single_nodes_eq.
  - right. assert (mkNode db pa <> mkNode db pb) by congruence.
    split; [done|]. by apply compare_single_nodes_ne.
  - right. assert (mkNode da pa <> mkNode db pb) by congruence.
    split; [done|]. by apply compare_single_nodes_ne.
Qed.

Lemma compare_nodes_loop_spec a b todo : forall i,
  compare_nodes_loop a b todo i = Done 1 <->
  forall j, i <= j < i + Z.of_nat todo ->
            exists x, rd a j = Done x /\ rd b j = Done x.
Proof.
  induction todo as [|todo IH]; intros i; simpl.
  - split; [intros _ j ?; lia | done].
  - split.
    + intros H j Hj.
      destruct (rd a i) as [x| |] eqn:Ha; simpl in H; try done.
      destruct (rd b i) as [y| |] eqn:Hb; simpl in H; try done.
      destruct (compare_single_nodes_cases x y) as [[-> E]|[_ E]];
        rewrite E in H; simpl in H; [|done].
      destruct (decide (j = i)) as [->|]; [eauto|].
      apply (proj1 (IH (i + 1)) H). lia.
    + intros H. destruct (H i ltac:(lia)) as (x & -> & ->). simpl.
      rewrite compare_single_nodes_eq by done. simpl.
      apply IH. intros j Hj. apply H. lia.
Qed.

(** X11.  [_compare_nodes a b n] returns 1 exactly when, for every
    [i < n], cells [i] of both arrays hold nodes with the same payload and
    the same priority. *)
Theorem compare_nodes_spec a b n :
  _compare_nodes a b n = Done 1 <->
  forall i, 0 <= i < n -> exists x, rd a i = Done x /\ rd b i = Done x.
Proof.
  unfold _compare_nodes. rewrite compare_nodes_loop_spec.
  split; intros H i Hi; apply H; lia.
Qed.

Lemma compare_nodes_spec_witness :
  _compare_nodes (heap demo_queue) (heap demo_queue) 4 = Done 1.
Proof.
  apply (proj2 (compare_nodes_spec (heap demo_queue) (heap demo_queue) 4)).
  intros i Hi.
  assert (i = 0 \/ i = 1 \/ i = 2 \/ i = 3) as Hcases by lia.
  destruct Hcases as [E|[E|[E|E]]]; rewrite E; eexists; split; reflexivity.
Defined.

(** X12.  [PQ_heapify] on an array and [PQ_enqueue] of the same nodes, in
    the same order, into a freshly created queue give the same number of
    nodes and the same node in every live cell, although the capacities
    differ; hence the comparison made by [test_heapify] returns 1 for every
    input. *)
Theorem heapify_same_cells (arr : list PQ_Node) :
  exists qh qe,
    PQ_heapify arr (Z.of_nat (length arr)) = Done qh /\
    enqueue_all arr PQ_create = Done qe /\
    current_size qe = current_size qh /\
    take (length arr) (heap qe) = take (length arr) (heap qh) /\
    _compare_nodes (heap qe) (heap qh) (current_size qe) = Done 1.
Proof.
  set (q0 := {| current_size := 0; capacity := Z.of_nat (length arr);
                heap := replicate (length arr) None |}).
  assert (Hwf0 : wf q0).
  { pose proof (wf_heapify_start (Z.of_nat (length arr)) ltac:(lia)) as H.
    by rewrite Nat2Z.id in H. }
  destruct (enqueue_all_spec arr q0 Hwf0) as (qh & Eh & Hwfh & Hch & _).
  destruct (enqueue_all_spec arr PQ_create wf_create) as (qe & Ee & Hwfe & Hce & _).
  destruct (enqueue_all_same_live arr PQ_create q0 qe qh wf_create Hwf0)
    as [Hc Htk]; try done.
  simpl in Hce, Hch.
  exists qh, qe. rewrite heapify_enqueue_all. fold q0.
  split; [done|]. split; [done|]. split; [done|].
  split.
  { rewrite <- Hc in Htk.
    by replace (Z.to_nat (current_size qe)) with (length arr) in Htk by lia. }
  unfold _compare_nodes. apply compare_nodes_loop_spec. intros i Hi.
  destruct (wf_assigned qe Hwfe i ltac:(lia)) as [x Hx].
  exists x. split; [done|].
  assert (Hi' : 0 <= i < current_size qe) by lia.
  rewrite <- Hx. apply (rd_take_eq _ _ (current_size qe)); [|done].
  by rewrite Hc at 1.
Qed.


(** ** [PQ_heapify] and the size it is given *)

Lemma heapify_loop_past_end arr todo : forall (i : nat) pq,
  wf pq -> (i <= length arr)%nat -> (length arr < i + todo)%nat ->
  heapify_loop arr todo (Z.of_nat i) pq = Undefined.
Proof.
  induction todo as [|todo IH]; intros i pq Hwf Hi Hlen; [lia|].
  simpl. unfold arr_at. destruct (Z.ltb_spec (Z.of_nat i) 0); [lia|].
  rewrite Nat2Z.id. destruct (arr !! i) as [n|] eqn:E; simpl; [|done].
  apply lookup_lt_Some in E.
  destruct (enqueue_spec pq (data n) (priority n) Hwf) as (pq' & -> & Hwf' & _).
  simpl. replace (Z.of_nat i + 1) with (Z.of_nat (S i)) by lia.
  apply IH; [done | lia | lia].
Qed.

(** X13.  [PQ_heapify] reads exactly the first [size] entries of the array:
    with [0 <= size <= length] it builds the queue of these entries, with
    capacity [size], whatever follows them; with [size] above the length of
    the array it reads past the end of the array, which is undefined. *)
Theorem heapify_reads_size_entries (arr : list PQ_Node) (size : Z) :
  (0 <= size <= Z.of_nat (length arr) ->
   PQ_heapify arr size = PQ_heapify (take (Z.to_nat size) arr) size /\
   exists q, PQ_heapify arr size = Done q /\
             live q ≡ₚ take (Z.to_nat size) arr /\
             current_size q = size /\ capacity q = size) /\
  (Z.of_nat (length arr) < size -> PQ_heapify arr size = Undefined).
Proof.
  split.
  - intros Hsize.
    set (q0 := {| current_size := 0; capacity := size;
                  heap := replicate (Z.to_nat size) None |}).
    assert (E1 : PQ_heapify arr size = enqueue_all (take (Z.to_nat size) arr) q0).
    { unfold PQ_heapify. simpl current_size. fold q0.
      rewrite (heapify_loop_enqueue_all arr (Z.to_nat size) 0) by lia.
      by rewrite drop_0. }
    assert (E2 : PQ_heapify (take (Z.to_nat size) arr) size
                 = enqueue_all (take (Z.to_nat size) arr) q0).
    { unfold PQ_heapify. simpl current_size. fold q0.
      rewrite (heapify_loop_enqueue_all _ (Z.to_nat size) 0)
        by (rewrite length_take; lia).
      by rewrite drop_0, take_take, Nat.min_id. }
    split; [congruence|].
    destruct (enqueue_all_spec (take (Z.to_nat size) arr) q0
                (wf_heapify_start size ltac:(lia)))
      as (q & E & _ & Hc & _ & Hcap & Hlive).
    rewrite (live_empty q0), app_nil_r in Hlive by done.
    rewrite length_take in Hc, Hcap. simpl in Hc, Hcap.
    exists q. rewrite E1. split; [done|]. split; [done|].
    split; [lia|]. apply Hcap. lia.
  - intros Hsize. unfold PQ_heapify.
    apply (heapify_loop_past_end arr (Z.to_nat size) 0); [|lia|lia].
    apply wf_heapify_start. lia.
Qed.

Lemma heapify_reads_size_entries_witness :
  (PQ_heapify demo_nodes 2 = PQ_heapify (take (Z.to_nat 2) demo_nodes) 2 /\
   exists q, PQ_heapify demo_nodes 2 = Done q /\
             live q ≡ₚ take (Z.to_nat 2) demo_nodes /\
             current_size q = 2 /\ capacity q = 2) /\
  PQ_heapify demo_nodes 5 = Undefined.
Proof.
  split.
  - apply (proj1 (heapify_reads_size_entries demo_nodes 2)). simpl. lia.
  - apply (proj2 (heapify_reads_size_entries demo_nodes 5)). simpl. lia.
Defined.

(** X14.  [PQ_heapify] does not reject a negative [size].  For
    [-10 < size < 0] it returns an empty queue whose capacity is that
    negative number, and every [PQ_enqueue] on that queue is undefined:
    [_check_size] asks [realloc] for [size + 10] cells, a positive number,
    then assigns the negative capacity to [count], and the new node is
    stored at that negative index.  (For [size <= -10] the number of cells
    asked for is not positive; [realloc] may then fail and the library exits
    instead, which is not covered here.) *)
Theorem heapify_negative_size (arr : list PQ_Node) (size d p : Z) :
  -10 < size < 0 ->
  exists q, PQ_heapify arr size = Done q /\
            current_size q = 0 /\ capacity q = size /\
            0 < capacity q + PQ_INCREMENT_SIZE /\
            length (heap (_check_size q))
              = Z.to_nat (capacity q + PQ_INCREMENT_SIZE) /\
            current_size (_check_size q) = size /\
            PQ_enqueue q d p = Undefined.
Proof.
  intros Hneg. unfold PQ_heapify.
  replace (Z.to_nat size) with 0%nat by lia. simpl.
  eexists. split; [reflexivity|]. simpl.
  split; [done|]. split; [done|].
  split; [unfold PQ_INCREMENT_SIZE; lia|].
  unfold PQ_enqueue, _check_size. simpl. rewrite Z.gtb_ltb.
  replace (size <? 0 + 1) with true by (symmetry; apply Z.ltb_lt; lia).
  simpl. split; [unfold realloc; by rewrite length_resize|].
  split; [done|].
  unfold wr. destruct (Z.leb_spec 0 size); [lia|]. done.
Qed.

Lemma heapify_negative_size_witness :
  exists q, PQ_heapify demo_nodes (-3) = Done q /\
            current_size q = 0 /\ capacity q = -3 /\
            0 < capacity q + PQ_INCREMENT_SIZE /\
            length (heap (_check_size q))
              = Z.to_nat (capacity q + PQ_INCREMENT_SIZE) /\
            current_size (_check_size q) = -3 /\
            PQ_enqueue q 1 1 = Undefined.
Proof. apply (heapify_negative_size demo_nodes (-3) 1 1). lia. Defined.


(** ** The loops of the test program *)

Lemma peek_dequeue_loop_spec k : forall q,
  wf q -> Z.of_nat k <= current_size q ->
  exists out q', dequeue_nodes k q = Done (out, q') /\
                 peek_dequeue_loop k q = Done (data <$> out, out, q').
Proof.
  induction k as [|k IH]; intros q Hwf Hk.
  - by exists [], q.
  - destruct (dequeue_node_spec q Hwf ltac:(lia))
      as (n & last & h1 & q1 & Hn & _ & _ & _ & E & Hwf1 & Hc1 & _).
    destruct (IH q1 Hwf1 ltac:(lia)) as (out & q' & E1 & E2).
    exists (n :: out), q'. simpl. unfold PQ_peek. rewrite Hn. simpl.
    rewrite E. simpl. rewrite E1, E2. done.
Qed.

(** X15.  On a reachable queue holding at least [k] nodes, [k] rounds of
    [PQ_peek] followed by [_PQ_dequeue] all succeed, and each peeked payload
    is the payload of the node removed in the same round (the check made by
    [test_peek]). *)
Theorem peek_then_dequeue_rounds q k :
  reachable q -> Z.of_nat k <= current_size q ->
  exists out q', dequeue_nodes k q = Done (out, q') /\
                 peek_dequeue_loop k q = Done (data <$> out, out, q') /\
                 StronglySorted prio_le out.
Proof.
  intros Hq Hk. pose proof (reachable_wf q Hq) as Hwf.
  destruct (peek_dequeue_loop_spec k q Hwf Hk) as (out & q' & E1 & E2).
  destruct (dequeue_nodes_spec k q Hwf Hk) as (out2 & q2 & E & _ & _ & _ & _ & Hs & _).
  rewrite E1 in E. simplify_eq. eauto.
Qed.

Lemma peek_then_dequeue_rounds_witness :
  exists out q', dequeue_nodes 4 demo_queue = Done (out, q') /\
                 peek_dequeue_loop 4 demo_queue = Done (data <$> out, out, q') /\
                 StronglySorted prio_le out.
Proof.
  apply (peek_then_dequeue_rounds demo_queue 4 demo_reachable). simpl. lia.
Defined.

Lemma shift_down_no_child i q :
  current_size q < _left_child i -> _shift_down i q = Done q.
Proof.
  unfold _shift_down, _left_child. intros H. simpl. unfold pick, _left_child, _right_child.
  destruct (Z.leb_spec (2 * i + 1) (current_size q)); [lia|]. simpl.
  destruct (Z.leb_spec (2 * i + 2) (current_size q)); [lia|]. simpl.
  by rewrite Z.eqb_refl.
Qed.

Lemma drain_leaves_last k : forall q out q',
  wf q -> current_size q = Z.of_nat (S k) ->
  dequeue_nodes (S k) q = Done (out, q') ->
  exists y, last out = Some y /\ rd (heap q') 0 = Done y.
Proof.
  induction k as [|k IH]; intros q out q' Hwf Hc H.
  - destruct (dequeue_node_spec q Hwf ltac:(lia))
      as (n & lst & h1 & q1 & Hn & Hl & Hw & Hd & E & _).
    simpl in H. rewrite E in H. simpl in H. simplify_eq.
    rewrite Hc in Hl, Hd.
    replace (Z.of_nat 1 - 1) with 0 in Hl, Hd by lia.
    rewrite Hn in Hl. simplify_eq.
    rewrite shift_down_no_child in Hd by (simpl; unfold _left_child; lia).
    simplify_eq. exists lst. split; [done|]. simpl. by eapply rd_wr_eq.
  - destruct (dequeue_node_spec q Hwf ltac:(lia))
      as (n & lst & h1 & q1 & _ & _ & _ & _ & E & Hwf1 & Hc1 & _).
    change (dequeue_nodes (S (S k)) q)
      with (let* (n, q) := _PQ_dequeue q in
            let* (ns, q) := dequeue_nodes (S k) q in Done (n :: ns, q)) in H.
    rewrite E in H. unfold bind at 1 in H. cbv beta iota in H.
    destruct (dequeue_nodes (S k) q1) as [[ns q2]| |] eqn:E1;
      unfold bind in H; try done.
    simplify_eq.
    destruct (IH q1 ns q' Hwf1 ltac:(lia) E1) as (y & Hy & Hr).
    exists y. split; [|done]. rewrite last_cons, Hy. done.
Qed.

(** X16.  [_PQ_dequeue] leaves the removed pointers in the array: once all
    [n >= 2] nodes of a queue built from nodes of pairwise distinct
    priorities have been removed, cell 0 still holds the node removed last,
    which differs from the node removed first; so comparing the array with
    the removed nodes, as [test_large] does, returns 0. *)
Theorem drained_array_is_stale (l : list PQ_Node) :
  (2 <= length l)%nat -> NoDup (priority <$> l) ->
  exists q out q' x y,
    enqueue_all l PQ_create = Done q /\
    dequeue_nodes (length l) q = Done (out, q') /\
    current_size q' = 0 /\
    head out = Some x /\ last out = Some y /\ x <> y /\
    rd (heap q') 0 = Done y /\
    _compare_nodes (heap q') (Some <$> out) (Z.of_nat (length l)) = Done 0.
Proof.
  intros Hlen Hnd.
  destruct (enqueue_all_spec l PQ_create wf_create)
    as (q & E & Hwf & Hc & _ & _ & Hlive).
  rewrite (live_empty PQ_create), app_nil_r in Hlive by done. simpl in Hc.
  destruct (dequeue_nodes_spec (length l) q Hwf ltac:(lia))
    as (out & q' & D & _ & Hc' & _ & Hlive' & _).
  rewrite (live_empty q'), app_nil_r in Hlive' by lia.
  assert (Hperm : out ≡ₚ l) by (by rewrite <- Hlive', Hlive).
  assert (Hlo : length out = length l) by (by rewrite Hperm).
  destruct (length l) as [|k] eqn:Ek; [lia|].
  destruct (drain_leaves_last k q out q' Hwf ltac:(lia) D) as (y & Hy & Hr).
  destruct out as [|x out]; [done|].
  assert (Hxy : x <> y).
  { intros ->.
    assert (NoDup (y :: out)) as Hnd'.
    { apply (NoDup_fmap_1 priority). by rewrite Hperm. }
    apply NoDup_cons in Hnd' as [Hnotin _]. apply Hnotin.
    rewrite last_cons in Hy. destruct (last out) as [z|] eqn:Ez.
    - simplify_eq. apply last_Some_elem_of in Ez. done.
    - apply last_None in Ez. subst out. simpl in Hlo. lia. }
  exists q, (x :: out), q', x, y.
  split; [done|]. split; [done|]. split; [lia|]. split; [done|].
  split; [done|]. split; [done|]. split; [done|].
  unfold _compare_nodes. rewrite Nat2Z.id. simpl. rewrite Hr. simpl.
  by rewrite compare_single_nodes_ne by done.
Qed.

Lemma drained_array_is_stale_witness :
  exists q out q' x y,
    enqueue_all demo_nodes PQ_create = Done q /\
    dequeue_nodes (length demo_nodes) q = Done (out, q') /\
    current_size q' = 0 /\
    head out = Some x /\ last out = Some y /\ x <> y /\
    rd (heap q') 0 = Done y /\
    _compare_nodes (heap q') (Some <$> out) (Z.of_nat (length demo_nodes))
      = Done 0.
Proof.
  apply (drained_array_is_stale demo_nodes).
  - simpl. lia.
  - apply (bool_decide_unpack _). vm_compute. exact I.
Defined.


Lemma random_shuffle_loop_spec rand n todo : forall k arr,
  (forall c, 0 <= rand c) ->
  Z.of_nat todo < n -> assigned arr n ->
  exists arr',
    random_shuffle_loop rand todo k (Z.of_nat todo) arr = Done arr' /\
    assigned arr' n /\
    length arr' = length arr /\
    take (Z.to_nat n) arr' ≡ₚ take (Z.to_nat n) arr /\
    drop (Z.to_nat n) arr' = drop (Z.to_nat n) arr.
Proof.
  induction todo as [|todo IH]; intros k arr Hrand Hn Hasg.
  - exists arr. split; [done|]. split; [done|]. split; [done|]. split; done.
  - simpl random_shuffle_loop.
    set (i := Z.of_nat (S todo)) in *.
    pose proof (Z.rem_bound_pos (rand k) (i + 1) (Hrand k) ltac:(lia)) as Hj.
    set (j := Z.rem (rand k) (i + 1)) in *.
    destruct (Hasg j ltac:(lia)) as [x Hx].
    destruct (Hasg i ltac:(lia)) as [y Hy].
    pose proof (swap_Done j i arr x y Hx Hy) as Hsw.
    rewrite Hx, Hy. simpl.
    rewrite wr_ok by (eapply rd_bounds; eauto). simpl.
    rewrite wr_ok by (rewrite length_insert; eapply rd_bounds; eauto). simpl.
    replace (i - 1) with (Z.of_nat todo) by lia.
    destruct (IH (S k) (<[Z.to_nat i:=Some x]> (<[Z.to_nat j:=Some y]> arr)))
      as (arr' & E & Hasg' & Hlen & Hperm & Hdrop); [done|lia| |].
    + by eapply swap_assigned.
    + exists arr'. split; [done|]. split; [done|].
      split; [by rewrite Hlen, (swap_length _ _ _ _ Hsw)|]. split.
      * rewrite Hperm. eapply swap_take_Permutation; eauto; lia.
      * rewrite Hdrop. eapply swap_drop; eauto; lia.
Qed.

(** X17.  Whatever values [rand()] returns (they are never negative),
    [_random_shuffle] on an array whose first [n] cells hold nodes returns
    with these [n] cells rearranged: the same nodes, each as often as before;
    the cells from index [n] on are untouched. *)
Theorem random_shuffle_permutes rand arr n :
  (forall c, 0 <= rand c) -> assigned arr n ->
  exists arr',
    _random_shuffle rand arr n = Done arr' /\
    length arr' = length arr /\
    take (Z.to_nat n) arr' ≡ₚ take (Z.to_nat n) arr /\
    drop (Z.to_nat n) arr' = drop (Z.to_nat n) arr.
Proof.
  intros Hrand Hasg. unfold _random_shuffle.
  destruct (Z_lt_le_dec n 1) as [Hsmall|Hbig].
  - replace (Z.to_nat (n - 1)) with 0%nat by lia. exists arr.
    split; [reflexivity|]. split; [reflexivity|]. split; reflexivity.
  - destruct (random_shuffle_loop_spec rand n (Z.to_nat (n - 1)) 0%nat arr)
      as (arr' & E & _ & Hlen & Hperm & Hdrop); [done|lia|done|].
    rewrite Z2Nat.id in E by lia.
    exists arr'. split; [exact E|]. split; [exact Hlen|].
    split; [exact Hperm | exact Hdrop].
Qed.

Lemma random_shuffle_permutes_witness :
  exists arr',
    _random_shuffle (fun k => Z.of_nat k + 5) (heap demo_queue) 4 = Done arr' /\
    length arr' = length (heap demo_queue) /\
    take (Z.to_nat 4) arr' ≡ₚ take (Z.to_nat 4) (heap demo_queue) /\
    drop (Z.to_nat 4) arr' = drop (Z.to_nat 4) (heap demo_queue).
Proof.
  apply (random_shuffle_permutes (fun k => Z.of_nat k + 5) (heap demo_queue) 4).
  - intros c. lia.
  - intros i Hi.
    assert (i = 0 \/ i = 1 \/ i = 2 \/ i = 3) as Hcases by lia.
    destruct Hcases as [E|[E|[E|E]]]; rewrite E; eexists; reflexivity.
Defined.


(** * The nodes as allocated objects: memory safety *)

Module PtrFacts.
Import Ptr.

(** ** Cells *)

Lemma load_Done h i a :
  load h i = Done a <-> 0 <= i /\ h !! Z.to_nat i = Some (Some a).
Proof.
  unfold load. destruct (Z.ltb_spec i 0).
  - split; [discriminate | intros [? _]; lia].
  - destruct (h !! Z.to_nat i) as [[b|]|]; split; intros H1;
      try discriminate; try (destruct H1; congruence); try (split; congruence).
Qed.

Lemma load_bounds h i a : load h i = Done a -> 0 <= i < Z.of_nat (length h).
Proof. intros [? Hl]%load_Done. apply lookup_lt_Some in Hl. lia. Qed.

Lemma put_ok h i a :
  0 <= i < Z.of_nat (length h) -> put h i a = Done (<[Z.to_nat i := Some a]> h).
Proof.
  intros. unfold put.
  destruct (Z.leb_spec 0 i); [|lia].
  destruct (Z.ltb_spec i (Z.of_nat (length h))); [done|lia].
Qed.

Lemma load_insert_eq h i a :
  0 <= i < Z.of_nat (length h) -> load (<[Z.to_nat i := Some a]> h) i = Done a.
Proof.
  intros. apply load_Done. split; [lia|]. apply list_lookup_insert_eq. lia.
Qed.

Lemma load_insert_ne h i j c :
  0 <= i -> i <> j -> load (<[Z.to_nat i := c]> h) j = load h j.
Proof.
  intros. unfold load. destruct (Z.ltb_spec j 0); [reflexivity|].
  rewrite list_lookup_insert_ne by lia. reflexivity.
Qed.

Lemma ptr_swap_Done a b h x y :
  load h a = Done x -> load h b = Done y ->
  Ptr._swap a b h = Done (<[Z.to_nat b := Some x]> (<[Z.to_nat a := Some y]> h)).
Proof.
  intros Ha Hb. unfold Ptr._swap. rewrite Ha, Hb. simpl.
  rewrite put_ok by (eapply load_bounds; eauto). simpl.
  apply put_ok. rewrite length_insert. eapply load_bounds; eauto.
Qed.

(** What a swap of two cells below [k] does to the cells. *)
Lemma ptr_swap_cells m a b h x y k :
  load h a = Done x -> load h b = Done y -> a < k -> b < k ->
  allocated m h k ->
  let h' := <[Z.to_nat b := Some x]> (<[Z.to_nat a := Some y]> h) in
  allocated m h' k /\
  length h' = length h /\
  take (Z.to_nat k) h' ≡ₚ take (Z.to_nat k) h /\
  drop (Z.to_nat k) h' = drop (Z.to_nat k) h /\
  load h' a = Done y /\ load h' b = Done x /\
  (forall j, j <> a -> j <> b -> load h' j = load h j).
Proof.
  intros Ha Hb Hak Hbk Hall h'.
  pose proof (load_bounds _ _ _ Ha). pose proof (load_bounds _ _ _ Hb).
  assert (Hla : load h' a = Done y).
  { unfold h'. destruct (decide (a = b)) as [->|].
    - rewrite load_insert_eq by (rewrite length_insert; lia). congruence.
    - rewrite load_insert_ne by lia. apply load_insert_eq. lia. }
  assert (Hlb : load h' b = Done x)
    by (unfold h'; apply load_insert_eq; rewrite length_insert; lia).
  assert (Hother : forall j, j <> a -> j <> b -> load h' j = load h j)
    by (intros j ? ?; unfold h'; rewrite !load_insert_ne by lia; done).
  split; [|split; [|split; [|split]]].
  - intros j Hj.
    destruct (decide (j = a)) as [->|]; [rewrite Hla, <- Hb; apply Hall; lia|].
    destruct (decide (j = b)) as [->|]; [rewrite Hlb, <- Ha; apply Hall; lia|].
    rewrite Hother by done. by apply Hall.
  - unfold h'. by rewrite !length_insert.
  - unfold h'. apply load_Done in Ha as [_ Ha]. apply load_Done in Hb as [_ Hb].
    rewrite !take_insert_lt by lia.
    apply exchange_Permutation; rewrite lookup_take_lt by lia; done.
  - unfold h'. by rewrite !drop_insert_lt by lia.
  - done.
Qed.


Lemma allocated_node m h k j :
  allocated m h k -> 0 <= j < k ->
  exists a n, load h j = Done a /\ m !! a = Some n /\
              deref m a = Done n /\ pri m h j = priority n.
Proof.
  intros Hall Hj. destruct (Hall j Hj) as (a & Ha & [n Hn]).
  exists a, n. split; [done|]. split; [done|].
  split; [by unfold deref; rewrite Hn|]. unfold pri. by rewrite Ha, Hn.
Qed.

Lemma ptr_pri_ext m h h' j : load h' j = load h j -> pri m h' j = pri m h j.
Proof. intros E. unfold pri. by rewrite E. Qed.

(** ** [_shift_up] keeps the live cells a rearrangement of allocated nodes *)

Lemma ptr_shift_up_loop_spec m fuel : forall i q k,
  (Z.to_nat i < fuel)%nat -> 0 <= i < k ->
  allocated m (heap q) k ->
  exists h', shift_up_loop m fuel i q = Done (set_heap q h') /\
             allocated m h' k /\
             length h' = length (heap q) /\
             take (Z.to_nat k) h' ≡ₚ take (Z.to_nat k) (heap q) /\
             drop (Z.to_nat k) h' = drop (Z.to_nat k) (heap q).
Proof.
  induction fuel as [|fuel IH]; intros i q k Hf Hi Hall; [lia|].
  simpl. destruct (Z.ltb_spec 0 i) as [Hpos|].
  - pose proof (parent_bounds i Hpos) as Hp.
    destruct (allocated_node m _ k (_parent i) Hall ltac:(lia))
      as (pa & np & Hpa & _ & Hnp & _).
    destruct (allocated_node m _ k i Hall ltac:(lia))
      as (ca & nc & Hca & _ & Hnc & _).
    rewrite Hpa. simpl. rewrite Hnp. simpl. rewrite Hca. simpl.
    rewrite Hnc. simpl.
    destruct (priority np >? priority nc).
    + rewrite (ptr_swap_Done _ _ _ _ _ Hpa Hca). simpl.
      destruct (ptr_swap_cells m _ _ _ _ _ k Hpa Hca ltac:(lia) ltac:(lia) Hall)
        as (Hall1 & Hlen1 & Hperm1 & Hdrop1 & _).
      destruct (IH (_parent i) (set_heap q _) k ltac:(lia) ltac:(lia) Hall1)
        as (h' & E & Hall' & Hlen' & Hperm' & Hdrop').
      exists h'. split; [exact E|]. split; [done|].
      split; [simpl in Hlen'; congruence|].
      split; [by rewrite Hperm'|]. by rewrite Hdrop'.
    + exists (heap q). split; [by destruct q|]. done.
  - exists (heap q). split; [by destruct q|]. done.
Qed.

(** ** [_shift_down] after the last node was moved to the root *)

Lemma ptr_pick_spec m q k c mx :
  current_size q = k -> allocated m (heap q) (k + 1) ->
  0 <= c -> 0 <= mx <= k ->
  pri m (heap q) mx <= pri m (heap q) k ->
  exists res, Ptr.pick m q c mx = Done res /\
              (res = mx \/ (res = c /\ c < k)) /\
              pri m (heap q) res <= pri m (heap q) mx /\
              (res <> mx -> pri m (heap q) res < pri m (heap q) mx).
Proof.
  intros Hk Hall Hc Hmx Hle. unfold Ptr.pick. rewrite Hk.
  destruct (Z.leb_spec c k) as [Hck|Hck].
  - destruct (allocated_node m _ _ c Hall ltac:(lia))
      as (ac & nc & Hac & _ & Hnc & Pc).
    destruct (allocated_node m _ _ mx Hall ltac:(lia))
      as (am & nm & Ham & _ & Hnm & Pm).
    rewrite Hac. simpl. rewrite Hnc. simpl. rewrite Ham. simpl.
    rewrite Hnm. simpl.
    destruct (Z.ltb_spec (priority nc) (priority nm)) as [Hlt|Hge].
    + exists c. split; [done|].
      assert (c <> k) by (intros ->; lia).
      split; [right; lia|]. split; [lia|]. intros _. lia.
    + exists mx. split; [done|]. split; [by left|]. split; [lia|]. done.
  - exists mx. split; [done|]. split; [by left|]. split; [lia|]. done.
Qed.

Lemma ptr_shift_down_spec m fuel : forall i q k,
  current_size q = k -> (Z.to_nat (k - i) < fuel)%nat -> 0 <= i <= k ->
  allocated m (heap q) (k + 1) ->
  pri m (heap q) i <= pri m (heap q) k ->
  exists h', shift_down_rec m fuel i q = Done (set_heap q h') /\
             allocated m h' (k + 1) /\
             length h' = length (heap q) /\
             take (Z.to_nat k) h' ≡ₚ take (Z.to_nat k) (heap q).
Proof.
  induction fuel as [|fuel IH]; intros i q k Hk Hf Hi Hall Hle; [lia|].
  simpl.
  destruct (ptr_pick_spec m q k (_left_child i) i Hk Hall
              ltac:(unfold _left_child; lia) Hi Hle)
    as (m1 & -> & Hm1 & Hp1 & _). simpl.
  destruct (ptr_pick_spec m q k (_right_child i) m1 Hk Hall
              ltac:(unfold _right_child; lia)
              ltac:(unfold _left_child in *; lia) ltac:(lia))
    as (m2 & -> & Hm2 & Hp2 & Hlt2). simpl.
  assert (Hcases : m2 = i \/ (i < m2 < k /\ pri m (heap q) m2 <= pri m (heap q) i))
    by (unfold _left_child, _right_child in *; lia).
  destruct (Z.eqb_spec i m2) as [<-|Hne]; simpl.
  - exists (heap q). split; [by destruct q|]. done.
  - destruct Hcases as [->|[Hm Hpm]]; [done|].
    destruct (allocated_node m _ _ i Hall ltac:(lia)) as (ai & ni & Hai & _).
    destruct (allocated_node m _ _ m2 Hall ltac:(lia)) as (am & nm & Ham & _).
    rewrite (ptr_swap_Done _ _ _ _ _ Hai Ham). simpl.
    destruct (ptr_swap_cells m _ _ _ _ _ (k + 1) Hai Ham ltac:(lia) ltac:(lia) Hall)
      as (Hall1 & Hlen1 & _ & _ & Hli & Hlm & Hother).
    destruct (ptr_swap_cells m _ _ _ _ _ k Hai Ham ltac:(lia) ltac:(lia))
      as (_ & _ & Hperm1 & _).
    { intros j Hj. apply Hall. lia. }
    set (h1 := <[Z.to_nat m2:=Some ai]> (<[Z.to_nat i:=Some am]> (heap q))) in *.
    destruct (IH m2 (set_heap q h1) k Hk ltac:(lia) ltac:(lia) Hall1)
      as (h' & E & Hall' & Hlen' & Hperm').
    + simpl. rewrite (ptr_pri_ext m (heap q) h1 k) by (apply Hother; lia).
      unfold pri at 1. rewrite Hlm. unfold pri in Hle. rewrite Hai in Hle. done.
    + exists h'. split; [exact E|]. split; [done|].
      split; [simpl in Hlen'; congruence|]. by rewrite Hperm'.
Qed.


(** ** The addresses in the live cells *)

Lemma omap_after_move {A} (l : list (option A)) (k : nat) x y :
  l !! 0%nat = Some (Some x) -> l !! k = Some (Some y) ->
  omap id (take (S k) l) ≡ₚ x :: omap id (take k (<[0%nat := Some y]> l)).
Proof.
  destruct l as [|c l]; intros H0 Hk; simplify_eq/=.
  destruct k as [|k]; simplify_eq/=.
  - done.
  - rewrite (take_S_r l k (Some y)) by done.
    rewrite omap_app. simpl. f_equal. by rewrite Permutation_app_comm.
Qed.

Lemma owned_elem q a :
  a ∈ owned q <->
  exists i, 0 <= i < current_size q /\ load (heap q) i = Done a.
Proof.
  unfold owned. rewrite list_elem_of_omap. split.
  - intros (c & Hc & E). simpl in E. subst c.
    apply list_elem_of_lookup in Hc as [j Hj].
    apply lookup_take_Some in Hj as [Hj Hlt].
    exists (Z.of_nat j). split; [lia|].
    apply load_Done. split; [lia|]. by rewrite Nat2Z.id.
  - intros (i & Hi & [_ Hl]%load_Done).
    exists (Some a). split; [|done].
    apply list_elem_of_lookup. exists (Z.to_nat i).
    rewrite lookup_take_lt by lia. done.
Qed.

Lemma owned_allocated m q a : inv m q -> a ∈ owned q -> is_Some (m !! a).
Proof.
  intros Hinv (i & Hi & Hl)%owned_elem.
  destruct (inv_cells m q Hinv i Hi) as (b & Hb & Hsome). congruence.
Qed.

Lemma all_Some_omap {A} (l : list (option A)) :
  (forall c, c ∈ l -> is_Some c) -> l = Some <$> omap id l.
Proof.
  induction l as [|c l IH]; intros Hall; [done|].
  destruct (Hall c ltac:(by left)) as [x ->]. simpl. f_equal.
  apply IH. intros c Hc. apply Hall. by right.
Qed.

Lemma owned_cells m q :
  inv m q -> take (Z.to_nat (current_size q)) (heap q) = Some <$> owned q.
Proof.
  intros Hinv. apply all_Some_omap. intros c Hc.
  apply list_elem_of_lookup in Hc as [j Hj].
  apply lookup_take_Some in Hj as [Hj Hlt].
  destruct (inv_cells m q Hinv (Z.of_nat j) ltac:(lia)) as (a & [_ Ha]%load_Done & _).
  rewrite Nat2Z.id in Ha. rewrite Hj in Ha. by simplify_eq.
Qed.

(** ** Storage *)

Lemma inv_create m : inv m PQ_create.
Proof.
  split; simpl.
  - unfold PQ_INITIAL_SIZE. lia.
  - reflexivity.
  - intros i Hi. lia.
  - constructor.
Qed.

Lemma ptr_check_size_spec m q :
  inv m q ->
  let q0 := Ptr._check_size q in
  current_size q0 = current_size q /\
  current_size q0 < capacity q0 /\
  Z.of_nat (length (heap q0)) = capacity q0 /\
  take (Z.to_nat (capacity q)) (heap q0) = heap q.
Proof.
  intros [Hs Ha _ _]. unfold Ptr._check_size. rewrite Z.gtb_ltb.
  destruct (Z.ltb_spec (capacity q) (current_size q + 1)) as [Hfull|Hroom]; simpl.
  - unfold PQ_INCREMENT_SIZE. rewrite length_resize.
    repeat split; try lia.
    rewrite take_resize_le by lia. rewrite resize_le by lia.
    apply take_ge. lia.
  - repeat split; try lia. apply take_ge. lia.
Qed.

Lemma malloc_fresh m : m !! malloc m = None.
Proof. apply not_elem_of_dom. unfold malloc. apply is_fresh. Qed.

Lemma load_take h k i : 0 <= i < k -> load (take (Z.to_nat k) h) i = load h i.
Proof.
  intros. unfold load. destruct (i <? 0); [done|].
  by rewrite lookup_take_lt by lia.
Qed.

(** ** [PQ_enqueue] *)

Lemma ptr_enqueue_spec m q d p :
  inv m q ->
  exists q',
    Ptr.PQ_enqueue m q d p = Done (<[malloc m := nd d p]> m, q') /\
    inv (<[malloc m := nd d p]> m) q' /\
    owned q' ≡ₚ malloc m :: owned q /\
    current_size q' = current_size q + 1.
Proof.
  intros Hinv.
  destruct (ptr_check_size_spec m q Hinv) as (Hc & Hlt & Hlen & Htk).
  pose proof (malloc_fresh m) as Hfresh.
  pose proof (fun a => owned_allocated m q a Hinv) as Hown.
  destruct Hinv as [Hs Ha Hcells Hnd].
  unfold Ptr.PQ_enqueue. fold (nd d p).
  remember (Ptr._check_size q) as q0 eqn:E0. clear E0.
  set (a := malloc m) in *. set (m' := <[a := nd d p]> m).
  set (c := current_size q) in *.
  assert (Hld : forall i, 0 <= i < c -> load (heap q0) i = load (heap q) i).
  { intros i Hi. rewrite <- Htk. symmetry. apply load_take. lia. }
  rewrite put_ok by lia. simpl. rewrite Hc.
  set (h1 := <[Z.to_nat c:=Some a]> (heap q0)).
  assert (Hall1 : allocated m' h1 (c + 1)).
  { intros i Hi. destruct (decide (i = c)) as [->|].
    - exists a. split; [apply load_insert_eq; lia|].
      unfold m'. rewrite lookup_insert_eq. eauto.
    - unfold h1. rewrite load_insert_ne by lia. rewrite Hld by lia.
      destruct (Hcells i ltac:(lia)) as (b & Hb & [nb Hnb]).
      exists b. split; [done|]. unfold m'.
      rewrite lookup_insert_ne by congruence. eauto. }
  unfold Ptr._shift_up.
  destruct (ptr_shift_up_loop_spec m' (S (Z.to_nat c)) c (set_heap q0 h1) (c + 1)
              ltac:(lia) ltac:(lia) Hall1)
    as (h' & -> & Hall' & Hlen' & Hperm & _).
  simpl. rewrite Hc. eexists. split; [reflexivity|].
  assert (Hown' : omap id (take (Z.to_nat (c + 1)) h') ≡ₚ a :: owned q).
  { rewrite Hperm. simpl.
    replace (Z.to_nat (c + 1)) with (S (Z.to_nat c)) by lia.
    rewrite (take_S_r h1 _ (Some a))
      by (unfold h1; apply list_lookup_insert_eq; lia).
    unfold h1. rewrite take_insert_ge by lia. rewrite omap_app. simpl.
    unfold owned. fold c. rewrite <- Htk, take_take, Nat.min_l by lia.
    by rewrite Permutation_app_comm. }
  split; [split; simpl|split; [exact Hown'|simpl; lia]].
  - lia.
  - rewrite Hlen'. simpl. unfold h1. rewrite length_insert. lia.
  - exact Hall'.
  - unfold owned. simpl. rewrite Hown'. apply NoDup_cons. split; [|done].
    intros Hin. apply Hown in Hin as [n Hn]. congruence.
Qed.


(** ** [_PQ_dequeue] and [PQ_dequeue] *)

Lemma ptr_dequeue_node_spec m q :
  inv m q -> 0 < current_size q ->
  exists a n q',
    Ptr._PQ_dequeue m q = Done (a, q') /\
    load (heap q) 0 = Done a /\
    m !! a = Some n /\
    inv m q' /\
    owned q ≡ₚ a :: owned q' /\
    current_size q' = current_size q - 1 /\
    capacity q' = capacity q.
Proof.
  intros Hinv Hpos. pose proof (owned_cells m q Hinv) as Hcells'.
  destruct Hinv as [Hs Ha Hcells Hnd].
  set (c := current_size q) in *.
  destruct (allocated_node m _ _ 0 Hcells ltac:(lia)) as (a & n & Hla & Hn & _).
  destruct (allocated_node m _ _ (c - 1) Hcells ltac:(lia))
    as (al & nl & Hll & Hnl & _).
  set (h1 := <[Z.to_nat 0:=Some al]> (heap q)).
  assert (Hld : forall i, 0 < i -> load h1 i = load (heap q) i)
    by (intros i Hi; apply load_insert_ne; lia).
  assert (Hl0 : load h1 0 = Done al) by (apply load_insert_eq; lia).
  assert (Hall1 : allocated m h1 (c - 1 + 1)).
  { intros i Hi. destruct (decide (i = 0)) as [->|]; [eauto|].
    rewrite Hld by lia. apply Hcells. lia. }
  set (q1 := Ptr.set_current_size (Ptr.set_heap q h1) (c - 1)).
  destruct (ptr_shift_down_spec m (S (Z.to_nat (c - 1 - 0))) 0 q1 (c - 1))
    as (h' & E & Hall' & Hlen' & Hperm); try done; try lia.
  { simpl. destruct (decide (c - 1 = 0)) as [->|]; [done|].
    unfold pri. rewrite Hl0, Hld, Hll by lia. done. }
  exists a, n, (Ptr.set_heap q1 h').
  assert (Hown : owned q ≡ₚ a :: owned (Ptr.set_heap q1 h')).
  { unfold owned. simpl. fold c. rewrite Hperm. simpl.
    replace (Z.to_nat c) with (S (Z.to_nat (c - 1))) by lia.
    apply omap_after_move.
    - by apply load_Done in Hla as [_ ?].
    - by apply load_Done in Hll as [_ ?]. }
  split.
  { unfold Ptr._PQ_dequeue. rewrite Hla. simpl. fold c. rewrite Hll. simpl.
    rewrite put_ok by lia. simpl. fold c. fold h1. fold q1.
    unfold Ptr._shift_down. simpl Ptr.current_size.
    by rewrite E. }
  split; [done|]. split; [done|]. split; [|done].
  split; simpl.
  - lia.
  - rewrite Hlen'. simpl. unfold h1. rewrite length_insert. lia.
  - intros i Hi. apply Hall'. lia.
  - fold c in Hown. rewrite Hown in Hnd. by apply NoDup_cons in Hnd as [_ ?].
Qed.

Lemma inv_delete m q a :
  inv m q -> a ∉ owned q -> inv (delete a m) q.
Proof.
  intros [Hs Ha Hcells Hnd] Hnot. split; try done.
  intros i Hi. destruct (Hcells i Hi) as (b & Hb & Hsome).
  exists b. split; [done|].
  rewrite lookup_delete_ne; [done|].
  intros ->. apply Hnot. apply owned_elem. eauto.
Qed.

Lemma ptr_dequeue_spec m q :
  inv m q -> 0 < current_size q ->
  exists a n q',
    Ptr._PQ_dequeue m q = Done (a, q') /\
    Ptr.PQ_dequeue m q = Done (data n, delete a m, q') /\
    m !! a = Some n /\
    (a ∉ owned q') /\
    inv m q' /\ inv (delete a m) q' /\
    owned q ≡ₚ a :: owned q' /\
    current_size q' = current_size q - 1.
Proof.
  intros Hinv Hpos.
  destruct (ptr_dequeue_node_spec m q Hinv Hpos)
    as (a & n & q' & E & _ & Hn & Hinv' & Hown & Hc & _).
  assert (Hnot : a ∉ owned q').
  { pose proof (inv_distinct m q Hinv) as Hnd. rewrite Hown in Hnd.
    by apply NoDup_cons in Hnd as [? _]. }
  exists a, n, q'. split; [done|]. split.
  { unfold Ptr.PQ_dequeue. rewrite E. simpl. unfold deref, free.
    rewrite Hn. done. }
  split; [done|]. split; [done|]. split; [done|].
  split; [by apply inv_delete|]. done.
Qed.

(** ** [PQ_destroy_heap_nodes] *)

Lemma destroy_loop_spec h addrs : forall (i : nat) m,
  take (length addrs) (drop i h) = Some <$> addrs ->
  NoDup addrs -> (forall a, a ∈ addrs -> is_Some (m !! a)) ->
  exists m', destroy_loop m h (length addrs) (Z.of_nat i) = Done m' /\
             forall a, m' !! a = if decide (a ∈ addrs) then None else m !! a.
Proof.
  induction addrs as [|a addrs IH]; intros i m Hcells Hnd Halloc.
  - exists m. split; [done|]. intros a. by rewrite decide_False by set_solver.
  - apply NoDup_cons in Hnd as [Hnot Hnd].
    assert (Hi : h !! i = Some (Some a)).
    { rewrite <- (Nat.add_0_r i), <- lookup_drop.
      rewrite <- (lookup_take_lt _ (length (a :: addrs))) by (simpl; lia).
      by rewrite Hcells. }
    destruct (Halloc a ltac:(by left)) as [n Hn].
    simpl. unfold load. destruct (Z.ltb_spec (Z.of_nat i) 0); [lia|].
    rewrite Nat2Z.id, Hi. simpl. unfold free. rewrite Hn. simpl.
    replace (Z.of_nat i + 1) with (Z.of_nat (S i)) by lia.
    destruct (IH (S i) (delete a m)) as (m' & E & Hm'); [|done| |].
    + simpl in Hcells.
      rewrite <- (Nat.add_1_r i), <- drop_drop.
      destruct (drop i h) as [|c t]; [done|]. simpl in *. by simplify_eq.
    + intros b Hb. rewrite lookup_delete_ne by (intros ->; done).
      apply Halloc. by right.
    + exists m'. split; [done|]. intros b. rewrite Hm'.
      destruct (decide (b = a)) as [->|Hne].
      * rewrite (decide_False (P := a ∈ addrs)) by done.
        rewrite (decide_True (P := a ∈ a :: addrs)) by (by left).
        by rewrite lookup_delete_eq.
      * rewrite lookup_delete_ne by done.
        destruct (decide (b ∈ addrs)) as [Hb|Hb].
        -- by rewrite decide_True by (by right).
        -- rewrite decide_False; [done|].
           by intros [->|?]%elem_of_cons.
Qed.

Lemma ptr_destroy_spec m q :
  inv m q ->
  exists m', Ptr.PQ_destroy m q = Done m' /\
             forall a, m' !! a = if decide (a ∈ owned q) then None else m !! a.
Proof.
  intros Hinv. unfold Ptr.PQ_destroy, Ptr.PQ_destroy_heap_nodes.
  pose proof (owned_cells m q Hinv) as Hcells.
  assert (Hlen : length (owned q) = Z.to_nat (current_size q)).
  { apply (f_equal length) in Hcells. rewrite length_fmap, length_take in Hcells.
    destruct (inv_size m q Hinv). pose proof (inv_alloc m q Hinv). lia. }
  rewrite <- Hlen.
  apply (destroy_loop_spec (heap q) (owned q) 0%nat m).
  - rewrite drop_0, Hlen. done.
  - by apply (inv_distinct m q).
  - intros a. by apply owned_allocated.
Qed.

(** ** The store is the initial store plus the owned nodes *)

Lemma accounted_create m0 : accounted m0 m0 PQ_create.
Proof.
  split; [apply inv_create | |done].
  intros a Ha. by apply elem_of_nil in Ha.
Qed.

Lemma accounted_enqueue m0 m q d p m' q' :
  accounted m0 m q -> Ptr.PQ_enqueue m q d p = Done (m', q') ->
  accounted m0 m' q'.
Proof.
  intros [Hinv Hnew Hrest] E.
  destruct (ptr_enqueue_spec m q d p Hinv) as (q1 & E1 & Hinv1 & Hown & _).
  rewrite E1 in E. simplify_eq.
  pose proof (malloc_fresh m) as Hfresh.
  split; [done| |].
  - intros a Ha. rewrite Hown in Ha. apply elem_of_cons in Ha as [->|Ha].
    + rewrite <- Hrest; [done|]. intros Hin.
      apply (owned_allocated m q _ Hinv) in Hin as [n Hn]. congruence.
    + by apply Hnew.
  - intros a Ha. rewrite Hown in Ha. apply not_elem_of_cons in Ha as [Hne Ha].
    rewrite lookup_insert_ne by done. by apply Hrest.
Qed.

Lemma accounted_dequeue m0 m q d m' q' :
  accounted m0 m q -> 0 < current_size q ->
  Ptr.PQ_dequeue m q = Done (d, m', q') -> accounted m0 m' q'.
Proof.
  intros [Hinv Hnew Hrest] Hpos E.
  destruct (ptr_dequeue_spec m q Hinv Hpos)
    as (a & n & q1 & _ & E1 & Hn & Hnot & _ & Hinv1 & Hown & _).
  rewrite E1 in E. simplify_eq.
  split; [done| |].
  - intros b Hb. apply Hnew. rewrite Hown. by right.
  - intros b Hb. destruct (decide (b = a)) as [->|Hne].
    + rewrite lookup_delete_eq. symmetry. apply Hnew. rewrite Hown. by left.
    + rewrite lookup_delete_ne by done. apply Hrest.
      rewrite Hown. by apply not_elem_of_cons.
Qed.

Lemma accounted_heapify_loop m0 arr todo : forall i m pq m' q',
  accounted m0 m pq ->
  Ptr.heapify_loop m arr todo i pq = Done (m', q') -> accounted m0 m' q'.
Proof.
  induction todo as [|todo IH]; intros i m pq m' q' Hacc E; simpl in E.
  - by simplify_eq.
  - destruct (load arr i) as [a| |]; simpl in E; try done.
    destruct (deref m a) as [n| |]; simpl in E; try done.
    destruct (Ptr.PQ_enqueue m pq (data n) (priority n)) as [[m1 pq1]| |] eqn:E1;
      simpl in E; try done.
    eapply IH; [|exact E]. by eapply accounted_enqueue.
Qed.

Lemma reachable_accounted m0 m q : Ptr.reachable m0 m q -> accounted m0 m q.
Proof.
  induction 1 as [|arr size m q Hsize E|m q d p m' q' _ IH E|m q d m' q' _ IH Hpos E].
  - apply accounted_create.
  - unfold Ptr.PQ_heapify in E. eapply accounted_heapify_loop; [|exact E].
    split; [split; simpl| |done].
    + lia.
    + rewrite length_replicate. lia.
    + intros i Hi. lia.
    + constructor.
    + intros a Ha. by apply elem_of_nil in Ha.
  - by eapply accounted_enqueue.
  - by eapply accounted_dequeue.
Qed.

Lemma two_reachable : Ptr.reachable foreign_store two_store two_queue.
Proof.
  apply (Ptr.reach_enqueue foreign_store one_state.1 one_state.2 1 3).
  - apply (Ptr.reach_enqueue foreign_store foreign_store PQ_create 0 5).
    + apply Ptr.reach_create.
    + vm_compute. reflexivity.
  - vm_compute. reflexivity.
Qed.

(** ** Memory properties of the library *)

(** X18. Whatever was inserted and removed since the queue was created,
    [PQ_destroy] succeeds, frees every node the queue still holds exactly
    once, and leaves the allocated nodes exactly as they were when the
    queue was created. *)
Theorem destroy_restores_store m0 m q :
  Ptr.reachable m0 m q -> Ptr.PQ_destroy m q = Done m0.
Proof.
  intros Hr. destruct (reachable_accounted m0 m q Hr) as [Hinv Hnew Hrest].
  destruct (ptr_destroy_spec m q Hinv) as (m' & E & Hm').
  rewrite E. f_equal. apply map_eq. intros a. rewrite Hm'.
  destruct (decide (a ∈ owned q)) as [Hin|Hout].
  - symmetry. by apply Hnew.
  - by apply Hrest.
Qed.

Lemma destroy_restores_store_witness :
  Ptr.PQ_destroy two_store two_queue = Done foreign_store.
Proof. apply (destroy_restores_store foreign_store), two_reachable. Defined.

(** X19. In every state of a queue, the live cells hold pairwise distinct
    addresses of allocated nodes, as many as [current_size]; none of them
    was allocated when the queue was created, and every node outside the
    live cells is as it was then. *)
Theorem queue_owns_its_nodes m0 m q :
  Ptr.reachable m0 m q ->
  NoDup (owned q) /\
  Z.of_nat (length (owned q)) = current_size q /\
  (forall a, a ∈ owned q -> is_Some (m !! a) /\ m0 !! a = None) /\
  (forall a, a ∉ owned q -> m !! a = m0 !! a).
Proof.
  intros Hr. destruct (reachable_accounted m0 m q Hr) as [Hinv Hnew Hrest].
  split; [by apply (inv_distinct m q)|]. split.
  { pose proof (owned_cells m q Hinv) as Hcells.
    apply (f_equal length) in Hcells.
    rewrite length_fmap, length_take in Hcells.
    destruct (inv_size m q Hinv). pose proof (inv_alloc m q Hinv). lia. }
  split; [|done].
  intros a Ha. split; [by apply (owned_allocated m q)|by apply Hnew].
Qed.

Lemma queue_owns_its_nodes_witness :
  NoDup (owned two_queue) /\
  Z.of_nat (length (owned two_queue)) = current_size two_queue /\
  (forall a, a ∈ owned two_queue ->
     is_Some (two_store !! a) /\ foreign_store !! a = None) /\
  (forall a, a ∉ owned two_queue -> two_store !! a = foreign_store !! a).
Proof. apply (queue_owns_its_nodes foreign_store), two_reachable. Defined.

(** X20. [PQ_enqueue] on a queue in any of its states succeeds; it allocates
    exactly one node, at an address that was not in use, holding the given
    data and priority, changes no other node, and the queue then owns that
    address besides the ones it owned. *)
Theorem enqueue_allocates_one m0 m q d p :
  Ptr.reachable m0 m q ->
  exists a q',
    Ptr.PQ_enqueue m q d p = Done (<[a := nd d p]> m, q') /\
    m !! a = None /\
    owned q' ≡ₚ a :: owned q /\
    Ptr.reachable m0 (<[a := nd d p]> m) q'.
Proof.
  intros Hr. destruct (reachable_accounted m0 m q Hr) as [Hinv _ _].
  destruct (ptr_enqueue_spec m q d p Hinv) as (q' & E & _ & Hown & _).
  exists (malloc m), q'. split; [done|]. split; [apply malloc_fresh|].
  split; [done|]. by eapply Ptr.reach_enqueue.
Qed.

Lemma enqueue_allocates_one_witness :
  exists a q',
    Ptr.PQ_enqueue two_store two_queue 4 1 = Done (<[a := nd 4 1]> two_store, q') /\
    two_store !! a = None /\
    owned q' ≡ₚ a :: owned two_queue /\
    Ptr.reachable foreign_store (<[a := nd 4 1]> two_store) q'.
Proof. apply (enqueue_allocates_one foreign_store), two_reachable. Defined.

(** X21. [PQ_dequeue] on a non-empty queue succeeds, returns the data of the
    node that was in cell 0, frees that node and no other, and the queue
    no longer holds its address in a live cell. *)
Theorem dequeue_frees_removed_node m0 m q :
  Ptr.reachable m0 m q -> 0 < current_size q ->
  exists a n q',
    load (heap q) 0 = Done a /\ m !! a = Some n /\
    Ptr.PQ_dequeue m q = Done (data n, delete a m, q') /\
    (a ∉ owned q') /\
    owned q ≡ₚ a :: owned q' /\
    Ptr.reachable m0 (delete a m) q'.
Proof.
  intros Hr Hpos. destruct (reachable_accounted m0 m q Hr) as [Hinv _ _].
  destruct (ptr_dequeue_spec m q Hinv Hpos)
    as (a & n & q' & E & E' & Hn & Hnot & _ & _ & Hown & _).
  exists a, n, q'. split.
  { unfold Ptr._PQ_dequeue in E.
    destruct (load (heap q) 0) as [a0| |]; simpl in E; try done.
    destruct (load (heap q) (current_size q - 1)) as [l| |]; simpl in E; try done.
    destruct (put (heap q) 0 l) as [h1| |]; simpl in E; try done.
    destruct (Ptr._shift_down m 0 _) as [q1| |]; simpl in E; try done.
    by simplify_eq. }
  split; [done|]. split; [done|]. split; [done|]. split; [done|].
  by eapply Ptr.reach_dequeue.
Qed.

Lemma dequeue_frees_removed_node_witness :
  exists a n q',
    load (heap two_queue) 0 = Done a /\ two_store !! a = Some n /\
    Ptr.PQ_dequeue two_store two_queue = Done (data n, delete a two_store, q') /\
    (a ∉ owned q') /\
    owned two_queue ≡ₚ a :: owned q' /\
    Ptr.reachable foreign_store (delete a two_store) q'.
Proof.
  apply (dequeue_frees_removed_node foreign_store); [apply two_reachable|].
  vm_compute. reflexivity.
Defined.

(** X22. [_PQ_dequeue] hands the removed node to the caller: the node stays
    allocated, and destroying the queue afterwards frees every node made
    since the queue was created except that one. *)
Theorem dequeue_node_left_to_caller m0 m q :
  Ptr.reachable m0 m q -> 0 < current_size q ->
  exists a n q',
    Ptr._PQ_dequeue m q = Done (a, q') /\ m !! a = Some n /\
    m0 !! a = None /\
    Ptr.PQ_destroy m q' = Done (<[a := n]> m0).
Proof.
  intros Hr Hpos. destruct (reachable_accounted m0 m q Hr) as [Hinv Hnew Hrest].
  destruct (ptr_dequeue_spec m q Hinv Hpos)
    as (a & n & q' & E & _ & Hn & Hnot & Hinv' & _ & Hown & _).
  exists a, n, q'. split; [done|]. split; [done|].
  assert (Ha0 : m0 !! a = None).
  { apply Hnew. rewrite Hown. by left. }
  split; [done|].
  destruct (ptr_destroy_spec m q' Hinv') as (m' & Ed & Hm').
  rewrite Ed. f_equal. apply map_eq. intros b. rewrite Hm'.
  destruct (decide (b = a)) as [->|Hne].
  - rewrite lookup_insert_eq. by rewrite decide_False.
  - rewrite lookup_insert_ne by done.
    destruct (decide (b ∈ owned q')) as [Hin|Hout].
    + symmetry. apply Hnew. rewrite Hown. by right.
    + apply Hrest. rewrite Hown. by apply not_elem_of_cons.
Qed.

Lemma dequeue_node_left_to_caller_witness :
  exists a n q',
    Ptr._PQ_dequeue two_store two_queue = Done (a, q') /\
    two_store !! a = Some n /\
    foreign_store !! a = None /\
    Ptr.PQ_destroy two_store q' = Done (<[a := n]> foreign_store).
Proof.
  apply (dequeue_node_left_to_caller foreign_store); [apply two_reachable|].
  vm_compute. reflexivity.
Defined.

(** X23. [_node_copy] of an allocated node succeeds and returns a node at an
    address that was not in use, hence different from the original, with
    the same data and priority; the original is unchanged, and freeing the
    copy gives back the store as it was. *)
Theorem node_copy_spec m a n :
  deref m a = Done n ->
  exists c,
    Ptr._node_copy m a = Done (c, <[c := n]> m) /\
    m !! c = None /\ c <> a /\
    deref (<[c := n]> m) c = Done n /\
    deref (<[c := n]> m) a = Done n /\
    free (<[c := n]> m) c = Done m.
Proof.
  intros Hd. pose proof (malloc_fresh m) as Hfresh.
  assert (Ha : m !! a = Some n).
  { unfold deref in Hd. by destruct (m !! a); simplify_eq. }
  assert (Hne : malloc m <> a) by congruence.
  exists (malloc m). split.
  { unfold Ptr._node_copy. rewrite Hd. simpl. by destruct n. }
  split; [done|]. split; [done|]. unfold deref, free.
  rewrite lookup_insert_eq, lookup_insert_ne, Ha by done.
  split; [done|]. split; [done|].
  f_equal. rewrite delete_insert_eq. by apply delete_id.
Qed.

Lemma node_copy_spec_witness :
  exists c,
    Ptr._node_copy foreign_store 7%positive = Done (c, <[c := nd 9 9]> foreign_store) /\
    foreign_store !! c = None /\ c <> 7%positive /\
    deref (<[c := nd 9 9]> foreign_store) c = Done (nd 9 9) /\
    deref (<[c := nd 9 9]> foreign_store) 7%positive = Done (nd 9 9) /\
    free (<[c := nd 9 9]> foreign_store) c = Done foreign_store.
Proof.
  apply (node_copy_spec foreign_store 7%positive). vm_compute. reflexivity.
Defined.

End PtrFacts.


(** ** The random queues and the tests built on them *)

Lemma random_nodes_loop_length rand todo : forall k i,
  length (random_nodes_loop rand todo k i) = todo.
Proof. induction todo as [|todo IH]; intros k i; simpl; [done|by rewrite IH]. Qed.

Lemma random_nodes_loop_lookup rand todo : forall k i (j : nat) n,
  random_nodes_loop rand todo k i !! j = Some n ->
  priority n = i + Z.of_nat j /\
  data n = Z.rem (rand (k + j)%nat) RANDOM_NUM_SIZE.
Proof.
  induction todo as [|todo IH]; intros k i j n Hn; simpl in Hn; [done|].
  destruct j as [|j]; simpl in Hn.
  - simplify_eq. simpl. rewrite Nat.add_0_r. split; [lia|done].
  - apply IH in Hn as [Hp Hd]. rewrite Hp, Hd.
    split; [lia|]. do 2 f_equal. lia.
Qed.

Lemma random_nodes_loop_sorted rand todo : forall k i,
  StronglySorted prio_lt (random_nodes_loop rand todo k i).
Proof.
  induction todo as [|todo IH]; intros k i; simpl; constructor; [apply IH|].
  apply Forall_forall. intros n Hn.
  apply list_elem_of_lookup in Hn as [j Hj].
  apply random_nodes_loop_lookup in Hj as [Hp _].
  unfold prio_lt. simpl. lia.
Qed.

Lemma rd_fmap_Some (l : list PQ_Node) (j : nat) n :
  l !! j = Some n -> rd (Some <$> l) (Z.of_nat j) = Done n.
Proof.
  intros Hj. apply rd_Done. split; [lia|].
  by rewrite Nat2Z.id, list_lookup_fmap, Hj.
Qed.

Lemma assigned_fmap_Some (h : list slot) :
  assigned h (Z.of_nat (length h)) -> h = Some <$> omap id h.
Proof.
  intros Hasg. apply PtrFacts.all_Some_omap. intros c Hc.
  apply list_elem_of_lookup in Hc as [j Hj].
  destruct (Hasg (Z.of_nat j)) as [n Hn].
  { apply lookup_lt_Some in Hj. lia. }
  apply rd_Done in Hn as [_ Hn]. rewrite Nat2Z.id in Hn. by simplify_eq.
Qed.

Lemma enqueue_cells_loop_enqueue_all l todo : forall (i : nat) pq,
  (i + todo <= length l)%nat ->
  enqueue_cells_loop (Some <$> l) todo (Z.of_nat i) pq =
  enqueue_all (take todo (drop i l)) pq.
Proof.
  induction todo as [|todo IH]; intros i pq Hlen; [done|].
  destruct (drop i l) as [|n rest] eqn:E.
  { apply (f_equal length) in E. rewrite length_drop in E. simpl in E. lia. }
  assert (Hn : l !! i = Some n).
  { rewrite <- (Nat.add_0_r i), <- lookup_drop, E. done. }
  simpl. rewrite (rd_fmap_Some _ _ _ Hn). simpl.
  destruct (PQ_enqueue pq (data n) (priority n)) as [pq'| |]; simpl; try done.
  replace (Z.of_nat i + 1) with (Z.of_nat (S i)) by lia.
  rewrite IH by lia.
  assert (drop (S i) l = rest) as ->; [|done].
  by rewrite <- Nat.add_1_r, <- drop_drop, E.
Qed.

(** What [_random_n_pq] returns, and what removing all the nodes then
    gives. *)
Lemma random_n_pq_run rand size :
  (forall c, 0 <= rand c) -> 0 <= size ->
  exists s l q q',
    _random_n_pq rand size = Done (Some <$> s, Some <$> l, q) /\
    s = random_nodes_loop rand (Z.to_nat size) 0 0 /\
    l ≡ₚ s /\
    reachable q /\ current_size q = size /\ live q ≡ₚ s /\
    dequeue_nodes (Z.to_nat size) q = Done (s, q') /\
    current_size q' = 0.
Proof.
  intros Hrand Hsize. unfold _random_n_pq.
  set (s := random_nodes_loop rand (Z.to_nat size) 0 0).
  assert (Hlen : length s = Z.to_nat size) by apply random_nodes_loop_length.
  assert (Hsorted : StronglySorted prio_lt s) by apply random_nodes_loop_sorted.
  assert (Hasg : assigned (Some <$> s) size).
  { intros i Hi. destruct (lookup_lt_is_Some_2 s (Z.to_nat i)) as [n Hn]; [lia|].
    exists n. rewrite <- (Z2Nat.id i) by lia. by apply rd_fmap_Some. }
  assert (exists arr', _random_shuffle (fun k => rand (Z.to_nat size + k)%nat)
                         (Some <$> s) size = Done arr' /\
                       assigned arr' size /\ length arr' = Z.to_nat size /\
                       arr' ≡ₚ Some <$> s) as (arr' & E & Hasg' & Hlen' & Hperm).
  { unfold _random_shuffle. destruct (Z_lt_le_dec size 1) as [Hsmall|Hbig].
    - replace (Z.to_nat (size - 1)) with 0%nat by lia. exists (Some <$> s).
      split; [done|]. split; [done|]. by rewrite length_fmap.
    - destruct (random_shuffle_loop_spec (fun k => rand (Z.to_nat size + k)%nat)
                  size (Z.to_nat (size - 1)) 0%nat (Some <$> s))
        as (arr' & E & Hasg' & Hl & Hperm & _); [by intros c|lia|done|].
      rewrite Z2Nat.id in E by lia. rewrite length_fmap in Hl.
      exists arr'. split; [done|]. split; [done|]. split; [lia|].
      rewrite !take_ge in Hperm by (rewrite ?length_fmap; lia). done. }
  rewrite E. simpl.
  assert (Harr : arr' = Some <$> omap id arr').
  { apply assigned_fmap_Some. by replace (Z.of_nat (length arr')) with size by lia. }
  set (l := omap id arr') in *.
  assert (Hl : l ≡ₚ s).
  { unfold l. rewrite Hperm. clear. induction s as [|n s IH]; [done|].
    simpl. by rewrite IH. }
  assert (Hlenl : length l = Z.to_nat size) by (by rewrite Hl).
  assert (Hloop : enqueue_cells_loop arr' (Z.to_nat size) 0 PQ_create
                  = enqueue_all l PQ_create).
  { rewrite Harr.
    rewrite (enqueue_cells_loop_enqueue_all l (Z.to_nat size) 0) by lia.
    by rewrite drop_0, take_ge by lia. }
  rewrite Hloop.
  destruct (enqueue_all_spec l PQ_create wf_create)
    as (q & Eq & Hwf & Hc & _ & _ & Hlive).
  rewrite (live_empty PQ_create), app_nil_r in Hlive by done.
  assert (Hcq : current_size q = size).
  { rewrite Hc, Hlenl. simpl. lia. }
  destruct (dequeue_nodes_spec (Z.to_nat size) q Hwf)
    as (out & q' & E' & _ & Hc' & _ & Hlive' & Hout & _); [lia|].
  assert (Hq' : current_size q' = 0) by lia.
  rewrite (live_empty q'), app_nil_r in Hlive' by done.
  assert (out = s) as ->.
  { apply sorted_nodes_unique; [by apply prio_lt_NoDup|done|by apply prio_lt_le|].
    by rewrite <- Hlive', Hlive. }
  exists s, l, q, q'. rewrite Eq, <- Harr.
  split; [done|]. split; [done|]. split; [done|].
  split; [by eapply enqueue_all_reachable; [apply reach_create|]|].
  split; [done|]. split; [by rewrite Hlive|]. done.
Qed.

Lemma high_level_dequeue_loop_ok ordered out : forall i q q',
  dequeue_nodes (length out) q = Done (out, q') ->
  (forall (j : nat) x, out !! j = Some x ->
                       rd ordered (i + Z.of_nat j) = Done x) ->
  high_level_dequeue_loop ordered (length out) i q = Done true.
Proof.
  induction out as [|x out IH]; intros i q q' E Hrd; [done|].
  simpl in E.
  destruct (_PQ_dequeue q) as [[n q1]| |] eqn:E1; simpl in E; try done.
  destruct (dequeue_nodes (length out) q1) as [[ns q2]| |] eqn:E2;
    simpl in E; try done.
  simplify_eq. simpl.
  pose proof (Hrd 0%nat x eq_refl) as H0. rewrite Z.add_0_r in H0.
  rewrite H0. simpl. unfold PQ_dequeue. rewrite E1. simpl.
  rewrite (IH (i + 1) q1 q' E2); [simpl; by rewrite Z.eqb_refl|].
  intros j y Hj. replace (i + 1 + Z.of_nat j) with (i + Z.of_nat (S j)) by lia.
  by apply Hrd.
Qed.

Lemma test_peek_loop_ok ordered out : forall i q q',
  dequeue_nodes (length out) q = Done (out, q') ->
  (forall (j : nat) x, out !! j = Some x ->
                       rd ordered (i + Z.of_nat j) = Done x) ->
  test_peek_loop ordered (length out) i q = Done true.
Proof.
  induction out as [|x out IH]; intros i q q' E Hrd; [done|].
  simpl in E.
  destruct (_PQ_dequeue q) as [[n q1]| |] eqn:E1; simpl in E; try done.
  destruct (dequeue_nodes (length out) q1) as [[ns q2]| |] eqn:E2;
    simpl in E; try done.
  simplify_eq.
  assert (Hroot : rd (heap q) 0 = Done x).
  { unfold _PQ_dequeue in E1.
    destruct (rd (heap q) 0) as [r| |]; simpl in E1; try done.
    destruct (rd (heap q) (current_size q - 1)) as [la| |]; simpl in E1; try done.
    destruct (wr (heap q) 0 la) as [h1| |]; simpl in E1; try done.
    destruct (_shift_down 0 _) as [q3| |]; simpl in E1; try done.
    by simplify_eq. }
  pose proof (Hrd 0%nat x eq_refl) as H0. rewrite Z.add_0_r in H0.
  simpl. unfold PQ_peek. rewrite Hroot. simpl. rewrite H0. simpl.
  rewrite E1. simpl.
  rewrite (IH (i + 1) q1 q' E2).
  - simpl. by rewrite Z.eqb_refl, compare_single_nodes_eq.
  - intros j y Hj.
    replace (i + 1 + Z.of_nat j) with (i + Z.of_nat (S j)) by lia.
    by apply Hrd.
Qed.

(** X24.  Whatever values [rand()] returns (they are never negative),
    [_random_n_pq] succeeds for every [size >= 0]: the ordered array holds
    [size] nodes, the one at index [i] with priority [i]; the shuffled array
    holds the same nodes; and the queue, a reachable one, holds exactly
    these nodes. *)
Theorem random_n_pq_spec rand size :
  (forall c, 0 <= rand c) -> 0 <= size ->
  exists s l q,
    _random_n_pq rand size = Done (Some <$> s, Some <$> l, q) /\
    length s = Z.to_nat size /\
    (forall (i : nat) n, s !! i = Some n -> priority n = Z.of_nat i) /\
    l ≡ₚ s /\ reachable q /\ current_size q = size /\ live q ≡ₚ s.
Proof.
  intros Hrand Hsize.
  destruct (random_n_pq_run rand size Hrand Hsize)
    as (s & l & q & q' & E & Hs & Hl & Hr & Hc & Hlive & _).
  exists s, l, q. split; [done|].
  split; [rewrite Hs; apply random_nodes_loop_length|].
  split; [|done].
  intros i n Hn. rewrite Hs in Hn.
  apply random_nodes_loop_lookup in Hn as [Hp _]. lia.
Qed.

Lemma random_n_pq_spec_witness :
  exists s l q,
    _random_n_pq (fun k => Z.of_nat k + 5) 4 = Done (Some <$> s, Some <$> l, q) /\
    length s = Z.to_nat 4 /\
    (forall (i : nat) n, s !! i = Some n -> priority n = Z.of_nat i) /\
    l ≡ₚ s /\ reachable q /\ current_size q = 4 /\ live q ≡ₚ s.
Proof.
  apply (random_n_pq_spec (fun k => Z.of_nat k + 5) 4); [intros c|]; lia.
Defined.

(** X25.  Whatever values [rand()] returns, every assertion of
    [test_high_level_dequeue], of [test_peek] and of
    [test_enqueue_dequeue_extensive] holds, and none of their calls is
    undefined: the nodes leave the queue in the order of the ordered
    array. *)
Theorem random_queue_tests_pass rand :
  (forall c, 0 <= rand c) ->
  test_high_level_dequeue rand = Done true /\
  test_peek rand = Done true /\
  test_enqueue_dequeue_extensive rand = Done true.
Proof.
  intros Hrand.
  destruct (random_n_pq_run rand 10 Hrand ltac:(lia))
    as (s & l & q & q' & E & Hs & _ & _ & _ & _ & Ed & _).
  assert (Hlen : length s = 10%nat).
  { rewrite Hs. apply random_nodes_loop_length. }
  assert (Hrd : forall (j : nat) x, s !! j = Some x ->
                  rd (Some <$> s) (0 + Z.of_nat j) = Done x).
  { intros j x Hj. by apply rd_fmap_Some. }
  change (Z.to_nat 10) with 10%nat in Ed. rewrite <- Hlen in Ed.
  split; [|split].
  - unfold test_high_level_dequeue. cbv zeta. rewrite E. cbn [bind].
    change (Z.to_nat 10) with 10%nat. rewrite <- Hlen.
    by eapply high_level_dequeue_loop_ok.
  - unfold test_peek. cbv zeta. rewrite E. cbn [bind].
    change (Z.to_nat 10) with 10%nat. rewrite <- Hlen.
    by eapply test_peek_loop_ok.
  - unfold test_enqueue_dequeue_extensive, _random_pq.
    change PQ_INITIAL_SIZE with 10. rewrite E. cbn [bind].
    change (Z.to_nat 10) with 10%nat. rewrite <- Hlen, Ed. cbn [bind].
    assert (Hcmp : _compare_nodes (Some <$> s) (Some <$> s) 10 = Done 1).
    { unfold _compare_nodes. apply compare_nodes_loop_spec.
      intros j Hj. destruct (lookup_lt_is_Some_2 s (Z.to_nat j)) as [x Hx]; [lia|].
      exists x. rewrite <- (Z2Nat.id j) by lia.
      split; by apply rd_fmap_Some. }
    rewrite Hcmp. done.
Qed.

Lemma random_queue_tests_pass_witness :
  test_high_level_dequeue (fun k => Z.of_nat k + 5) = Done true /\
  test_peek (fun k => Z.of_nat k + 5) = Done true /\
  test_enqueue_dequeue_extensive (fun k => Z.of_nat k + 5) = Done true.
Proof. apply (random_queue_tests_pass (fun k => Z.of_nat k + 5)). intros c. lia. Defined.

(** ** Memory use of the test program *)

Module PtrTestFacts.
Import Ptr PtrFacts.

Lemma inv_frame m m' q :
  inv m q -> (forall a, a ∈ owned q -> m' !! a = m !! a) -> inv m' q.
Proof.
  intros [Hs Ha Hcells Hnd] Hsame. split; try done.
  intros i Hi. destruct (Hcells i Hi) as (b & Hb & Hsome).
  exists b. split; [done|]. rewrite Hsame; [done|].
  apply owned_elem. eauto.
Qed.

(** X26.  [_destroy_random_pq] frees the queue's nodes and the first
    [current_size] nodes of the test's array, and nothing else: when the
    queue still holds all the nodes everything is freed, and when the test
    has emptied the queue none of the test's own nodes is freed.  Here
    [tn] are the addresses in the test's array, allocated before the first
    [PQ_enqueue]. *)
Theorem destroy_random_pq_spec m0 m q nodes_ordered tn :
  Ptr.reachable m0 m q ->
  nodes_ordered = Some <$> tn -> NoDup tn ->
  (forall a, a ∈ tn -> is_Some (m0 !! a)) ->
  current_size q <= Z.of_nat (length tn) ->
  exists m',
    Ptr._destroy_random_pq m nodes_ordered q = Done m' /\
    forall a, m' !! a =
              if decide (a ∈ take (Z.to_nat (current_size q)) tn)
              then None else m0 !! a.
Proof.
  intros Hr -> Hnd Htn Hsz.
  destruct (reachable_accounted m0 m q Hr) as [Hinv Hnew Hrest].
  pose proof (inv_size m q Hinv) as [Hc0 _].
  set (k := Z.to_nat (current_size q)).
  assert (Hlen : length (take k tn) = k) by (rewrite length_take; lia).
  assert (Hforeign : forall a, a ∈ tn -> a ∉ owned q).
  { intros a Ha Hin. apply Hnew in Hin. destruct (Htn a Ha). congruence. }
  unfold Ptr._destroy_random_pq, Ptr.PQ_destroy_heap_nodes.
  fold k.
  destruct (destroy_loop_spec (Some <$> tn) (take k tn) 0%nat m)
    as (m1 & E1 & Hm1).
  { rewrite drop_0, Hlen, fmap_take. done. }
  { eapply sublist_NoDup; [exact Hnd|apply sublist_take]. }
  { intros a Ha. apply elem_of_take in Ha as (j & Hj & _).
    apply list_elem_of_lookup_2 in Hj.
    rewrite Hrest by (by apply Hforeign). by apply Htn. }
  rewrite Hlen in E1. change (Z.of_nat 0) with 0 in E1. rewrite E1. simpl.
  assert (Hinv1 : inv m1 q).
  { apply (inv_frame m); [done|]. intros a Ha. rewrite Hm1.
    rewrite decide_False; [done|]. intros Hin.
    apply elem_of_take in Hin as (j & Hj & _).
    apply list_elem_of_lookup_2 in Hj. by apply (Hforeign a). }
  destruct (ptr_destroy_spec m1 q Hinv1) as (m2 & E2 & Hm2).
  exists m2. split; [done|]. intros a. rewrite Hm2, Hm1.
  destruct (decide (a ∈ owned q)) as [Hin|Hout].
  - rewrite decide_False; [symmetry; by apply Hnew|].
    intros Hin'. apply elem_of_take in Hin' as (j & Hj & _).
    apply list_elem_of_lookup_2 in Hj. by apply (Hforeign a).
  - destruct (decide (a ∈ take k tn)) as [Hin|Hout']; [done|by apply Hrest].
Qed.

Lemma destroy_random_pq_spec_witness :
  exists m',
    Ptr._destroy_random_pq one_state.1 [Some 7%positive] one_state.2 = Done m' /\
    forall a, m' !! a =
              if decide (a ∈ take (Z.to_nat (current_size one_state.2)) [7%positive])
              then None else foreign_store !! a.
Proof.
  apply (destroy_random_pq_spec foreign_store one_state.1 one_state.2 _ [7%positive]).
  - apply (Ptr.reach_enqueue foreign_store foreign_store PQ_create 0 5).
    + apply Ptr.reach_create.
    + vm_compute. reflexivity.
  - reflexivity.
  - apply (bool_decide_unpack _). vm_compute. exact I.
  - intros a Ha. apply list_elem_of_singleton in Ha. rewrite Ha.
    vm_compute. eauto.
  - vm_compute. discriminate.
Defined.

(** X27.  A round of [test_swap] never fails, whatever the random values
    and whatever is allocated besides: both assertions hold, each of the four
    nodes is freed exactly once, and the allocated nodes are afterwards
    exactly what they were before. *)
Theorem test_swap_round_spec m da pa db pb :
  Ptr.test_swap_round m da pa db pb = Done (true, true, m).
Proof.
  unfold Ptr.test_swap_round, Ptr._node_copy.
  pose proof (malloc_fresh m) as Ha. set (a := malloc m) in *.
  set (m1 := <[a := nd da pa]> m).
  pose proof (malloc_fresh m1) as Hc1. set (c1 := malloc m1) in *.
  assert (D1 : deref m1 a = Done (nd da pa)).
  { unfold deref, m1. by rewrite lookup_insert_eq. }
  rewrite D1. cbn [bind].
  change {| data := data (nd da pa); priority := priority (nd da pa) |}
    with (nd da pa).
  set (m2 := <[c1 := nd da pa]> m1).
  pose proof (malloc_fresh m2) as Hb. set (b := malloc m2) in *.
  set (m3 := <[b := nd db pb]> m2).
  pose proof (malloc_fresh m3) as Hc2. set (c2 := malloc m3) in *.
  assert (D2 : deref m3 b = Done (nd db pb)).
  { unfold deref, m3. by rewrite lookup_insert_eq. }
  rewrite D2. cbn [bind].
  change {| data := data (nd db pb); priority := priority (nd db pb) |}
    with (nd db pb).
  set (m4 := <[c2 := nd db pb]> m3).
  unfold m3 in Hc2. apply lookup_insert_None in Hc2 as [Hc2 Hbc2].
  unfold m2 in Hc2, Hb.
  apply lookup_insert_None in Hc2 as [Hc2 Hc1c2].
  apply lookup_insert_None in Hb as [Hb Hc1b].
  unfold m1 in Hc2, Hb, Hc1.
  apply lookup_insert_None in Hc2 as [Hc2 Hac2].
  apply lookup_insert_None in Hb as [Hb Hab].
  apply lookup_insert_None in Hc1 as [Hc1 Hac1].
  assert (L : forall x, m4 !! x =
            if decide (x = c2) then Some (nd db pb)
            else if decide (x = b) then Some (nd db pb)
            else if decide (x = c1) then Some (nd da pa)
            else if decide (x = a) then Some (nd da pa)
            else m !! x).
  { intros x. unfold m4, m3, m2, m1.
    repeat (destruct (decide (x = _)) as [->|?];
            [by rewrite lookup_insert_eq|rewrite lookup_insert_ne by done]).
    done. }
  assert (Lc2 : m4 !! c2 = Some (nd db pb)).
  { rewrite L. by rewrite decide_True. }
  assert (Lb : m4 !! b = Some (nd db pb)).
  { rewrite L. rewrite decide_False by done. by rewrite decide_True. }
  assert (Lc1 : m4 !! c1 = Some (nd da pa)).
  { rewrite L. rewrite !decide_False by done. by rewrite decide_True. }
  assert (La : m4 !! a = Some (nd da pa)).
  { rewrite L. rewrite !decide_False by done. by rewrite decide_True. }
  change (_swap 0 1 [Some a; Some b]) with (Done [Some b; Some a]).
  cbn [bind].
  change (load [Some b; Some a] 0) with (Done b).
  change (load [Some b; Some a] 1) with (Done a).
  cbn [bind]. unfold deref, free.
  rewrite Lb, Lc2, La, Lc1. cbn [bind].
  rewrite lookup_delete_ne, Lc1 by done. cbn [bind].
  rewrite !lookup_delete_ne, La by done. cbn [bind].
  rewrite !lookup_delete_ne, Lc2 by done. cbn [bind].
  rewrite !compare_single_nodes_eq by done.
  do 2 f_equal. apply map_eq. intros x.
  destruct (decide (x = c2)) as [->|?]; [by rewrite lookup_delete_eq|].
  rewrite lookup_delete_ne by done.
  destruct (decide (x = a)) as [->|?]; [by rewrite lookup_delete_eq|].
  rewrite lookup_delete_ne by done.
  destruct (decide (x = c1)) as [->|?]; [by rewrite lookup_delete_eq|].
  rewrite lookup_delete_ne by done.
  destruct (decide (x = b)) as [->|?]; [by rewrite lookup_delete_eq|].
  rewrite lookup_delete_ne by done.
  rewrite L. by rewrite !decide_False by done.
Qed.

End PtrTestFacts.
